(** * The non-local-target bookkeeping of [kernel_to_il.h]

    A shallow embedding of the classes declared in
    [runtime/vm/compiler/frontend/kernel_to_il.h]: [Fragment], the chain
    pointers of [BaseFlowGraphBuilder] / [FlowGraphBuilder], and the five
    scoped chain records [TryCatchBlock], [TryFinallyBlock],
    [BreakableBlock], [SwitchBlock] and [CatchBlock].

    The records are C++ objects that point at each other ([outer_],
    [outer_finally_]) and at the builder, and two of them cache join nodes
    in mutable fields.  They are therefore kept in an explicit store, one
    finite map per class from addresses to field records; a pointer is an
    [option addr], [None] being [NULL]. *)

From Stdlib Require Import ZArith Lia.
From stdpp Require Import gmap list.

Local Open Scope Z_scope.

(** ** Constants fixed outside the header *)

(** Modelled from the spec: two constants that the header uses and does not
    define.  [kBitsPerWord] is the width of [intptr_t], the type of every
    integer field of the header; it is fixed by the target.
    [kInvalidTryIndex] ([CatchClauseNode::kInvalidTryIndex]) is the
    try-index of code outside every try region.  Both are parameters. *)
Class VMConstants : Type := {
  kBitsPerWord : Z;
  kBitsPerWord_pos : 0 < kBitsPerWord;
  kInvalidTryIndex : Z;
}.

(** ** [intptr_t] *)

(** Values are kept in [Z]; the arithmetic expressions of the header
    ([next_used_try_index_++], [index_ + 1], [try_depth_ - 1],
    [depth_ + case_count_], [target_index - depth_]) go through [wrap],
    the two's-complement result at the width of the target.  Signed
    overflow is undefined in C++: a theorem that depends on the exact sum
    or difference says that it is representable ([in_range]). *)
Module IntPtr.
Section WithConstants.
Context `{VMConstants}.

Definition kMin : Z := - 2 ^ (kBitsPerWord - 1).
Definition kMax : Z := 2 ^ (kBitsPerWord - 1) - 1.

Definition in_range (z : Z) : Prop := kMin <= z <= kMax.

Definition wrap (z : Z) : Z := (z - kMin) mod 2 ^ kBitsPerWord + kMin.

Definition add (a b : Z) : Z := wrap (a + b).
Definition sub (a b : Z) : Z := wrap (a - b).

End WithConstants.
End IntPtr.

(** ** Outcomes *)

(** What a call does besides returning: an [ASSERT] that fires, a read or
    write through [NULL], a read through a pointer to a record whose
    lifetime has ended.  The last two are undefined behaviour in C++; the
    embedding stops the call there and names the cause.  [OutOfFuel] is the
    bound of the two chain walks being hit; in a store whose chains are
    acyclic it never happens. *)
Inductive fault : Type :=
  | AssertionFailure
  | NullDereference
  | DanglingDereference.

Inductive outcome (A : Type) : Type :=
  | Ok (a : A)
  | Fault (f : fault)
  | OutOfFuel.

Arguments Ok {A} a.
Arguments Fault {A} f.
Arguments OutOfFuel {A}.

Definition addr : Type := nat.

(** [p->field] for a pointer [p] into the store [h]. *)
Definition deref {A : Type} (h : gmap addr A) (p : option addr) : outcome A :=
  match p with
  | None => Fault NullDereference
  | Some a =>
      match h !! a with
      | Some r => Ok r
      | None => Fault DanglingDereference
      end
  end.

(** ** [Fragment] *)

(** [Instruction*]: instructions are opaque graph nodes. *)
Definition Instruction : Type := nat.

Record Fragment : Type := mkFragment {
  entry : option Instruction;
  current : option Instruction;
}.

(** [Fragment()] *)
Definition Fragment_empty : Fragment := mkFragment None None.

(** [explicit Fragment(Instruction* instruction)] *)
Definition Fragment_single (instruction : Instruction) : Fragment :=
  mkFragment (Some instruction) (Some instruction).

(** [bool is_open() { return entry == NULL || current != NULL; }] *)
Definition is_open (f : Fragment) : bool :=
  match entry f with
  | None => true
  | Some _ => match current f with Some _ => true | None => false end
  end.

(** [bool is_closed() { return !is_open(); }] *)
Definition is_closed (f : Fragment) : bool := negb (is_open f).

(** The successor edges of the instruction graph, as far as fragments
    create them. *)
Definition links : Type := gmap Instruction Instruction.

(** Modelled from the spec: [Fragment::operator+=] is declared in the header
    (line 91) and defined outside it.  The spec's words: concatenation
    requires the left fragment to be open and a closed left operand is
    signalled by an assertion failure; it wires the left fragment's open
    exit to the right fragment's entry, and the result's [current] becomes
    the right fragment's [current]; a fragment whose [entry] is absent is
    empty and a no-op. *)
Definition plus_assign (this other : Fragment) (g : links)
  : outcome (Fragment * links) :=
  if is_closed this then Fault AssertionFailure
  else
    match entry this, current this, entry other with
    | None, _, _ => Ok (other, g)
    | Some _, _, None => Ok (this, g)
    | Some e, Some c, Some e' =>
        Ok (mkFragment (Some e) (current other), <[c := e']> g)
    | Some _, None, Some _ => Fault AssertionFailure
    end.

(** Modelled from the spec: [operator+(first, second)], declared at line 97;
    [concatenate(a, b)] returns a new fragment, by the same rule. *)
Definition plus (first second : Fragment) (g : links)
  : outcome (Fragment * links) :=
  plus_assign first second g.

(** [Fragment(std::initializer_list<Fragment> list)]: starts from
    [entry(NULL), current(NULL)] and runs [*this += i] over the list. *)
Fixpoint Fragment_of_list_from (this : Fragment) (list : list Fragment)
  (g : links) : outcome (Fragment * links) :=
  match list with
  | [] => Ok (this, g)
  | i :: rest =>
      match plus_assign this i g with
      | Ok (this', g') => Fragment_of_list_from this' rest g'
      | Fault f => Fault f
      | OutOfFuel => OutOfFuel
      end
  end.

Definition Fragment_of_list (list : list Fragment) (g : links)
  : outcome (Fragment * links) :=
  Fragment_of_list_from Fragment_empty list g.

(** ** The builder and the chain records *)

(** [JoinEntryInstr*]: the position of the node in the graph's arena. *)
Definition join_ptr : Type := nat.

(** Modelled from the spec: the instruction classes are outside the header.
    A join entry is a graph node allocated with the try-index it is tagged
    with; nothing else of it is read here. *)
Record JoinEntryInstr : Type := mkJoinEntryInstr {
  join_try_index : Z;
}.

(** The fields of [BaseFlowGraphBuilder] and [FlowGraphBuilder] that the
    chain records read or write. *)
Record FlowGraphBuilder : Type := mkFlowGraphBuilder {
  context_depth_ : Z;
  last_used_block_id_ : Z;
  try_catch_block_ : option addr;
  next_used_try_index_ : Z;
  loop_depth_ : Z;
  try_depth_ : Z;
  catch_depth_ : Z;
  for_in_depth_ : Z;
  breakable_block_ : option addr;
  switch_block_ : option addr;
  try_finally_block_ : option addr;
  catch_block_ : option addr;
}.

(** The fields of each record class; [builder_] is left out, there being
    one builder in a [State]. *)
Record TryCatchBlock : Type := mkTryCatchBlock {
  tcb_outer_ : option addr;
  tcb_try_index_ : Z;
}.

Record TryFinallyBlock : Type := mkTryFinallyBlock {
  tfb_outer_ : option addr;
  tfb_finalizer_kernel_offset_ : Z;
  tfb_context_depth_ : Z;
  tfb_try_depth_ : Z;
  tfb_try_index_ : Z;
}.

Record BreakableBlock : Type := mkBreakableBlock {
  bb_index_ : Z;
  bb_outer_ : option addr;
  bb_destination_ : option join_ptr;
  bb_outer_finally_ : option addr;
  bb_context_depth_ : Z;
  bb_try_index_ : Z;
}.

Record SwitchBlock : Type := mkSwitchBlock {
  sb_outer_ : option addr;
  sb_destinations_ : gmap Z join_ptr;
  sb_outer_finally_ : option addr;
  sb_case_count_ : Z;
  sb_depth_ : Z;
  sb_context_depth_ : Z;
  sb_try_index_ : Z;
}.

(** [LocalVariable*] is an opaque pointer. *)
Record CatchBlock : Type := mkCatchBlock {
  cb_outer_ : option addr;
  cb_exception_var_ : option addr;
  cb_stack_trace_var_ : option addr;
  cb_catch_try_index_ : Z;
}.

(** The builder, the live records of each class, and the join entries
    allocated so far (which are never freed). *)
Record State : Type := mkState {
  builder : FlowGraphBuilder;
  try_catch_blocks : gmap addr TryCatchBlock;
  try_finally_blocks : gmap addr TryFinallyBlock;
  breakable_blocks : gmap addr BreakableBlock;
  switch_blocks : gmap addr SwitchBlock;
  catch_blocks : gmap addr CatchBlock;
  join_entries : list JoinEntryInstr;
}.

Definition with_builder (f : FlowGraphBuilder -> FlowGraphBuilder) (s : State)
  : State :=
  mkState (f (builder s)) (try_catch_blocks s) (try_finally_blocks s)
    (breakable_blocks s) (switch_blocks s) (catch_blocks s) (join_entries s).

Definition with_try_catch_blocks
  (f : gmap addr TryCatchBlock -> gmap addr TryCatchBlock) (s : State) : State :=
  mkState (builder s) (f (try_catch_blocks s)) (try_finally_blocks s)
    (breakable_blocks s) (switch_blocks s) (catch_blocks s) (join_entries s).

Definition with_try_finally_blocks
  (f : gmap addr TryFinallyBlock -> gmap addr TryFinallyBlock) (s : State)
  : State :=
  mkState (builder s) (try_catch_blocks s) (f (try_finally_blocks s))
    (breakable_blocks s) (switch_blocks s) (catch_blocks s) (join_entries s).

Definition with_breakable_blocks
  (f : gmap addr BreakableBlock -> gmap addr BreakableBlock) (s : State)
  : State :=
  mkState (builder s) (try_catch_blocks s) (try_finally_blocks s)
    (f (breakable_blocks s)) (switch_blocks s) (catch_blocks s) (join_entries s).

Definition with_switch_blocks
  (f : gmap addr SwitchBlock -> gmap addr SwitchBlock) (s : State) : State :=
  mkState (builder s) (try_catch_blocks s) (try_finally_blocks s)
    (breakable_blocks s) (f (switch_blocks s)) (catch_blocks s) (join_entries s).

Definition with_catch_blocks
  (f : gmap addr CatchBlock -> gmap addr CatchBlock) (s : State) : State :=
  mkState (builder s) (try_catch_blocks s) (try_finally_blocks s)
    (breakable_blocks s) (switch_blocks s) (f (catch_blocks s)) (join_entries s).

Definition with_join_entries
  (f : list JoinEntryInstr -> list JoinEntryInstr) (s : State) : State :=
  mkState (builder s) (try_catch_blocks s) (try_finally_blocks s)
    (breakable_blocks s) (switch_blocks s) (catch_blocks s) (f (join_entries s)).

(** Assignments to the builder's fields. *)
Definition set_context_depth_ (v : Z) (b : FlowGraphBuilder) : FlowGraphBuilder :=
  mkFlowGraphBuilder v (last_used_block_id_ b) (try_catch_block_ b)
    (next_used_try_index_ b) (loop_depth_ b) (try_depth_ b) (catch_depth_ b)
    (for_in_depth_ b) (breakable_block_ b) (switch_block_ b)
    (try_finally_block_ b) (catch_block_ b).

Definition set_try_catch_block_ (v : option addr) (b : FlowGraphBuilder)
  : FlowGraphBuilder :=
  mkFlowGraphBuilder (context_depth_ b) (last_used_block_id_ b) v
    (next_used_try_index_ b) (loop_depth_ b) (try_depth_ b) (catch_depth_ b)
    (for_in_depth_ b) (breakable_block_ b) (switch_block_ b)
    (try_finally_block_ b) (catch_block_ b).

Definition set_next_used_try_index_ (v : Z) (b : FlowGraphBuilder)
  : FlowGraphBuilder :=
  mkFlowGraphBuilder (context_depth_ b) (last_used_block_id_ b)
    (try_catch_block_ b) v (loop_depth_ b) (try_depth_ b) (catch_depth_ b)
    (for_in_depth_ b) (breakable_block_ b) (switch_block_ b)
    (try_finally_block_ b) (catch_block_ b).

Definition set_try_depth_ (v : Z) (b : FlowGraphBuilder) : FlowGraphBuilder :=
  mkFlowGraphBuilder (context_depth_ b) (last_used_block_id_ b)
    (try_catch_block_ b) (next_used_try_index_ b) (loop_depth_ b) v
    (catch_depth_ b) (for_in_depth_ b) (breakable_block_ b) (switch_block_ b)
    (try_finally_block_ b) (catch_block_ b).

Definition set_breakable_block_ (v : option addr) (b : FlowGraphBuilder)
  : FlowGraphBuilder :=
  mkFlowGraphBuilder (context_depth_ b) (last_used_block_id_ b)
    (try_catch_block_ b) (next_used_try_index_ b) (loop_depth_ b)
    (try_depth_ b) (catch_depth_ b) (for_in_depth_ b) v (switch_block_ b)
    (try_finally_block_ b) (catch_block_ b).

Definition set_switch_block_ (v : option addr) (b : FlowGraphBuilder)
  : FlowGraphBuilder :=
  mkFlowGraphBuilder (context_depth_ b) (last_used_block_id_ b)
    (try_catch_block_ b) (next_used_try_index_ b) (loop_depth_ b)
    (try_depth_ b) (catch_depth_ b) (for_in_depth_ b) (breakable_block_ b) v
    (try_finally_block_ b) (catch_block_ b).

Definition set_try_finally_block_ (v : option addr) (b : FlowGraphBuilder)
  : FlowGraphBuilder :=
  mkFlowGraphBuilder (context_depth_ b) (last_used_block_id_ b)
    (try_catch_block_ b) (next_used_try_index_ b) (loop_depth_ b)
    (try_depth_ b) (catch_depth_ b) (for_in_depth_ b) (breakable_block_ b)
    (switch_block_ b) v (catch_block_ b).

Definition set_catch_block_ (v : option addr) (b : FlowGraphBuilder)
  : FlowGraphBuilder :=
  mkFlowGraphBuilder (context_depth_ b) (last_used_block_id_ b)
    (try_catch_block_ b) (next_used_try_index_ b) (loop_depth_ b)
    (try_depth_ b) (catch_depth_ b) (for_in_depth_ b) (breakable_block_ b)
    (switch_block_ b) (try_finally_block_ b) v.

(** Assignments to the two cache fields. *)
Definition set_bb_destination_ (v : option join_ptr) (r : BreakableBlock)
  : BreakableBlock :=
  mkBreakableBlock (bb_index_ r) (bb_outer_ r) v (bb_outer_finally_ r)
    (bb_context_depth_ r) (bb_try_index_ r).

Definition set_sb_destinations_ (v : gmap Z join_ptr) (r : SwitchBlock)
  : SwitchBlock :=
  mkSwitchBlock (sb_outer_ r) v (sb_outer_finally_ r) (sb_case_count_ r)
    (sb_depth_ r) (sb_context_depth_ r) (sb_try_index_ r).

(** ** The computation monad: state and faults *)

Definition M (A : Type) : Type := State -> outcome (A * State).

#[global] Instance M_ret : MRet M := fun A a s => Ok (a, s).

#[global] Instance M_bind : MBind M := fun A B f m s =>
  match m s with
  | Ok (a, s') => f a s'
  | Fault e => Fault e
  | OutOfFuel => OutOfFuel
  end.

Definition gets {A : Type} (f : State -> A) : M A := fun s => Ok (f s, s).
Definition modify (f : State -> State) : M unit := fun s => Ok (tt, f s).
Definition lift {A : Type} (o : outcome A) : M A := fun s =>
  match o with
  | Ok a => Ok (a, s)
  | Fault e => Fault e
  | OutOfFuel => OutOfFuel
  end.

(** [p->...] on a record of the class stored in [heap]. *)
Definition load {A : Type} (heap : State -> gmap addr A) (p : option addr)
  : M A :=
  fun s => lift (deref (heap s) p) s.

(** ** The operations of the header *)

Section Operations.
Context `{VMConstants}.

(** Modelled from the spec: [BaseFlowGraphBuilder::CurrentTryIndex] is
    declared at line 232 and defined outside the header.  The spec's words:
    every instruction is inside the try-index active at its creation time;
    entering a try region makes its index the active one and leaving
    restores the enclosing index.  The active index is that of the innermost
    [TryCatchBlock], and [kInvalidTryIndex] outside every try region. *)
Definition CurrentTryIndex : M Z :=
  b ← gets builder;
  match try_catch_block_ b with
  | None => mret kInvalidTryIndex
  | Some _ =>
      r ← load try_catch_blocks (try_catch_block_ b);
      mret (tcb_try_index_ r)
  end.

(** Modelled from the spec: [BaseFlowGraphBuilder::BuildJoinEntry(try_index)]
    is declared at line 178 and defined outside the header.  The spec's
    words: the builder owns join node allocation, optionally tagged with a
    try-index; the graph owns every node and none is freed individually.
    The new node is placed at the end of the arena, so its pointer differs
    from the pointer of every node allocated before. *)
Definition BuildJoinEntry (try_index : Z) : M join_ptr :=
  js ← gets join_entries;
  _ ← modify (with_join_entries (fun js => js ++ [mkJoinEntryInstr try_index]));
  mret (length js).

(** [intptr_t AllocateTryIndex() { return next_used_try_index_++; }] *)
Definition AllocateTryIndex : M Z :=
  b ← gets builder;
  _ ← modify (with_builder
                (set_next_used_try_index_
                   (IntPtr.add (next_used_try_index_ b) 1)));
  mret (next_used_try_index_ b).

(** *** [TryCatchBlock] *)

(** [TryCatchBlock(builder, try_handler_index = -1)] constructed at [this]. *)
Definition TryCatchBlock_ctor (this : addr) (try_handler_index : Z) : M unit :=
  b ← gets builder;
  let outer_ := try_catch_block_ b in
  try_index_ ← (if try_handler_index =? -1 then AllocateTryIndex
                else mret try_handler_index);
  _ ← modify (with_builder (set_try_catch_block_ (Some this)));
  modify (with_try_catch_blocks (insert this (mkTryCatchBlock outer_ try_index_))).

(** [~TryCatchBlock() { builder_->try_catch_block_ = outer_; }] *)
Definition TryCatchBlock_dtor (this : addr) : M unit :=
  r ← load try_catch_blocks (Some this);
  _ ← modify (with_builder (set_try_catch_block_ (tcb_outer_ r)));
  modify (with_try_catch_blocks (delete this)).

(** [intptr_t try_index() { return try_index_; }] *)
Definition TryCatchBlock_try_index (this : addr) : M Z :=
  r ← load try_catch_blocks (Some this); mret (tcb_try_index_ r).

(** [TryCatchBlock* outer() const { return outer_; }] *)
Definition TryCatchBlock_outer (this : addr) : M (option addr) :=
  r ← load try_catch_blocks (Some this); mret (tcb_outer_ r).

(** *** [TryFinallyBlock] *)

(** [TryFinallyBlock(builder, finalizer_kernel_offset)] constructed at
    [this]; the member initialisers run before the body's assignment to
    [builder_->try_finally_block_]. *)
Definition TryFinallyBlock_ctor (this : addr) (finalizer_kernel_offset : Z)
  : M unit :=
  b ← gets builder;
  let outer_ := try_finally_block_ b in
  let context_depth := context_depth_ b in
  let try_depth := IntPtr.sub (try_depth_ b) 1 in
  try_index ← CurrentTryIndex;
  _ ← modify (with_builder (set_try_finally_block_ (Some this)));
  modify (with_try_finally_blocks
            (insert this (mkTryFinallyBlock outer_ finalizer_kernel_offset
                            context_depth try_depth try_index))).

(** [~TryFinallyBlock() { builder_->try_finally_block_ = outer_; }] *)
Definition TryFinallyBlock_dtor (this : addr) : M unit :=
  r ← load try_finally_blocks (Some this);
  _ ← modify (with_builder (set_try_finally_block_ (tfb_outer_ r)));
  modify (with_try_finally_blocks (delete this)).

(** The accessors [finalizer_kernel_offset()], [context_depth()],
    [try_depth()], [try_index()] and [outer()]. *)
Definition TryFinallyBlock_finalizer_kernel_offset (this : addr) : M Z :=
  r ← load try_finally_blocks (Some this);
  mret (tfb_finalizer_kernel_offset_ r).

Definition TryFinallyBlock_context_depth (this : addr) : M Z :=
  r ← load try_finally_blocks (Some this); mret (tfb_context_depth_ r).

Definition TryFinallyBlock_try_depth (this : addr) : M Z :=
  r ← load try_finally_blocks (Some this); mret (tfb_try_depth_ r).

Definition TryFinallyBlock_try_index (this : addr) : M Z :=
  r ← load try_finally_blocks (Some this); mret (tfb_try_index_ r).

Definition TryFinallyBlock_outer (this : addr) : M (option addr) :=
  r ← load try_finally_blocks (Some this); mret (tfb_outer_ r).

(** *** [CatchBlock] *)

(** [CatchBlock(builder, exception_var, stack_trace_var, catch_try_index)]
    constructed at [this]. *)
Definition CatchBlock_ctor (this : addr)
  (exception_var stack_trace_var : option addr) (catch_try_index : Z)
  : M unit :=
  b ← gets builder;
  let outer_ := catch_block_ b in
  _ ← modify (with_builder (set_catch_block_ (Some this)));
  modify (with_catch_blocks
            (insert this (mkCatchBlock outer_ exception_var stack_trace_var
                            catch_try_index))).

(** [~CatchBlock() { builder_->catch_block_ = outer_; }] *)
Definition CatchBlock_dtor (this : addr) : M unit :=
  r ← load catch_blocks (Some this);
  _ ← modify (with_builder (set_catch_block_ (cb_outer_ r)));
  modify (with_catch_blocks (delete this)).

(** *** [BreakableBlock] *)

(** [explicit BreakableBlock(builder)] constructed at [this]. *)
Definition BreakableBlock_ctor (this : addr) : M unit :=
  b ← gets builder;
  let outer_ := breakable_block_ b in
  let outer_finally := try_finally_block_ b in
  let context_depth := context_depth_ b in
  try_index ← CurrentTryIndex;
  index ← match breakable_block_ b with
          | None => mret 0
          | Some _ =>
              o ← load breakable_blocks (breakable_block_ b);
              mret (IntPtr.add (bb_index_ o) 1)
          end;
  _ ← modify (with_builder (set_breakable_block_ (Some this)));
  modify (with_breakable_blocks
            (insert this (mkBreakableBlock index outer_ None outer_finally
                            context_depth try_index))).

(** [~BreakableBlock() { builder_->breakable_block_ = outer_; }] *)
Definition BreakableBlock_dtor (this : addr) : M unit :=
  r ← load breakable_blocks (Some this);
  _ ← modify (with_builder (set_breakable_block_ (bb_outer_ r)));
  modify (with_breakable_blocks (delete this)).

(** [bool HadJumper() { return destination_ != NULL; }] *)
Definition BreakableBlock_HadJumper (this : addr) : M bool :=
  r ← load breakable_blocks (Some this);
  mret (match bb_destination_ r with Some _ => true | None => false end).

(** [JoinEntryInstr* destination() { return destination_; }] *)
Definition BreakableBlock_destination (this : addr) : M (option join_ptr) :=
  r ← load breakable_blocks (Some this); mret (bb_destination_ r).

(** [EnsureDestination()]:
    [if (destination_ == NULL) destination_ = builder_->BuildJoinEntry(try_index_);
     return destination_;] *)
Definition BreakableBlock_EnsureDestination (this : option addr) : M join_ptr :=
  r ← load breakable_blocks this;
  match bb_destination_ r, this with
  | Some j, _ => mret j
  | None, Some a =>
      j ← BuildJoinEntry (bb_try_index_ r);
      _ ← modify (with_breakable_blocks
                    (insert a (set_bb_destination_ (Some j) r)));
      mret j
  | None, None => lift (Fault NullDereference)
  end.

(** The loop of [BreakDestination]:
    [while (block->index_ != label_index) block = block->outer_;]
    One unit of [fuel] per evaluation of the condition. *)
Fixpoint walk_label (fuel : nat) (h : gmap addr BreakableBlock)
  (block : option addr) (label_index : Z) : outcome (option addr) :=
  match fuel with
  | O => OutOfFuel
  | S fuel' =>
      match deref h block with
      | Ok r =>
          if negb (bb_index_ r =? label_index)
          then walk_label fuel' h (bb_outer_ r) label_index
          else Ok block
      | Fault e => Fault e
      | OutOfFuel => OutOfFuel
      end
  end.

(** The result of a resolution: the returned join entry and the values
    stored through the two out-parameters ([None]: nothing stored). *)
Record Resolution : Type := mkResolution {
  res_join : join_ptr;
  res_outer_finally : option (option addr);
  res_context_depth : option Z;
}.

(** [BreakDestination(label_index, outer_finally, context_depth)] called on
    the record at [this].  The two out-parameters are stored to without a
    test; they are taken to point to storage of the caller.  A walk along an
    acyclic chain evaluates the loop condition at most once per live record
    and once more on [NULL], which bounds the fuel. *)
Definition BreakableBlock_BreakDestination (this : addr) (label_index : Z)
  : M Resolution :=
  _ ← load breakable_blocks (Some this);
  b ← gets builder;
  h ← gets breakable_blocks;
  block ← lift (walk_label (S (size h)) h (breakable_block_ b) label_index);
  _ ← match block with
      | None => lift (Fault AssertionFailure)
      | Some _ => mret tt
      end;
  r ← load breakable_blocks block;
  j ← BreakableBlock_EnsureDestination block;
  mret (mkResolution j (Some (bb_outer_finally_ r)) (Some (bb_context_depth_ r))).

(** *** [SwitchBlock] *)

(** [SwitchBlock(builder, case_count)] constructed at [this]. *)
Definition SwitchBlock_ctor (this : addr) (case_count : Z) : M unit :=
  b ← gets builder;
  let outer_ := switch_block_ b in
  let outer_finally := try_finally_block_ b in
  let context_depth := context_depth_ b in
  try_index ← CurrentTryIndex;
  _ ← modify (with_builder (set_switch_block_ (Some this)));
  depth ← match outer_ with
          | Some _ =>
              o ← load switch_blocks outer_;
              mret (IntPtr.add (sb_depth_ o) (sb_case_count_ o))
          | None => mret 0
          end;
  modify (with_switch_blocks
            (insert this (mkSwitchBlock outer_ ∅ outer_finally case_count
                            depth context_depth try_index))).

(** [~SwitchBlock() { builder_->switch_block_ = outer_; }] *)
Definition SwitchBlock_dtor (this : addr) : M unit :=
  r ← load switch_blocks (Some this);
  _ ← modify (with_builder (set_switch_block_ (sb_outer_ r)));
  modify (with_switch_blocks (delete this)).

(** [bool HadJumper(case_num) { return destinations_.Lookup(case_num) != NULL; }] *)
Definition SwitchBlock_HadJumper (this : addr) (case_num : Z) : M bool :=
  r ← load switch_blocks (Some this);
  mret (match sb_destinations_ r !! case_num with
        | Some _ => true
        | None => false
        end).

(** [EnsureDestination(case_num)]: the cached entry of [destinations_], or
    a new join entry inserted under [case_num]. *)
Definition SwitchBlock_EnsureDestination (this : option addr) (case_num : Z)
  : M join_ptr :=
  r ← load switch_blocks this;
  match sb_destinations_ r !! case_num, this with
  | Some cached_inst, _ => mret cached_inst
  | None, Some a =>
      inst ← BuildJoinEntry (sb_try_index_ r);
      _ ← modify (with_switch_blocks
                    (insert a (set_sb_destinations_
                                 (<[case_num := inst]> (sb_destinations_ r)) r)));
      mret inst
  | None, None => lift (Fault NullDereference)
  end.

(** The loop of [Destination]:
    [while (block->depth_ > target_index) block = block->outer_;] *)
Fixpoint walk_depth (fuel : nat) (h : gmap addr SwitchBlock)
  (block : option addr) (target_index : Z) : outcome (option addr) :=
  match fuel with
  | O => OutOfFuel
  | S fuel' =>
      match deref h block with
      | Ok r =>
          if sb_depth_ r >? target_index
          then walk_depth fuel' h (sb_outer_ r) target_index
          else Ok block
      | Fault e => Fault e
      | OutOfFuel => OutOfFuel
      end
  end.

(** [if (outer_finally != NULL) { *outer_finally = ...; *context_depth = ...; }]
    The flags say which of the two out-pointers of the caller is not
    [NULL]. *)
Definition store_out_params (outer_finally context_depth : bool)
  (r : SwitchBlock) : M (option (option addr) * option Z) :=
  if outer_finally then
    if context_depth
    then mret (Some (sb_outer_finally_ r), Some (sb_context_depth_ r))
    else lift (Fault NullDereference)
  else mret (None, None).

(** [Destination(target_index, outer_finally = NULL, context_depth = NULL)]
    called on the record at [this]. *)
Definition SwitchBlock_Destination (this : addr) (target_index : Z)
  (outer_finally context_depth : bool) : M Resolution :=
  h ← gets switch_blocks;
  block ← lift (walk_depth (S (size h)) h (Some this) target_index);
  r ← load switch_blocks block;
  '(fin, dep) ← store_out_params outer_finally context_depth r;
  j ← SwitchBlock_EnsureDestination block
        (IntPtr.sub target_index (sb_depth_ r));
  mret (mkResolution j fin dep).

(** [DestinationDirect(case_num, outer_finally = NULL, context_depth = NULL)]
    called on the record at [this]. *)
Definition SwitchBlock_DestinationDirect (this : addr) (case_num : Z)
  (outer_finally context_depth : bool) : M Resolution :=
  r ← load switch_blocks (Some this);
  '(fin, dep) ← store_out_params outer_finally context_depth r;
  j ← SwitchBlock_EnsureDestination (Some this) case_num;
  mret (mkResolution j fin dep).

End Operations.

(** ** Sequences of operations *)

(** The operations the header offers on a builder, for statements about
    what happens during the lifetime of a record: the constructors and
    destructors of the five classes, the three resolutions, the two
    allocators, and the assignments that the translation (a friend class)
    makes to the builder's depth counters. *)
Inductive op : Type :=
  | TryCatchBlock_new (this : addr) (try_handler_index : Z)
  | TryCatchBlock_delete (this : addr)
  | TryFinallyBlock_new (this : addr) (finalizer_kernel_offset : Z)
  | TryFinallyBlock_delete (this : addr)
  | CatchBlock_new (this : addr) (exception_var stack_trace_var : option addr)
      (catch_try_index : Z)
  | CatchBlock_delete (this : addr)
  | BreakableBlock_new (this : addr)
  | BreakableBlock_delete (this : addr)
  | SwitchBlock_new (this : addr) (case_count : Z)
  | SwitchBlock_delete (this : addr)
  | BreakDestination_call (this : addr) (label_index : Z)
  | Destination_call (this : addr) (target_index : Z)
      (outer_finally context_depth : bool)
  | DestinationDirect_call (this : addr) (case_num : Z)
      (outer_finally context_depth : bool)
  | AllocateTryIndex_call
  | BuildJoinEntry_call (try_index : Z)
  | Assign_context_depth_ (v : Z)
  | Assign_try_depth_ (v : Z).

Section Run.
Context `{VMConstants}.

Definition exec (o : op) : M unit :=
  match o with
  | TryCatchBlock_new this i => TryCatchBlock_ctor this i
  | TryCatchBlock_delete this => TryCatchBlock_dtor this
  | TryFinallyBlock_new this off => TryFinallyBlock_ctor this off
  | TryFinallyBlock_delete this => TryFinallyBlock_dtor this
  | CatchBlock_new this e t i => CatchBlock_ctor this e t i
  | CatchBlock_delete this => CatchBlock_dtor this
  | BreakableBlock_new this => BreakableBlock_ctor this
  | BreakableBlock_delete this => BreakableBlock_dtor this
  | SwitchBlock_new this n => SwitchBlock_ctor this n
  | SwitchBlock_delete this => SwitchBlock_dtor this
  | BreakDestination_call this l =>
      _ ← BreakableBlock_BreakDestination this l; mret tt
  | Destination_call this t f d =>
      _ ← SwitchBlock_Destination this t f d; mret tt
  | DestinationDirect_call this n f d =>
      _ ← SwitchBlock_DestinationDirect this n f d; mret tt
  | AllocateTryIndex_call => _ ← AllocateTryIndex; mret tt
  | BuildJoinEntry_call i => _ ← BuildJoinEntry i; mret tt
  | Assign_context_depth_ v => modify (with_builder (set_context_depth_ v))
  | Assign_try_depth_ v => modify (with_builder (set_try_depth_ v))
  end.

Fixpoint run (body : list op) : M unit :=
  match body with
  | [] => mret tt
  | o :: rest => _ ← exec o; run rest
  end.

(** [N] break resolutions in a row, one per label of the list, all called
    on the record at [this]; the results in call order. *)
Fixpoint resolve_breaks (this : addr) (labels : list Z) : M (list Resolution) :=
  match labels with
  | [] => mret []
  | l :: rest =>
      r ← BreakableBlock_BreakDestination this l;
      rs ← resolve_breaks this rest;
      mret (r :: rs)
  end.

(** Switch constructs entered one inside the other, outermost first. *)
Fixpoint nest_switches (blocks : list (addr * Z)) : M unit :=
  match blocks with
  | [] => mret tt
  | (this, case_count) :: rest =>
      _ ← SwitchBlock_ctor this case_count; nest_switches rest
  end.

End Run.

(** The constructions and destructions of a record of each class at an
    address. *)
Definition touches_try_catch (this : addr) (o : op) : bool :=
  match o with
  | TryCatchBlock_new a _ | TryCatchBlock_delete a => bool_decide (a = this)
  | _ => false
  end.

Definition touches_try_finally (this : addr) (o : op) : bool :=
  match o with
  | TryFinallyBlock_new a _ | TryFinallyBlock_delete a => bool_decide (a = this)
  | _ => false
  end.

Definition touches_catch (this : addr) (o : op) : bool :=
  match o with
  | CatchBlock_new a _ _ _ | CatchBlock_delete a => bool_decide (a = this)
  | _ => false
  end.

Definition touches_breakable (this : addr) (o : op) : bool :=
  match o with
  | BreakableBlock_new a | BreakableBlock_delete a => bool_decide (a = this)
  | _ => false
  end.

Definition touches_switch (this : addr) (o : op) : bool :=
  match o with
  | SwitchBlock_new a _ | SwitchBlock_delete a => bool_decide (a = this)
  | _ => false
  end.

(** ** Chains *)

(** A pointer that is [NULL] or points to a live record. *)
Definition ptr_valid {A : Type} (h : gmap addr A) (p : option addr) : Prop :=
  match p with
  | None => True
  | Some a => is_Some (h !! a)
  end.

(** [chain outer h top l]: following [outer] from [top] through the live
    records of [h] visits the addresses [l], each once, and ends at
    [NULL]. *)
Inductive chain {A : Type} (outer : A -> option addr) (h : gmap addr A)
  : option addr -> list addr -> Prop :=
  | chain_nil : chain outer h None []
  | chain_cons a r l :
      h !! a = Some r ->
      a ∉ l ->
      chain outer h (outer r) l ->
      chain outer h (Some a) (a :: l).

(** The first record of a breakable chain that carries a label. *)
Fixpoint first_label (h : gmap addr BreakableBlock) (l : list addr)
  (label_index : Z) : option addr :=
  match l with
  | [] => None
  | a :: l' =>
      match h !! a with
      | Some r =>
          if bb_index_ r =? label_index then Some a
          else first_label h l' label_index
      | None => None
      end
  end.

(** The fields of a [BreakableBlock] other than the cache. *)
Definition bb_fixed (r : BreakableBlock)
  : Z * option addr * option addr * Z * Z :=
  (bb_index_ r, bb_outer_ r, bb_outer_finally_ r, bb_context_depth_ r,
   bb_try_index_ r).

(** The fields of a [SwitchBlock] other than the cache. *)
Definition sb_fixed (r : SwitchBlock)
  : option addr * option addr * Z * Z * Z * Z :=
  (sb_outer_ r, sb_outer_finally_ r, sb_case_count_ r, sb_depth_ r,
   sb_context_depth_ r, sb_try_index_ r).

(** The first record of a switch chain whose depth does not exceed the
    target. *)
Fixpoint first_within (h : gmap addr SwitchBlock) (l : list addr)
  (target_index : Z) : option addr :=
  match l with
  | [] => None
  | a :: l' =>
      match h !! a with
      | Some r =>
          if sb_depth_ r >? target_index then first_within h l' target_index
          else Some a
      | None => None
      end
  end.

Definition sum_Z (l : list Z) : Z := foldr Z.add 0 l.

(** The pointers of the builder that the constructors read through. *)
Definition tops_valid (s : State) : Prop :=
  ptr_valid (try_catch_blocks s) (try_catch_block_ (builder s))
  /\ ptr_valid (breakable_blocks s) (breakable_block_ (builder s))
  /\ ptr_valid (switch_blocks s) (switch_block_ (builder s)).

(** No operation of [body] constructs or destroys a record at [this]. *)
Definition untouched (touches : addr -> op -> bool) (this : addr)
  (body : list op) : Prop :=
  forallb (fun o => negb (touches this o)) body = true.

(** Two states that agree on a view. *)
Definition same {V : Type} (view : State -> V) : relation State :=
  fun s s' => view s' = view s.

(** A join entry cached in the [destination_] field of the record at [p]
    is still cached there. *)
Definition keeps_cached (p : addr) : relation State :=
  fun s s' =>
    forall j, bb_destination_ <$> breakable_blocks s !! p = Some (Some j) ->
              bb_destination_ <$> breakable_blocks s' !! p = Some (Some j).

(** What stays of a record during its lifetime: all of it, but for the
    cache fields of the two classes that have one. *)
Definition view_try_catch (this : addr) (s : State) : option TryCatchBlock :=
  try_catch_blocks s !! this.

Definition view_try_finally (this : addr) (s : State) : option TryFinallyBlock :=
  try_finally_blocks s !! this.

Definition view_catch (this : addr) (s : State) : option CatchBlock :=
  catch_blocks s !! this.

Definition view_breakable (this : addr) (s : State)
  : option (Z * option addr * option addr * Z * Z) :=
  bb_fixed <$> breakable_blocks s !! this.

Definition view_switch (this : addr) (s : State)
  : option (option addr * option addr * Z * Z * Z * Z) :=
  sb_fixed <$> switch_blocks s !! this.

(** The value the constructor of [BreakableBlock] stores in [index_], as a
    function of the state it is called in. *)
Definition next_label_index `{VMConstants} (s : State) : Z :=
  match breakable_block_ (builder s) with
  | None => 0
  | Some a =>
      match breakable_blocks s !! a with
      | Some o => IntPtr.add (bb_index_ o) 1
      | None => 0
      end
  end.

(** The value the constructor of [SwitchBlock] stores in [depth_], as a
    function of the state it is called in. *)
Definition next_depth `{VMConstants} (s : State) : Z :=
  match switch_block_ (builder s) with
  | None => 0
  | Some a =>
      match switch_blocks s !! a with
      | Some o => IntPtr.add (sb_depth_ o) (sb_case_count_ o)
      | None => 0
      end
  end.

(** What a resolution stores through an out-pointer that is not [NULL]. *)
Definition out_value {A : Type} (flag : bool) (v : A) : option A :=
  if flag then Some v else None.

(** ** Example states *)

(** A builder as the constructor of [BaseFlowGraphBuilder] leaves it
    ([context_depth_(0)], [try_catch_block_(NULL)],
    [next_used_try_index_(0)]), the counters and chain pointers of
    [FlowGraphBuilder] cleared, no record alive and no join entry
    allocated. *)
Definition new_builder (last_used_block_id : Z) : FlowGraphBuilder :=
  mkFlowGraphBuilder 0 last_used_block_id None 0 0 0 0 0 None None None None.

Definition new_state (last_used_block_id : Z) : State :=
  mkState (new_builder last_used_block_id) ∅ ∅ ∅ ∅ ∅ [].

(** An instance of the constants, for evaluating the examples. *)
Definition reference_constants : VMConstants :=
  {| kBitsPerWord := 64; kBitsPerWord_pos := eq_refl; kInvalidTryIndex := -1 |}.

(** Two breakable constructs, the one at address 11 (label 1) inside the
    one at address 10 (label 0); see [two_breakables_built]. *)
Definition two_breakables : State :=
  mkState (set_breakable_block_ (Some 11%nat) (new_builder 0)) ∅ ∅
    (<[11%nat := mkBreakableBlock 1 (Some 10%nat) None None 0 (-1)]>
       (<[10%nat := mkBreakableBlock 0 None None None 0 (-1)]> ∅))
    ∅ ∅ [].

(** One switch construct with three cases at address 20, inside another
    switch of two cases at address 19. *)
Definition two_switches : State :=
  mkState (set_switch_block_ (Some 20%nat) (new_builder 0)) ∅ ∅ ∅
    (<[20%nat := mkSwitchBlock (Some 19%nat) ∅ None 3 2 0 (-1)]>
       (<[19%nat := mkSwitchBlock None ∅ None 2 0 0 (-1)]> ∅))
    ∅ [].

(** ** More of the header *)

Definition set_last_used_block_id_ (v : Z) (b : FlowGraphBuilder)
  : FlowGraphBuilder :=
  mkFlowGraphBuilder (context_depth_ b) v
    (try_catch_block_ b) (next_used_try_index_ b) (loop_depth_ b)
    (try_depth_ b) (catch_depth_ b) (for_in_depth_ b) (breakable_block_ b)
    (switch_block_ b) (try_finally_block_ b) (catch_block_ b).

Section MoreOperations.
Context `{VMConstants}.

(** The accessors of [CatchBlock]: [exception_var()], [stack_trace_var()]
    and [catch_try_index()]. *)
Definition CatchBlock_exception_var (this : addr) : M (option addr) :=
  r ← load catch_blocks (Some this); mret (cb_exception_var_ r).

Definition CatchBlock_stack_trace_var (this : addr) : M (option addr) :=
  r ← load catch_blocks (Some this); mret (cb_stack_trace_var_ r).

Definition CatchBlock_catch_try_index (this : addr) : M Z :=
  r ← load catch_blocks (Some this); mret (cb_catch_try_index_ r).

(** Breakable constructs entered one inside the other, outermost first. *)
Fixpoint nest_breakables (blocks : list addr) : M unit :=
  match blocks with
  | [] => mret tt
  | this :: rest => _ ← BreakableBlock_ctor this; nest_breakables rest
  end.

(** Try regions entered one inside the other, each with the default
    [try_handler_index = -1], outermost first. *)
Fixpoint nest_try_catch (blocks : list addr) : M unit :=
  match blocks with
  | [] => mret tt
  | this :: rest => _ ← TryCatchBlock_ctor this (-1); nest_try_catch rest
  end.

(** [intptr_t AllocateBlockId() { return ++last_used_block_id_; }] *)
Definition AllocateBlockId : M Z :=
  b ← gets builder;
  let id := IntPtr.add (last_used_block_id_ b) 1 in
  _ ← modify (with_builder (set_last_used_block_id_ id));
  mret id.

(** [n] calls of an allocator in a row; the results in call order. *)
Fixpoint allocate_n (alloc : M Z) (n : nat) : M (list Z) :=
  match n with
  | O => mret []
  | S n' => x ← alloc; xs ← allocate_n alloc n'; mret (x :: xs)
  end.

End MoreOperations.

(** ** The keys of the constants table *)

(** [KernelConstMapKeyEqualsTraits]: the traits of the hash map that holds
    the constants of a kernel program, keyed by small integers.  The class
    [Smi] is outside the header: its boxed values [RawSmi], the
    constructor [Smi::New], the accessor [Value] and the constant
    [Smi::kMaxValue] are parameters here.  A handle [const Object&] that is
    cast with [Smi::Cast] is kept as the boxed value it refers to. *)
Module KernelConstMapKeyEqualsTraits.
Section WithSmi.
Context `{VMConstants}.
Context {RawSmi : Type} `{EqDecision RawSmi}.
Variable Smi_New : Z -> RawSmi.
Variable Smi_Value : RawSmi -> Z.
Variable Smi_kMaxValue : Z.

(** The conversion of an [intptr_t] to [uword] at a [return]. *)
Definition to_uword (z : Z) : Z := z mod 2 ^ kBitsPerWord.

(** [static uword HashValue(intptr_t pos) { return pos % (Smi::kMaxValue - 13); }]
    The remainder of C++ has the sign of the dividend; a zero divisor is
    undefined there, and the theorems take [13 < Smi::kMaxValue]. *)
Definition HashValue (pos : Z) : Z :=
  to_uword (Z.rem pos (IntPtr.sub Smi_kMaxValue 13)).

(** [KeyAsSmi(key)]: [ASSERT(key >= 0); return Smi::New(key);] *)
Definition KeyAsSmi (key : Z) : outcome RawSmi :=
  if key >=? 0 then Ok (Smi_New key) else Fault AssertionFailure.

(** [IsMatch(const Object& a, const Object& b)] *)
Definition IsMatch (a b : RawSmi) : bool :=
  Smi_Value a =? Smi_Value b.

(** [IsMatch(const intptr_t key1, const Object& b)] *)
Definition IsMatch_key (key1 : Z) (b : RawSmi) : outcome bool :=
  match KeyAsSmi key1 with
  | Ok r => Ok (bool_decide (r = b))
  | Fault f => Fault f
  | OutOfFuel => OutOfFuel
  end.

(** [Hash(const Object& obj)] *)
Definition Hash (obj : RawSmi) : Z := HashValue (Smi_Value obj).

(** [Hash(const intptr_t key)] *)
Definition Hash_key (key : Z) : outcome Z :=
  match KeyAsSmi key with
  | Ok r => Ok (HashValue (Smi_Value r))
  | Fault f => Fault f
  | OutOfFuel => OutOfFuel
  end.

(** [NewKey(const intptr_t key)] *)
Definition NewKey (key : Z) : outcome RawSmi := KeyAsSmi key.

End WithSmi.
End KernelConstMapKeyEqualsTraits.

(** The operations that can allocate a join entry. *)
Definition allocates (o : op) : bool :=
  match o with
  | BreakDestination_call _ _ | Destination_call _ _ _ _
  | DestinationDirect_call _ _ _ _ | BuildJoinEntry_call _ => true
  | _ => false
  end.

(** The break resolutions. *)
Definition is_break (o : op) : bool :=
  match o with
  | BreakDestination_call _ _ => true
  | _ => false
  end.

(** The switch resolutions. *)
Definition is_switch_jump (o : op) : bool :=
  match o with
  | Destination_call _ _ _ _ | DestinationDirect_call _ _ _ _ => true
  | _ => false
  end.

(** The places a join entry is cached in: the [destination_] field of a
    breakable record, and the entry of a case number in the [destinations_]
    map of a switch record. *)
Inductive slot : Type :=
  | BreakSlot (p : addr)
  | CaseSlot (p : addr) (case_num : Z).

Definition slot_join (s : State) (sl : slot) : option join_ptr :=
  match sl with
  | BreakSlot p =>
      match breakable_blocks s !! p with
      | Some r => bb_destination_ r
      | None => None
      end
  | CaseSlot p n =>
      match switch_blocks s !! p with
      | Some r => sb_destinations_ r !! n
      | None => None
      end
  end.

(** The try-index recorded in the record a slot belongs to. *)
Definition slot_try_index (s : State) (sl : slot) : option Z :=
  match sl with
  | BreakSlot p => bb_try_index_ <$> breakable_blocks s !! p
  | CaseSlot p _ => sb_try_index_ <$> switch_blocks s !! p
  end.

(** Every cached join entry is a node of the arena that carries the
    try-index of the record it is cached in, and no two slots cache the
    same node. *)
Definition caches_wf (s : State) : Prop :=
  (forall sl j,
      slot_join s sl = Some j ->
      exists ti, slot_try_index s sl = Some ti
                 /\ join_entries s !! j = Some (mkJoinEntryInstr ti))
  /\ (forall sl1 sl2 j,
        slot_join s sl1 = Some j -> slot_join s sl2 = Some j -> sl1 = sl2).

(** An invariant that is kept. *)
Definition keeps (P : State -> Prop) : relation State :=
  fun s s' => P s -> P s'.

(** The arena only grows. *)
Definition arena_grows : relation State :=
  fun s s' => join_entries s `prefix_of` join_entries s'.

(** A join entry cached for a case of the switch record at [p] is still
    cached there. *)
Definition keeps_case_cached (p : addr) (n : Z) : relation State :=
  fun s s' =>
    forall j, slot_join s (CaseSlot p n) = Some j ->
              slot_join s' (CaseSlot p n) = Some j.

#[global] Instance slot_eq_dec : EqDecision slot.
Proof. solve_decision. Defined.

(** The whole record at an address, cache included. *)
Definition record_breakable (this : addr) (s : State) : option BreakableBlock :=
  breakable_blocks s !! this.

Definition record_switch (this : addr) (s : State) : option SwitchBlock :=
  switch_blocks s !! this.

(** The operations that can write to the breakable record at [this]: its
    construction and destruction, and the break resolutions. *)
Definition writes_breakable (this : addr) (o : op) : bool :=
  touches_breakable this o || is_break o.

(** The operations that can write to the switch record at [this]. *)
Definition writes_switch (this : addr) (o : op) : bool :=
  touches_switch this o || is_switch_jump o.


(** The operations that take a try index from the builder's counter:
    [AllocateTryIndex] itself, and the construction of a [TryCatchBlock]
    with the default handler index. *)
Definition allocates_try_index (o : op) : bool :=
  match o with
  | AllocateTryIndex_call => true
  | TryCatchBlock_new _ i => i =? -1
  | _ => false
  end.

Definition try_allocations (body : list op) : nat :=
  length (List.filter allocates_try_index body).

Definition view_next_used_try_index (s : State) : Z :=
  next_used_try_index_ (builder s).

(** The successor edges that chaining the instructions [instrs] after the
    instruction [c] adds, one after the other. *)
Fixpoint wire (c : Instruction) (instrs : list Instruction) (g : links) : links :=
  match instrs with
  | [] => g
  | i :: rest => wire i rest (<[c := i]> g)
  end.

(** * Properties *)

(** ** [intptr_t] arithmetic *)

Section IntPtrFacts.
Context `{VMConstants}.

Lemma IntPtr_half_pos : 0 < 2 ^ (kBitsPerWord - 1).
Proof. pose proof kBitsPerWord_pos. apply Z.pow_pos_nonneg; lia. Qed.

Lemma IntPtr_modulus : 2 ^ kBitsPerWord = 2 * 2 ^ (kBitsPerWord - 1).
Proof.
  pose proof kBitsPerWord_pos.
  rewrite <- Z.pow_succ_r by lia. f_equal. lia.
Qed.

Lemma IntPtr_wrap_in_range z : IntPtr.in_range (IntPtr.wrap z).
Proof.
  unfold IntPtr.in_range, IntPtr.wrap, IntPtr.kMin, IntPtr.kMax.
  pose proof IntPtr_half_pos as Hhalf. rewrite IntPtr_modulus.
  assert (0 < 2 * 2 ^ (kBitsPerWord - 1)) as Hpos by lia.
  pose proof (Z.mod_pos_bound (z - - 2 ^ (kBitsPerWord - 1)) _ Hpos).
  lia.
Qed.

Lemma IntPtr_wrap_id z : IntPtr.in_range z -> IntPtr.wrap z = z.
Proof.
  unfold IntPtr.in_range, IntPtr.wrap, IntPtr.kMin, IntPtr.kMax.
  pose proof IntPtr_half_pos. rewrite IntPtr_modulus.
  intros Hz. rewrite Z.mod_small; lia.
Qed.

Lemma IntPtr_add_exact a b : IntPtr.in_range (a + b) -> IntPtr.add a b = a + b.
Proof. apply IntPtr_wrap_id. Qed.

Lemma IntPtr_sub_exact a b : IntPtr.in_range (a - b) -> IntPtr.sub a b = a - b.
Proof. apply IntPtr_wrap_id. Qed.

(** [(d + n) - d] is [n] again when the sum and [n] are representable. *)
Lemma IntPtr_sub_add_cancel d n :
  IntPtr.in_range n -> IntPtr.in_range (d + n) ->
  IntPtr.sub (IntPtr.add d n) d = n.
Proof.
  intros Hn Hdn. rewrite IntPtr_add_exact by done.
  unfold IntPtr.sub. replace (d + n - d) with n by lia.
  by apply IntPtr_wrap_id.
Qed.

End IntPtrFacts.

Ltac range_lia :=
  unfold IntPtr.in_range, IntPtr.kMin, IntPtr.kMax in *;
  pose proof IntPtr_half_pos;
  lia.

(** ** Fragments *)

(** C3.  For every fragment, [is_open] holds exactly when [entry] is absent
    or [current] is present, [is_closed] holds exactly when [entry] is
    present and [current] is absent, and [is_closed] is the negation of
    [is_open]. *)
Theorem Fragment_is_open_is_closed (f : Fragment) :
  (is_open f = true <-> entry f = None \/ current f <> None)
  /\ (is_closed f = true <-> entry f <> None /\ current f = None)
  /\ is_closed f = negb (is_open f).
Proof.
  destruct f as [[e|] [c|]]; unfold is_closed, is_open; simpl;
    intuition congruence.
Qed.

(** C4.  Concatenating onto a closed fragment ([entry] present, [current]
    absent) is rejected with an assertion failure, whatever the right
    operand, by [operator+=] and by [operator+]; no fragment is produced. *)
Theorem Fragment_plus_closed_left_faults (a b : Fragment) (g : links) :
  entry a <> None -> current a = None ->
  plus_assign a b g = Fault AssertionFailure
  /\ plus a b g = Fault AssertionFailure
  /\ (forall r, plus_assign a b g <> Ok r)
  /\ (forall r, plus a b g <> Ok r).
Proof.
  intros He Hc. unfold plus, plus_assign, is_closed, is_open.
  destruct (entry a) as [e|]; [|done]. rewrite Hc. simpl.
  repeat split; intros; congruence.
Qed.

Lemma Fragment_plus_closed_left_faults_witness :
  plus (mkFragment (Some 1%nat) None) (Fragment_single 2%nat) ∅
  = Fault AssertionFailure.
Proof.
  apply (Fragment_plus_closed_left_faults
           (mkFragment (Some 1%nat) None) (Fragment_single 2%nat) ∅);
    simpl; [discriminate | reflexivity].
Defined.

(** C5.  Concatenating onto an open fragment [a] succeeds.  When neither
    operand is empty the result has [a]'s entry and [b]'s current, and the
    open exit of [a] is wired to the entry of [b]; an empty operand (absent
    [entry]) is a no-op: the result is the other operand and no edge is
    added. *)
Theorem Fragment_plus_open_left (a b : Fragment) (g : links) :
  is_open a = true ->
  exists r g',
    plus a b g = Ok (r, g')
    /\ plus_assign a b g = Ok (r, g')
    /\ (entry a <> None -> entry b <> None ->
        entry r = entry a /\ current r = current b
        /\ exists c e', current a = Some c /\ entry b = Some e'
                        /\ g' = <[c := e']> g)
    /\ (entry a = None -> r = b /\ g' = g)
    /\ (entry a <> None -> entry b = None -> r = a /\ g' = g).
Proof.
  intros Ho. unfold plus, plus_assign, is_closed. rewrite Ho. simpl.
  unfold is_open in Ho.
  destruct (entry a) as [e|] eqn:Ea.
  - destruct (current a) as [c|] eqn:Ca; [|discriminate].
    destruct (entry b) as [e'|] eqn:Eb.
    + eexists _, _. repeat split; try done. eauto.
    + eexists _, _. repeat split; done.
  - eexists _, _. repeat split; done.
Qed.

Lemma Fragment_plus_open_left_witness :
  exists r g',
    plus (Fragment_single 1%nat) (Fragment_single 2%nat) ∅ = Ok (r, g')
    /\ entry r = Some 1%nat /\ current r = Some 2%nat.
Proof.
  destruct (Fragment_plus_open_left (Fragment_single 1%nat) (Fragment_single 2%nat) ∅)
    as (r & g' & Hp & _ & Hne & _); [reflexivity|].
  exists r, g'. split; [exact Hp|].
  destruct Hne as (He & Hc & _); [discriminate | discriminate |].
  split; [exact He | exact Hc].
Defined.

(** The list constructor starts from the empty fragment, so an empty left
    operand has to pass the right operand through. *)
Lemma Fragment_of_list_single (f : Fragment) (g : links) :
  Fragment_of_list [f] g = Ok (f, g).
Proof. reflexivity. Qed.

(** ** The monad *)

Lemma bind_Ok {A B : Type} (m : M A) (f : A -> M B) s b s' :
  (m ≫= f) s = Ok (b, s') <->
  exists a s1, m s = Ok (a, s1) /\ f a s1 = Ok (b, s').
Proof.
  unfold mbind, M_bind. split.
  - destruct (m s) as [[a s1]| |]; [eauto | done | done].
  - intros (a & s1 & -> & Hf). done.
Qed.

Lemma bind_Ok_intro {A B : Type} (m : M A) (f : A -> M B) s a s1 :
  m s = Ok (a, s1) -> (m ≫= f) s = f a s1.
Proof. unfold mbind, M_bind. by intros ->. Qed.

Lemma load_Ok {A : Type} (heap : State -> gmap addr A) p s r s' :
  load heap p s = Ok (r, s') <->
  exists a, p = Some a /\ heap s !! a = Some r /\ s' = s.
Proof.
  unfold load, lift, deref. split.
  - destruct p as [a|]; [|done].
    destruct (heap s !! a) eqn:E; [|done]. intros [= -> ->]. eauto.
  - intros (a & -> & -> & ->). done.
Qed.

Lemma load_live {A : Type} (heap : State -> gmap addr A) a s r :
  heap s !! a = Some r -> load heap (Some a) s = Ok (r, s).
Proof. intros E. apply load_Ok. eauto. Qed.

(** [preserves R m]: a call of [m] that returns relates the state before
    to the state after by [R]. *)
Definition preserves {A : Type} (R : relation State) (m : M A) : Prop :=
  forall s a s', m s = Ok (a, s') -> R s s'.

Section Preserves.
Context (R : relation State) `{!PreOrder R}.

Lemma preserves_ret {A : Type} (a : A) : preserves R (mret a).
Proof. intros s a' s' [= _ ->]. done. Qed.

Lemma preserves_bind {A B : Type} (m : M A) (f : A -> M B) :
  preserves R m -> (forall a, preserves R (f a)) ->
  preserves R (m ≫= f).
Proof.
  intros Hm Hf s b s' (a & s1 & H1 & H2)%bind_Ok.
  trans s1; [eapply Hm, H1 | eapply Hf, H2].
Qed.

Lemma preserves_gets {A : Type} (f : State -> A) : preserves R (gets f).
Proof. intros s a s' [= _ ->]. done. Qed.

Lemma preserves_lift {A : Type} (o : outcome A) : preserves R (lift o).
Proof. intros s a s'. unfold lift. destruct o; [|done|done]. by intros [= _ ->]. Qed.

Lemma preserves_load {A : Type} (heap : State -> gmap addr A) p :
  preserves R (load heap p).
Proof. intros s a s' (? & _ & _ & ->)%load_Ok. done. Qed.

Lemma preserves_modify (f : State -> State) :
  (forall s, R s (f s)) -> preserves R (modify f).
Proof. intros Hf s a s' [= _ <-]. apply Hf. Qed.

End Preserves.

#[global] Instance same_preorder {V : Type} (view : State -> V) :
  PreOrder (same view).
Proof.
  split; [by intros s|]. intros s1 s2 s3 H12 H23. unfold same in *. congruence.
Qed.

#[global] Instance keeps_cached_preorder (p : addr) : PreOrder (keeps_cached p).
Proof.
  split; [by intros s j|]. intros s1 s2 s3 H12 H23 j Hj. by apply H23, H12.
Qed.

Ltac preserves_step :=
  first
    [ apply preserves_ret; apply _
    | apply preserves_gets; apply _
    | apply preserves_lift; apply _
    | apply preserves_load; apply _
    | apply preserves_bind; [apply _ | | intros]
    | match goal with
      | |- preserves _ (match ?x with _ => _ end) => destruct x
      | |- preserves _ (if ?x then _ else _) => destruct x
      | |- preserves _ (let '(_, _) := ?x in _) => destruct x
      end ].

Ltac preserves_auto := repeat preserves_step.

(** ** The builder and its records *)

Section Properties.
Context `{VMConstants}.

Lemma CurrentTryIndex_state s ti s' :
  CurrentTryIndex s = Ok (ti, s') -> s' = s.
Proof.
  unfold CurrentTryIndex. intros (b & s1 & [= <- <-] & Hm)%bind_Ok.
  destruct (try_catch_block_ (builder s)).
  - apply bind_Ok in Hm as (r & s2 & (? & _ & _ & ->)%load_Ok & [= _ ->]). done.
  - by injection Hm.
Qed.

Lemma CurrentTryIndex_valid s :
  ptr_valid (try_catch_blocks s) (try_catch_block_ (builder s)) ->
  exists ti, CurrentTryIndex s = Ok (ti, s).
Proof.
  unfold ptr_valid, CurrentTryIndex. intros Hv.
  unfold mbind, M_bind, gets. simpl.
  destruct (try_catch_block_ (builder s)) as [a|] eqn:E.
  - destruct Hv as [r Hr]. exists (tcb_try_index_ r).
    rewrite (load_live try_catch_blocks a s r Hr). done.
  - by eexists.
Qed.

Lemma BreakableBlock_EnsureDestination_effect block s j s' :
  BreakableBlock_EnsureDestination block s = Ok (j, s') ->
  exists a r, block = Some a /\ breakable_blocks s !! a = Some r
    /\ ((bb_destination_ r = Some j /\ s' = s)
        \/ (bb_destination_ r = None /\ j = length (join_entries s)
            /\ s' = with_breakable_blocks
                      (insert a (set_bb_destination_ (Some j) r))
                      (with_join_entries
                         (fun js => js ++ [mkJoinEntryInstr (bb_try_index_ r)]) s))).
Proof.
  unfold BreakableBlock_EnsureDestination.
  intros (r & s1 & (a & -> & Hr & ->)%load_Ok & Hm)%bind_Ok.
  exists a, r. split; [done|]. split; [done|].
  destruct (bb_destination_ r) as [j0|] eqn:Ed.
  - left. by injection Hm as -> ->.
  - right. split; [done|]. unfold BuildJoinEntry in Hm.
    cbv [mbind M_bind gets modify mret M_ret] in Hm. simpl in Hm.
    by injection Hm as <- <-.
Qed.

Lemma SwitchBlock_EnsureDestination_effect block case_num s j s' :
  SwitchBlock_EnsureDestination block case_num s = Ok (j, s') ->
  exists a r, block = Some a /\ switch_blocks s !! a = Some r
    /\ ((sb_destinations_ r !! case_num = Some j /\ s' = s)
        \/ (sb_destinations_ r !! case_num = None
            /\ j = length (join_entries s)
            /\ s' = with_switch_blocks
                      (insert a (set_sb_destinations_
                                   (<[case_num := j]> (sb_destinations_ r)) r))
                      (with_join_entries
                         (fun js => js ++ [mkJoinEntryInstr (sb_try_index_ r)]) s))).
Proof.
  unfold SwitchBlock_EnsureDestination.
  intros (r & s1 & (a & -> & Hr & ->)%load_Ok & Hm)%bind_Ok.
  exists a, r. split; [done|]. split; [done|].
  destruct (sb_destinations_ r !! case_num) as [j0|] eqn:Ed.
  - left. by injection Hm as -> ->.
  - right. split; [done|]. unfold BuildJoinEntry in Hm.
    cbv [mbind M_bind gets modify mret M_ret] in Hm. simpl in Hm.
    by injection Hm as <- <-.
Qed.

Lemma view_breakable_insert this a r r' s :
  breakable_blocks s !! a = Some r -> bb_fixed r' = bb_fixed r ->
  view_breakable this (with_breakable_blocks (insert a r') s)
  = view_breakable this s.
Proof.
  intros Hr Hf. unfold view_breakable. simpl.
  destruct (decide (a = this)) as [->|Hne].
  - rewrite lookup_insert_eq, Hr. simpl. by rewrite Hf.
  - by rewrite lookup_insert_ne.
Qed.

Lemma view_switch_insert this a r r' s :
  switch_blocks s !! a = Some r -> sb_fixed r' = sb_fixed r ->
  view_switch this (with_switch_blocks (insert a r') s) = view_switch this s.
Proof.
  intros Hr Hf. unfold view_switch. simpl.
  destruct (decide (a = this)) as [->|Hne].
  - rewrite lookup_insert_eq, Hr. simpl. by rewrite Hf.
  - by rewrite lookup_insert_ne.
Qed.

Ltac ensure_effect H a r Hr Hd :=
  first [ apply BreakableBlock_EnsureDestination_effect in H
        | apply SwitchBlock_EnsureDestination_effect in H ];
  destruct H as (a & r & -> & Hr & [[Hd ->] | (Hd & -> & ->)]).

Lemma BreakableBlock_EnsureDestination_preserves block :
  (forall this,
      preserves (same (view_try_catch this))
        (BreakableBlock_EnsureDestination block))
  /\ (forall this,
      preserves (same (view_try_finally this))
        (BreakableBlock_EnsureDestination block))
  /\ (forall this,
      preserves (same (view_catch this))
        (BreakableBlock_EnsureDestination block))
  /\ (forall this,
      preserves (same (view_breakable this))
        (BreakableBlock_EnsureDestination block))
  /\ (forall this,
      preserves (same (view_switch this))
        (BreakableBlock_EnsureDestination block))
  /\ (forall p,
      preserves (keeps_cached p)
        (BreakableBlock_EnsureDestination block)).
Proof.
  repeat split; intros this s j s' He; ensure_effect He a r Hr Hd;
    unfold same; try done.
  - etrans; [by eapply view_breakable_insert | done].
  - intros j' Hj'. simpl. destruct (decide (a = this)) as [->|Hne].
    + rewrite Hr in Hj'. simpl in Hj'. congruence.
    + by rewrite lookup_insert_ne.
Qed.

Lemma SwitchBlock_EnsureDestination_preserves block n :
  (forall this,
      preserves (same (view_try_catch this))
        (SwitchBlock_EnsureDestination block n))
  /\ (forall this,
      preserves (same (view_try_finally this))
        (SwitchBlock_EnsureDestination block n))
  /\ (forall this,
      preserves (same (view_catch this))
        (SwitchBlock_EnsureDestination block n))
  /\ (forall this,
      preserves (same (view_breakable this))
        (SwitchBlock_EnsureDestination block n))
  /\ (forall this,
      preserves (same (view_switch this))
        (SwitchBlock_EnsureDestination block n))
  /\ (forall p,
      preserves (keeps_cached p)
        (SwitchBlock_EnsureDestination block n)).
Proof.
  repeat split; intros this s j s' He; ensure_effect He a r Hr Hd;
    unfold same; try done.
  - etrans; [by eapply view_switch_insert | done].
  - by intros j' Hj'.
Qed.

Lemma CurrentTryIndex_preserves (R : relation State) `{!Reflexive R} :
  preserves R CurrentTryIndex.
Proof. intros s a s' ->%CurrentTryIndex_state. done. Qed.


Ltac preserves_ops :=
  repeat first
    [ apply BreakableBlock_EnsureDestination_preserves
    | apply SwitchBlock_EnsureDestination_preserves
    | apply CurrentTryIndex_preserves; apply _
    | preserves_step ];
  try (apply preserves_modify; intros; by unfold same, keeps_cached).

Ltac unfold_ops :=
  unfold TryCatchBlock_ctor, TryCatchBlock_dtor, TryFinallyBlock_ctor,
    TryFinallyBlock_dtor, CatchBlock_ctor, CatchBlock_dtor,
    BreakableBlock_ctor, BreakableBlock_dtor, SwitchBlock_ctor,
    SwitchBlock_dtor, BreakableBlock_BreakDestination,
    SwitchBlock_Destination, SwitchBlock_DestinationDirect,
    store_out_params, AllocateTryIndex, BuildJoinEntry.

Ltac exec_preserves_tac o Ht :=
  destruct o; simpl; intros Ht; unfold_ops;
  preserves_ops;
  apply preserves_modify; intros; unfold same; simpl;
  apply bool_decide_eq_false in Ht.

Lemma exec_preserves_try_catch this o :
  touches_try_catch this o = false ->
  preserves (same (view_try_catch this)) (exec o).
Proof.
  exec_preserves_tac o Ht; unfold view_try_catch; simpl.
  - by rewrite lookup_insert_ne.
  - by rewrite lookup_delete_ne.
Qed.

Lemma exec_preserves_try_finally this o :
  touches_try_finally this o = false ->
  preserves (same (view_try_finally this)) (exec o).
Proof.
  exec_preserves_tac o Ht; unfold view_try_finally; simpl.
  - by rewrite lookup_insert_ne.
  - by rewrite lookup_delete_ne.
Qed.

Lemma exec_preserves_catch this o :
  touches_catch this o = false ->
  preserves (same (view_catch this)) (exec o).
Proof.
  exec_preserves_tac o Ht; unfold view_catch; simpl.
  - by rewrite lookup_insert_ne.
  - by rewrite lookup_delete_ne.
Qed.

Lemma exec_preserves_breakable this o :
  touches_breakable this o = false ->
  preserves (same (view_breakable this)) (exec o).
Proof.
  exec_preserves_tac o Ht; unfold view_breakable; simpl.
  - by rewrite lookup_insert_ne.
  - by rewrite lookup_delete_ne.
Qed.

Lemma exec_preserves_switch this o :
  touches_switch this o = false ->
  preserves (same (view_switch this)) (exec o).
Proof.
  exec_preserves_tac o Ht; unfold view_switch; simpl.
  - by rewrite lookup_insert_ne.
  - by rewrite lookup_delete_ne.
Qed.

(** No operation clears or replaces a cached break destination. *)
Lemma exec_preserves_cached p o :
  touches_breakable p o = false ->
  preserves (keeps_cached p) (exec o).
Proof.
  destruct o; simpl; intros Ht; unfold_ops; preserves_ops;
    apply preserves_modify; intros s j Hj; simpl;
    apply bool_decide_eq_false in Ht.
  - by rewrite lookup_insert_ne.
  - by rewrite lookup_delete_ne.
Qed.

Lemma run_preserves (R : relation State) `{!PreOrder R}
  (touches : op -> bool) body :
  (forall o, touches o = false -> preserves R (exec o)) ->
  forallb (fun o => negb (touches o)) body = true ->
  preserves R (run body).
Proof.
  intros Hexec. induction body as [|o body IH]; simpl; intros Hb.
  - by apply preserves_ret.
  - apply andb_true_iff in Hb as [Ho Hb].
    apply preserves_bind; [done | | intros _; by apply IH].
    apply Hexec. by apply negb_true_iff.
Qed.

(** *** Constructors *)

Lemma TryCatchBlock_ctor_effect s this i :
  exists ti ni,
    TryCatchBlock_ctor this i s
    = Ok (tt, with_try_catch_blocks
                (insert this (mkTryCatchBlock (try_catch_block_ (builder s)) ti))
                (with_builder
                   (fun b => set_try_catch_block_ (Some this)
                               (set_next_used_try_index_ ni b)) s)).
Proof.
  unfold TryCatchBlock_ctor, AllocateTryIndex.
  cbv [mbind M_bind gets modify mret M_ret].
  destruct (i =? -1).
  - eexists _, _. reflexivity.
  - exists i, (next_used_try_index_ (builder s)). by destruct s as [[] ?].
Qed.

Lemma TryFinallyBlock_ctor_effect s this off ti :
  CurrentTryIndex s = Ok (ti, s) ->
  TryFinallyBlock_ctor this off s
  = Ok (tt, with_try_finally_blocks
              (insert this
                 (mkTryFinallyBlock (try_finally_block_ (builder s)) off
                    (context_depth_ (builder s))
                    (IntPtr.sub (try_depth_ (builder s)) 1) ti))
              (with_builder (set_try_finally_block_ (Some this)) s)).
Proof.
  intros Hti. unfold TryFinallyBlock_ctor.
  cbv [mbind M_bind gets modify mret M_ret]. by rewrite Hti.
Qed.

Lemma CatchBlock_ctor_effect s this e t i :
  CatchBlock_ctor this e t i s
  = Ok (tt, with_catch_blocks
              (insert this (mkCatchBlock (catch_block_ (builder s)) e t i))
              (with_builder (set_catch_block_ (Some this)) s)).
Proof. reflexivity. Qed.

Lemma BreakableBlock_ctor_effect s this ti :
  CurrentTryIndex s = Ok (ti, s) ->
  ptr_valid (breakable_blocks s) (breakable_block_ (builder s)) ->
  BreakableBlock_ctor this s
  = Ok (tt, with_breakable_blocks
              (insert this
                 (mkBreakableBlock (next_label_index s)
                    (breakable_block_ (builder s)) None
                    (try_finally_block_ (builder s))
                    (context_depth_ (builder s)) ti))
              (with_builder (set_breakable_block_ (Some this)) s)).
Proof.
  intros Hti Hv. unfold BreakableBlock_ctor, next_label_index, ptr_valid in *.
  cbv [mbind M_bind gets modify mret M_ret]. rewrite Hti.
  destruct (breakable_block_ (builder s)) as [a|] eqn:Ea; [|done].
  destruct Hv as [o Ho]. rewrite (load_live breakable_blocks a s o Ho).
  by rewrite Ho.
Qed.

Lemma SwitchBlock_ctor_effect s this n ti :
  CurrentTryIndex s = Ok (ti, s) ->
  ptr_valid (switch_blocks s) (switch_block_ (builder s)) ->
  SwitchBlock_ctor this n s
  = Ok (tt, with_switch_blocks
              (insert this
                 (mkSwitchBlock (switch_block_ (builder s)) ∅
                    (try_finally_block_ (builder s)) n (next_depth s)
                    (context_depth_ (builder s)) ti))
              (with_builder (set_switch_block_ (Some this)) s)).
Proof.
  intros Hti Hv. unfold SwitchBlock_ctor, next_depth, ptr_valid in *.
  cbv [mbind M_bind gets modify mret M_ret]. rewrite Hti.
  destruct (switch_block_ (builder s)) as [a|] eqn:Ea; [|done].
  destruct Hv as [o Ho]. simpl.
  unfold load, lift, deref. simpl. by rewrite Ho.
Qed.

(** *** Push and pop *)

Lemma TryCatchBlock_push_pop s this i :
  exists s1,
    TryCatchBlock_ctor this i s = Ok (tt, s1)
    /\ try_catch_block_ (builder s1) = Some this
    /\ tcb_outer_ <$> try_catch_blocks s1 !! this
       = Some (try_catch_block_ (builder s))
    /\ forall body s2,
         run body s1 = Ok (tt, s2) -> untouched touches_try_catch this body ->
         exists s3, TryCatchBlock_dtor this s2 = Ok (tt, s3)
           /\ try_catch_block_ (builder s3) = try_catch_block_ (builder s).
Proof.
  destruct (TryCatchBlock_ctor_effect s this i) as (ti & ni & ->).
  eexists. split; [reflexivity|]. split; [done|].
  split; [simpl; by rewrite lookup_insert_eq|].
  intros body s2 Hrun Hu.
  pose proof (run_preserves (same (view_try_catch this)) (touches_try_catch this)
                body (exec_preserves_try_catch this) Hu _ _ _ Hrun) as Hv.
  unfold same, view_try_catch in Hv. simpl in Hv. rewrite lookup_insert_eq in Hv.
  unfold TryCatchBlock_dtor. cbv [mbind M_bind modify].
  rewrite (load_live try_catch_blocks this s2 _ Hv).
  eexists. split; [reflexivity|]. done.
Qed.

Lemma TryFinallyBlock_push_pop s this off :
  tops_valid s ->
  exists s1,
    TryFinallyBlock_ctor this off s = Ok (tt, s1)
    /\ try_finally_block_ (builder s1) = Some this
    /\ tfb_outer_ <$> try_finally_blocks s1 !! this
       = Some (try_finally_block_ (builder s))
    /\ forall body s2,
         run body s1 = Ok (tt, s2) -> untouched touches_try_finally this body ->
         exists s3, TryFinallyBlock_dtor this s2 = Ok (tt, s3)
           /\ try_finally_block_ (builder s3) = try_finally_block_ (builder s).
Proof.
  intros (Htc & _ & _).
  destruct (CurrentTryIndex_valid s Htc) as [ti Hti].
  rewrite (TryFinallyBlock_ctor_effect s this off ti Hti).
  eexists. split; [reflexivity|]. split; [done|].
  split; [simpl; by rewrite lookup_insert_eq|].
  intros body s2 Hrun Hu.
  pose proof (run_preserves (same (view_try_finally this)) (touches_try_finally this)
                body (exec_preserves_try_finally this) Hu _ _ _ Hrun) as Hv.
  unfold same, view_try_finally in Hv. simpl in Hv. rewrite lookup_insert_eq in Hv.
  unfold TryFinallyBlock_dtor. cbv [mbind M_bind modify].
  rewrite (load_live try_finally_blocks this s2 _ Hv).
  eexists. split; [reflexivity|]. done.
Qed.

Lemma CatchBlock_push_pop s this e t i :
  exists s1,
    CatchBlock_ctor this e t i s = Ok (tt, s1)
    /\ catch_block_ (builder s1) = Some this
    /\ cb_outer_ <$> catch_blocks s1 !! this = Some (catch_block_ (builder s))
    /\ forall body s2,
         run body s1 = Ok (tt, s2) -> untouched touches_catch this body ->
         exists s3, CatchBlock_dtor this s2 = Ok (tt, s3)
           /\ catch_block_ (builder s3) = catch_block_ (builder s).
Proof.
  rewrite CatchBlock_ctor_effect.
  eexists. split; [reflexivity|]. split; [done|].
  split; [simpl; by rewrite lookup_insert_eq|].
  intros body s2 Hrun Hu.
  pose proof (run_preserves (same (view_catch this)) (touches_catch this)
                body (exec_preserves_catch this) Hu _ _ _ Hrun) as Hv.
  unfold same, view_catch in Hv. simpl in Hv. rewrite lookup_insert_eq in Hv.
  unfold CatchBlock_dtor. cbv [mbind M_bind modify].
  rewrite (load_live catch_blocks this s2 _ Hv).
  eexists. split; [reflexivity|]. done.
Qed.

Lemma BreakableBlock_push_pop s this :
  tops_valid s ->
  exists s1,
    BreakableBlock_ctor this s = Ok (tt, s1)
    /\ breakable_block_ (builder s1) = Some this
    /\ bb_outer_ <$> breakable_blocks s1 !! this
       = Some (breakable_block_ (builder s))
    /\ forall body s2,
         run body s1 = Ok (tt, s2) -> untouched touches_breakable this body ->
         exists s3, BreakableBlock_dtor this s2 = Ok (tt, s3)
           /\ breakable_block_ (builder s3) = breakable_block_ (builder s).
Proof.
  intros (Htc & Hbb & _).
  destruct (CurrentTryIndex_valid s Htc) as [ti Hti].
  rewrite (BreakableBlock_ctor_effect s this ti Hti Hbb).
  eexists. split; [reflexivity|]. split; [done|].
  split; [simpl; by rewrite lookup_insert_eq|].
  intros body s2 Hrun Hu.
  pose proof (run_preserves (same (view_breakable this)) (touches_breakable this)
                body (exec_preserves_breakable this) Hu _ _ _ Hrun) as Hv.
  unfold same, view_breakable in Hv. simpl in Hv. rewrite lookup_insert_eq in Hv.
  destruct (breakable_blocks s2 !! this) as [r|] eqn:Er; [|done].
  injection Hv as _ Ho _ _ _.
  unfold BreakableBlock_dtor. cbv [mbind M_bind modify].
  rewrite (load_live breakable_blocks this s2 _ Er).
  eexists. split; [reflexivity|]. simpl. done.
Qed.

Lemma SwitchBlock_push_pop s this n :
  tops_valid s ->
  exists s1,
    SwitchBlock_ctor this n s = Ok (tt, s1)
    /\ switch_block_ (builder s1) = Some this
    /\ sb_outer_ <$> switch_blocks s1 !! this
       = Some (switch_block_ (builder s))
    /\ forall body s2,
         run body s1 = Ok (tt, s2) -> untouched touches_switch this body ->
         exists s3, SwitchBlock_dtor this s2 = Ok (tt, s3)
           /\ switch_block_ (builder s3) = switch_block_ (builder s).
Proof.
  intros (Htc & _ & Hsb).
  destruct (CurrentTryIndex_valid s Htc) as [ti Hti].
  rewrite (SwitchBlock_ctor_effect s this n ti Hti Hsb).
  eexists. split; [reflexivity|]. split; [done|].
  split; [simpl; by rewrite lookup_insert_eq|].
  intros body s2 Hrun Hu.
  pose proof (run_preserves (same (view_switch this)) (touches_switch this)
                body (exec_preserves_switch this) Hu _ _ _ Hrun) as Hv.
  unfold same, view_switch in Hv. simpl in Hv. rewrite lookup_insert_eq in Hv.
  destruct (switch_blocks s2 !! this) as [r|] eqn:Er; [|done].
  injection Hv as Ho _ _ _ _ _.
  unfold SwitchBlock_dtor. cbv [mbind M_bind modify].
  rewrite (load_live switch_blocks this s2 _ Er).
  eexists. split; [reflexivity|]. simpl. done.
Qed.

(** *** Chains *)

Lemma chain_live {A} (outer : A -> option addr) h top l :
  chain outer h top l -> forall a, a ∈ l -> is_Some (h !! a).
Proof.
  induction 1 as [|a r l Hr Hni Hc IH]; intros a' Ha.
  - by apply elem_of_nil in Ha.
  - apply elem_of_cons in Ha as [->|Ha]; [eauto | by apply IH].
Qed.

Lemma chain_NoDup {A} (outer : A -> option addr) h top l :
  chain outer h top l -> NoDup l.
Proof. induction 1; constructor; done. Qed.

Lemma chain_length {A} (outer : A -> option addr) (h : gmap addr A) top l :
  chain outer h top l -> (length l <= size h)%nat.
Proof.
  intros Hc. rewrite <- (size_dom (D := gset addr)).
  unfold size, set_size. simpl.
  apply submseteq_length, NoDup_submseteq; [by eapply chain_NoDup|].
  intros a Ha. apply elem_of_elements, elem_of_dom. by eapply chain_live.
Qed.

(** Rewriting a record of the store without changing its [outer] link
    keeps every chain. *)
Lemma chain_insert {A} (outer : A -> option addr) h top l a r r' :
  chain outer h top l -> h !! a = Some r -> outer r' = outer r ->
  chain outer (<[a := r']> h) top l.
Proof.
  intros Hc Hr Ho. induction Hc as [|a0 r0 l Hr0 Hni Hc IH]; [constructor|].
  destruct (decide (a = a0)) as [->|Hne].
  - apply chain_cons with r'; [by rewrite lookup_insert_eq | done |].
    rewrite Ho. by simplify_eq.
  - apply chain_cons with r0; [by rewrite lookup_insert_ne | done | done].
Qed.

(** A record pushed at an address outside the chain extends it. *)
Lemma chain_push {A} (outer : A -> option addr) h top l a r :
  chain outer h top l -> a ∉ l -> outer r = top ->
  chain outer (<[a := r]> h) (Some a) (a :: l).
Proof.
  intros Hc Hni Ho. apply chain_cons with r; [by rewrite lookup_insert_eq|done|].
  rewrite Ho. clear Ho. induction Hc as [|a0 r0 l Hr0 Hni0 Hc IH]; [constructor|].
  apply not_elem_of_cons in Hni as [Hne Hni].
  apply chain_cons with r0; [by rewrite lookup_insert_ne | done | by apply IH].
Qed.

(** Constructing a [BreakableBlock] in storage that holds no live record
    extends the builder's breakable chain by the new record. *)
Lemma BreakableBlock_ctor_chain s this l :
  tops_valid s ->
  chain bb_outer_ (breakable_blocks s) (breakable_block_ (builder s)) l ->
  breakable_blocks s !! this = None ->
  exists s1,
    BreakableBlock_ctor this s = Ok (tt, s1)
    /\ chain bb_outer_ (breakable_blocks s1) (breakable_block_ (builder s1))
         (this :: l).
Proof.
  intros (Htc & Hbb & _) Hc Hfresh.
  destruct (CurrentTryIndex_valid s Htc) as [ti Hti].
  rewrite (BreakableBlock_ctor_effect s this ti Hti Hbb).
  eexists. split; [done|]. simpl. eapply chain_push; [done | | done].
  intros Hin. destruct (chain_live _ _ _ _ Hc this Hin) as [r Hr]. congruence.
Qed.

(** Likewise for a [SwitchBlock]. *)
Lemma SwitchBlock_ctor_chain s this n l :
  tops_valid s ->
  chain sb_outer_ (switch_blocks s) (switch_block_ (builder s)) l ->
  switch_blocks s !! this = None ->
  exists s1,
    SwitchBlock_ctor this n s = Ok (tt, s1)
    /\ chain sb_outer_ (switch_blocks s1) (switch_block_ (builder s1))
         (this :: l).
Proof.
  intros (Htc & _ & Hsb) Hc Hfresh.
  destruct (CurrentTryIndex_valid s Htc) as [ti Hti].
  rewrite (SwitchBlock_ctor_effect s this n ti Hti Hsb).
  eexists. split; [done|]. simpl. eapply chain_push; [done | | done].
  intros Hin. destruct (chain_live _ _ _ _ Hc this Hin) as [r Hr]. congruence.
Qed.

Lemma first_label_Some h l L p :
  first_label h l L = Some p ->
  p ∈ l /\ exists r, h !! p = Some r /\ bb_index_ r = L.
Proof.
  induction l as [|a l IH]; simpl; [done|].
  destruct (h !! a) as [r|] eqn:Hr; [|done].
  destruct (bb_index_ r =? L) eqn:Ei.
  - intros [= <-]. split; [left|]. exists r. split; [done|]. by apply Z.eqb_eq.
  - intros [Hp Hx]%IH. split; [by right | done].
Qed.

Lemma first_label_absent h l L :
  (forall a r, a ∈ l -> h !! a = Some r -> bb_index_ r <> L) ->
  first_label h l L = None.
Proof.
  induction l as [|a l IH]; simpl; intros Hl; [done|].
  destruct (h !! a) as [r|] eqn:Hr; [|done].
  destruct (Z.eqb_spec (bb_index_ r) L) as [He|_].
  - by destruct (Hl a r ltac:(left) Hr).
  - apply IH. intros a' r' Ha'. apply Hl. by right.
Qed.

Lemma first_label_insert h l L a r r' :
  h !! a = Some r -> bb_index_ r' = bb_index_ r ->
  first_label (<[a := r']> h) l L = first_label h l L.
Proof.
  intros Hr Hi. induction l as [|a0 l IH]; simpl; [done|].
  destruct (decide (a = a0)) as [->|Hne].
  - rewrite lookup_insert_eq, Hr, Hi. by rewrite IH.
  - rewrite lookup_insert_ne by done. by rewrite IH.
Qed.

(** The walk of [BreakDestination] along a chain: it stops at the first
    record with the label, and reads through [NULL] when there is none. *)
Lemma walk_label_chain h top l L :
  chain bb_outer_ h top l ->
  forall fuel, (length l < fuel)%nat ->
  walk_label fuel h top L
  = match first_label h l L with
    | Some a => Ok (Some a)
    | None => Fault NullDereference
    end.
Proof.
  induction 1 as [|a r l Hr Hni Hc IH]; intros [|fuel] Hf; simpl in *; try lia.
  - done.
  - rewrite Hr. destruct (bb_index_ r =? L); simpl; [done|].
    apply IH. lia.
Qed.

Lemma walk_label_Ok fuel h top L block :
  walk_label fuel h top L = Ok block ->
  exists a r, block = Some a /\ h !! a = Some r /\ bb_index_ r = L.
Proof.
  revert top. induction fuel as [|fuel IH]; intros top; simpl; [done|].
  destruct top as [a|]; simpl; [|done].
  destruct (h !! a) as [r|] eqn:Hr; [|done].
  destruct (bb_index_ r =? L) eqn:Ei; simpl.
  - intros [= <-]. exists a, r. repeat split; try done. by apply Z.eqb_eq.
  - apply IH.
Qed.

(** *** Break resolution *)

Lemma BreakDestination_found s this l L p r :
  chain bb_outer_ (breakable_blocks s) (breakable_block_ (builder s)) l ->
  is_Some (breakable_blocks s !! this) ->
  first_label (breakable_blocks s) l L = Some p ->
  breakable_blocks s !! p = Some r ->
  BreakableBlock_BreakDestination this L s
  = match bb_destination_ r with
    | Some j =>
        Ok (mkResolution j (Some (bb_outer_finally_ r))
              (Some (bb_context_depth_ r)), s)
    | None =>
        Ok (mkResolution (length (join_entries s)) (Some (bb_outer_finally_ r))
              (Some (bb_context_depth_ r)),
            with_breakable_blocks
              (insert p (set_bb_destination_ (Some (length (join_entries s))) r))
              (with_join_entries
                 (fun js => js ++ [mkJoinEntryInstr (bb_try_index_ r)]) s))
    end.
Proof.
  intros Hc [r0 Hthis] Hf Hp. unfold BreakableBlock_BreakDestination.
  rewrite (bind_Ok_intro _ _ _ _ _ (load_live breakable_blocks this s r0 Hthis)).
  cbv [mbind M_bind gets].
  rewrite (walk_label_chain _ _ _ L Hc)
    by (apply Nat.lt_succ_r; by eapply chain_length).
  rewrite Hf. simpl.
  rewrite (load_live breakable_blocks p s r Hp).
  unfold BreakableBlock_EnsureDestination.
  rewrite (bind_Ok_intro _ _ _ _ _ (load_live breakable_blocks p s r Hp)).
  destruct (bb_destination_ r) as [j|]; [done|].
  unfold BuildJoinEntry. cbv [mbind M_bind gets modify mret M_ret]. done.
Qed.

(** A label that no record of the chain carries: the walk runs off the end
    of the chain and evaluates [block->index_] with [block == NULL]. *)
Lemma BreakDestination_missing s this l L :
  chain bb_outer_ (breakable_blocks s) (breakable_block_ (builder s)) l ->
  is_Some (breakable_blocks s !! this) ->
  (forall a r, a ∈ l -> breakable_blocks s !! a = Some r -> bb_index_ r <> L) ->
  BreakableBlock_BreakDestination this L s = Fault NullDereference.
Proof.
  intros Hc [r0 Hthis] Hf%first_label_absent.
  unfold BreakableBlock_BreakDestination.
  rewrite (bind_Ok_intro _ _ _ _ _ (load_live breakable_blocks this s r0 Hthis)).
  cbv [mbind M_bind gets].
  rewrite (walk_label_chain _ _ _ L Hc)
    by (apply Nat.lt_succ_r; by eapply chain_length).
  by rewrite Hf.
Qed.

Lemma walk_label_no_assert fuel h top L :
  walk_label fuel h top L <> Fault AssertionFailure.
Proof.
  revert top. induction fuel as [|fuel IH]; intros top; simpl; [done|].
  destruct top as [a|]; simpl; [|done].
  destruct (h !! a) as [r|]; [|done].
  destruct (bb_index_ r =? L); simpl; [done | apply IH].
Qed.

(** The [ASSERT(block != NULL)] after the loop never fires: the loop is
    left only through a successful read of [block->index_]. *)
Lemma BreakDestination_never_asserts s this L :
  BreakableBlock_BreakDestination this L s <> Fault AssertionFailure.
Proof.
  unfold BreakableBlock_BreakDestination, load, deref.
  cbv [mbind M_bind gets lift mret M_ret].
  destruct (breakable_blocks s !! this) as [r0|]; [|done].
  destruct (walk_label _ _ _ _) as [block|e|] eqn:Hw; [| |done].
  2: { intros [= ->]. by eapply walk_label_no_assert. }
  apply walk_label_Ok in Hw as (a & r & -> & Hr & _).
  rewrite Hr. unfold BreakableBlock_EnsureDestination, load, deref, BuildJoinEntry.
  cbv [mbind M_bind gets lift mret M_ret modify]. rewrite Hr.
  by destruct (bb_destination_ r).
Qed.

Lemma resolve_breaks_shared this l L p labels :
  forall s r,
    chain bb_outer_ (breakable_blocks s) (breakable_block_ (builder s)) l ->
    is_Some (breakable_blocks s !! this) ->
    (forall L', L' ∈ labels -> is_Some (first_label (breakable_blocks s) l L')) ->
    first_label (breakable_blocks s) l L = Some p ->
    breakable_blocks s !! p = Some r ->
    exists rs s' j r',
      resolve_breaks this labels s = Ok (rs, s')
      /\ length rs = length labels
      /\ (forall i, labels !! i = Some L -> res_join <$> rs !! i = Some j)
      /\ breakable_blocks s' !! p = Some r'
      /\ (L ∈ labels -> bb_destination_ r' = Some j)
      /\ (forall j0, bb_destination_ r = Some j0 ->
          j = j0 /\ bb_destination_ r' = Some j0)
      /\ (bb_destination_ r = None -> (length (join_entries s) <= j)%nat).
Proof.
  induction labels as [|L1 ls IH]; intros s r Hc Hthis Hall Hf Hp.
  - exists [], s,
      (match bb_destination_ r with
       | Some j0 => j0
       | None => length (join_entries s)
       end), r.
    simpl. split; [done|]. split; [done|].
    split; [intros i Hi; by rewrite lookup_nil in Hi|]. split; [done|].
    split; [intros Hin; by apply elem_of_nil in Hin|].
    split; [intros j0 Hj0; by rewrite Hj0|].
    intros Hn. by rewrite Hn.
  - destruct (Hall L1 ltac:(left)) as [p1 Hf1].
    destruct (first_label_Some _ _ _ _ Hf1) as (Hin1 & r1 & Hp1 & Hi1).
    destruct (first_label_Some _ _ _ _ Hf) as (Hin & r_ & Hp_ & Hi).
    assert (r_ = r) as -> by congruence.
    pose proof (BreakDestination_found s this l L1 p1 r1 Hc Hthis Hf1 Hp1) as Hb.
    simpl. destruct (bb_destination_ r1) as [j1|] eqn:Hd1.
    + (* cached *)
      destruct (IH s r Hc Hthis) as (rs & s' & j & r' & Hrs & Hlen & Hj & Hr' & Hd & Hk & Hn);
        [intros; apply Hall; by right | done | done |].
      exists (mkResolution j1 (Some (bb_outer_finally_ r1))
                (Some (bb_context_depth_ r1)) :: rs), s', j, r'.
      rewrite (bind_Ok_intro _ _ _ _ _ Hb), (bind_Ok_intro _ _ _ _ _ Hrs).
      split; [done|]. split; [simpl; by rewrite Hlen|].
      split; [|split; [done|split; [|done]]].
      * intros [|i] Hi0; simpl in *; [|by apply Hj].
        injection Hi0 as ->. assert (p1 = p) as -> by congruence.
        assert (r1 = r) as -> by congruence.
        destruct (Hk j1 Hd1) as [-> _]. done.
      * intros [->|Hin']%elem_of_cons; [|by apply Hd].
        assert (p1 = p) as -> by congruence.
        assert (r1 = r) as -> by congruence.
        by destruct (Hk j1 Hd1) as [-> ?].
    + (* created *)
      set (j1 := length (join_entries s)) in *.
      set (s1 := with_breakable_blocks _ _) in Hb.
      assert (Hc1 : chain bb_outer_ (breakable_blocks s1)
                      (breakable_block_ (builder s1)) l).
      { subst s1. simpl. by eapply chain_insert. }
      assert (Hfl : forall L', first_label (breakable_blocks s1) l L'
                               = first_label (breakable_blocks s) l L').
      { intros L'. subst s1. simpl. by eapply first_label_insert. }
      assert (Hthis1 : is_Some (breakable_blocks s1 !! this)).
      { subst s1. simpl. destruct (decide (p1 = this)) as [->|Hne].
        - rewrite lookup_insert_eq. eauto.
        - by rewrite lookup_insert_ne. }
      destruct (decide (L1 = L)) as [->|HL].
      * assert (p1 = p) as -> by congruence.
        assert (r1 = r) as -> by congruence.
        destruct (IH s1 (set_bb_destination_ (Some j1) r) Hc1 Hthis1)
          as (rs & s' & j & r' & Hrs & Hlen & Hj & Hr' & Hd & Hk & Hn).
        { intros L' HL'. rewrite Hfl. apply Hall. by right. }
        { by rewrite Hfl. }
        { subst s1. simpl. by rewrite lookup_insert_eq. }
        destruct (Hk j1 eq_refl) as [-> Hd'].
        exists (mkResolution j1 (Some (bb_outer_finally_ r))
                  (Some (bb_context_depth_ r)) :: rs), s', j1, r'.
        rewrite (bind_Ok_intro _ _ _ _ _ Hb), (bind_Ok_intro _ _ _ _ _ Hrs).
        split; [done|]. split; [simpl; by rewrite Hlen|].
        split; [|split; [done|split; [done|split; [|done]]]].
        -- intros [|i] Hi0; simpl in *; [done | by apply Hj].
        -- intros j0 Hj0. congruence.
      * assert (p1 <> p) as Hne by (intros ->; congruence).
        destruct (IH s1 r Hc1 Hthis1)
          as (rs & s' & j & r' & Hrs & Hlen & Hj & Hr' & Hd & Hk & Hn).
        { intros L' HL'. rewrite Hfl. apply Hall. by right. }
        { by rewrite Hfl. }
        { subst s1. simpl. by rewrite lookup_insert_ne. }
        exists (mkResolution j1 (Some (bb_outer_finally_ r1))
                  (Some (bb_context_depth_ r1)) :: rs), s', j, r'.
        rewrite (bind_Ok_intro _ _ _ _ _ Hb), (bind_Ok_intro _ _ _ _ _ Hrs).
        split; [done|]. split; [simpl; by rewrite Hlen|].
        split; [|split; [done|split; [|split; [done|]]]].
        -- intros [|i] Hi0; simpl in *; [congruence | by apply Hj].
        -- intros [?|Hin']%elem_of_cons; [congruence | by apply Hd].
        -- intros Hnone. specialize (Hn Hnone). subst s1. simpl in Hn.
           rewrite length_app in Hn. simpl in Hn. lia.
Qed.

(** *** Switch resolution *)

(** C1.  Take a builder whose breakable chain is [l], a record [p] of it
    that is the innermost one with label [L], and any sequence of break
    resolutions whose labels are all carried by the chain.  The sequence
    returns, and every resolution in it that targets [L] returns one and the
    same join entry [j].  After the sequence [j] is cached in the
    [destination_] field of [p]; if that field held a node before the
    sequence, [j] is that node, otherwise [j] was allocated during the
    sequence (it is not in the arena the sequence started from).  Whatever
    is run afterwards, short of destroying [p] or constructing another
    record at its address, a later resolution that reaches [p] returns [j]
    again and changes nothing. *)
Theorem BreakDestination_shared_join this l L p labels :
  forall s r,
    chain bb_outer_ (breakable_blocks s) (breakable_block_ (builder s)) l ->
    is_Some (breakable_blocks s !! this) ->
    (forall L', L' ∈ labels -> is_Some (first_label (breakable_blocks s) l L')) ->
    first_label (breakable_blocks s) l L = Some p ->
    breakable_blocks s !! p = Some r ->
    exists rs s' j r',
      resolve_breaks this labels s = Ok (rs, s')
      /\ length rs = length labels
      /\ (forall i, labels !! i = Some L -> res_join <$> rs !! i = Some j)
      /\ breakable_blocks s' !! p = Some r'
      /\ (L ∈ labels -> bb_destination_ r' = Some j)
      /\ (forall j0, bb_destination_ r = Some j0 ->
          j = j0 /\ bb_destination_ r' = Some j0)
      /\ (bb_destination_ r = None -> (length (join_entries s) <= j)%nat)
      /\ (L ∈ labels ->
          forall body s2 this2 l2,
            run body s' = Ok (tt, s2) ->
            untouched touches_breakable p body ->
            chain bb_outer_ (breakable_blocks s2)
              (breakable_block_ (builder s2)) l2 ->
            is_Some (breakable_blocks s2 !! this2) ->
            first_label (breakable_blocks s2) l2 L = Some p ->
            exists res,
              BreakableBlock_BreakDestination this2 L s2 = Ok (res, s2)
              /\ res_join res = j).
Proof.
  intros s r Hc Hthis Hall Hf Hp.
  destruct (resolve_breaks_shared this l L p labels s r Hc Hthis Hall Hf Hp)
    as (rs & s' & j & r' & Hrs & Hlen & Hj & Hr' & Hd & Hk & Hn).
  exists rs, s', j, r'. repeat (split; [done|]).
  intros Hin body s2 this2 l2 Hrun Hu Hc2 Hthis2 Hf2.
  pose proof (run_preserves (keeps_cached p) (touches_breakable p) body
                (exec_preserves_cached p) Hu _ _ _ Hrun j) as Hkeep.
  rewrite Hr' in Hkeep. simpl in Hkeep. rewrite (Hd Hin) in Hkeep.
  specialize (Hkeep eq_refl).
  destruct (breakable_blocks s2 !! p) as [r2|] eqn:Hr2; [|done].
  injection Hkeep as Hd2.
  rewrite (BreakDestination_found s2 this2 l2 L p r2 Hc2 Hthis2 Hf2 Hr2), Hd2.
  eexists. split; [done|]. done.
Qed.

Lemma sum_Z_cons x l : sum_Z (x :: l) = x + sum_Z l.
Proof. reflexivity. Qed.

(** [Destination] is [DestinationDirect] on the record the walk stops at,
    with the case number relative to that record. *)
Lemma Destination_resolves s this t fo fc a r :
  walk_depth (S (size (switch_blocks s))) (switch_blocks s) (Some this) t
  = Ok (Some a) ->
  switch_blocks s !! a = Some r ->
  SwitchBlock_Destination this t fo fc s
  = SwitchBlock_DestinationDirect a (IntPtr.sub t (sb_depth_ r)) fo fc s.
Proof.
  intros Hw Hr. unfold SwitchBlock_Destination, SwitchBlock_DestinationDirect.
  cbv [mbind M_bind gets]. rewrite Hw. simpl.
  by rewrite (load_live switch_blocks a s r Hr).
Qed.

Lemma DestinationDirect_effect s a n fo fc r :
  switch_blocks s !! a = Some r ->
  (fo = true -> fc = true) ->
  SwitchBlock_DestinationDirect a n fo fc s
  = match sb_destinations_ r !! n with
    | Some j =>
        Ok (mkResolution j (out_value fo (sb_outer_finally_ r))
              (out_value fo (sb_context_depth_ r)), s)
    | None =>
        Ok (mkResolution (length (join_entries s))
              (out_value fo (sb_outer_finally_ r))
              (out_value fo (sb_context_depth_ r)),
            with_switch_blocks
              (insert a (set_sb_destinations_
                           (<[n := length (join_entries s)]>
                              (sb_destinations_ r)) r))
              (with_join_entries
                 (fun js => js ++ [mkJoinEntryInstr (sb_try_index_ r)]) s))
    end.
Proof.
  intros Hr Hflags. unfold SwitchBlock_DestinationDirect.
  rewrite (bind_Ok_intro _ _ _ _ _ (load_live switch_blocks a s r Hr)).
  unfold store_out_params, SwitchBlock_EnsureDestination, BuildJoinEntry.
  destruct fo; [rewrite (Hflags eq_refl)|];
    cbv [mbind M_bind gets modify mret M_ret]; simpl;
    rewrite (load_live switch_blocks a s r Hr);
    by destruct (sb_destinations_ r !! n).
Qed.

Lemma nest_switches_depths blocks :
  forall s D,
    ptr_valid (try_catch_blocks s) (try_catch_block_ (builder s)) ->
    ptr_valid (switch_blocks s) (switch_block_ (builder s)) ->
    (forall a, switch_block_ (builder s) = Some a -> a ∉ blocks.*1) ->
    NoDup blocks.*1 ->
    (blocks <> [] -> next_depth s = D) ->
    (forall k, (k < length blocks)%nat ->
               IntPtr.in_range (D + sum_Z (take k blocks.*2))) ->
    exists s',
      nest_switches blocks s = Ok (tt, s')
      /\ (forall a, a ∉ blocks.*1 ->
                    switch_blocks s' !! a = switch_blocks s !! a)
      /\ forall i a n,
           blocks !! i = Some (a, n) ->
           exists r,
             switch_blocks s' !! a = Some r
             /\ sb_case_count_ r = n
             /\ sb_depth_ r = D + sum_Z (take i blocks.*2)
             /\ sb_outer_ r = match i with
                              | O => switch_block_ (builder s)
                              | S i' => blocks.*1 !! i'
                              end
             /\ sb_destinations_ r = ∅
             /\ sb_outer_finally_ r = try_finally_block_ (builder s)
             /\ sb_context_depth_ r = context_depth_ (builder s).
Proof.
  induction blocks as [|[a n] rest IH]; intros s D Htc Hsb Htop Hnd HD Hsum.
  - exists s. simpl. repeat split; try done.
  - destruct (CurrentTryIndex_valid s Htc) as [ti Hti].
    pose proof (SwitchBlock_ctor_effect s a n ti Hti Hsb) as Hctor.
    rewrite (HD ltac:(done)) in Hctor.
    set (s1 := with_switch_blocks _ _) in Hctor.
    apply NoDup_cons in Hnd as [Hni Hnd].
    assert (Hnext : rest <> [] -> next_depth s1 = D + n).
    { intros Hrest. unfold next_depth at 1. subst s1. simpl.
      rewrite lookup_insert_eq. simpl. apply IntPtr_add_exact.
      specialize (Hsum 1%nat). rewrite fmap_cons, firstn_cons in Hsum.
      unfold sum_Z in Hsum. simpl in Hsum.
      replace (D + n) with (D + (n + 0)) by lia. apply Hsum.
      destruct rest; [done | simpl; lia]. }
    destruct (IH s1 (D + n)) as (s' & Hrun & Hframe & Hrec).
    { done. }
    { subst s1. simpl. rewrite lookup_insert_eq. eauto. }
    { subst s1. simpl. by intros ? [= <-]. }
    { done. }
    { done. }
    { intros k Hk. specialize (Hsum (S k) ltac:(simpl; lia)).
      rewrite fmap_cons, firstn_cons, sum_Z_cons in Hsum.
      by rewrite <- Z.add_assoc. }
    exists s'.
    split; [simpl; by rewrite (bind_Ok_intro _ _ _ _ _ Hctor)|]. split.
    + rewrite fmap_cons. intros a' [Hne Hni']%not_elem_of_cons.
      rewrite Hframe by done. subst s1. simpl. by rewrite lookup_insert_ne.
    + intros [|i] a' n' Hi; simpl in Hi.
      * injection Hi as <- <-. rewrite (Hframe a Hni). subst s1. simpl.
        rewrite lookup_insert_eq. eexists. split; [done|]. simpl.
        repeat split; try done. unfold sum_Z; simpl; lia.
      * destruct (Hrec i a' n' Hi) as (r & Hr & Hn & Hd & Ho & He & Hf & Hx).
        exists r. split; [done|]. split; [done|].
        split; [rewrite fmap_cons, firstn_cons, sum_Z_cons, Hd; simpl; lia|].
        split; [|done]. rewrite Ho. by destruct i.
Qed.

Lemma walk_depth_chain h top l t :
  chain sb_outer_ h top l ->
  forall fuel, (length l < fuel)%nat ->
  walk_depth fuel h top t
  = match first_within h l t with
    | Some a => Ok (Some a)
    | None => Fault NullDereference
    end.
Proof.
  induction 1 as [|a r l Hr Hni Hc IH]; intros [|fuel] Hf; simpl in *; try lia.
  - done.
  - rewrite Hr. destruct (sb_depth_ r >? t); simpl; [|done].
    apply IH. lia.
Qed.

Lemma Destination_chain s this l t fo fc a r :
  chain sb_outer_ (switch_blocks s) (Some this) l ->
  first_within (switch_blocks s) l t = Some a ->
  switch_blocks s !! a = Some r ->
  SwitchBlock_Destination this t fo fc s
  = SwitchBlock_DestinationDirect a (IntPtr.sub t (sb_depth_ r)) fo fc s.
Proof.
  intros Hc Hf Hr. apply Destination_resolves; [|done].
  rewrite (walk_depth_chain _ _ _ t Hc)
    by (apply Nat.lt_succ_r; by eapply chain_length).
  by rewrite Hf.
Qed.

Lemma IntPtr_in_range_0 : IntPtr.in_range 0.
Proof. range_lia. Qed.

(** Switch constructs entered one inside the other on a builder that is in
    no switch. *)
Lemma nest_switches_outermost blocks s :
  switch_block_ (builder s) = None ->
  ptr_valid (try_catch_blocks s) (try_catch_block_ (builder s)) ->
  NoDup blocks.*1 ->
  (forall k, (k < length blocks)%nat ->
             IntPtr.in_range (sum_Z (take k blocks.*2))) ->
  exists s',
    nest_switches blocks s = Ok (tt, s')
    /\ forall i a n,
         blocks !! i = Some (a, n) ->
         exists r,
           switch_blocks s' !! a = Some r
           /\ sb_case_count_ r = n
           /\ sb_depth_ r = sum_Z (take i blocks.*2)
           /\ sb_outer_ r = match i with
                            | O => None
                            | S i' => blocks.*1 !! i'
                            end
           /\ sb_destinations_ r = ∅
           /\ sb_outer_finally_ r = try_finally_block_ (builder s)
           /\ sb_context_depth_ r = context_depth_ (builder s).
Proof.
  intros Htop Htc Hnd Hsum.
  destruct (nest_switches_depths blocks s 0) as (s' & Hrun & _ & Hrec);
    try done.
  - by rewrite Htop.
  - by rewrite Htop.
  - intros _. unfold next_depth. by rewrite Htop.
  - exists s'. split; [done|]. intros i a n Hi.
    destruct (Hrec i a n Hi) as (r & Hr & Hn & Hd & Ho & Hrest).
    exists r. rewrite Htop in Ho. by rewrite Z.add_0_l in Hd.
Qed.

(** C2.  Two switch constructs entered one inside the other on a builder
    that is in no switch, the outer with [c0] cases at [p0] and the inner
    with [c1] cases at [p1]: the outer record has depth 0 and the inner one
    depth [c0].  [Destination] called on the inner record with an absolute
    target [t], [c0 <= t < c0 + c1], is [DestinationDirect] on the inner
    record with case [t - c0], and leaves the returned join entry cached
    under [t - c0] in the inner record; with [0 <= t < c0] it is
    [DestinationDirect] on the outer record with case [t], and leaves the
    join entry cached under [t] in the outer record.  For any number of
    switch constructs entered one inside the other, the depth of each record
    is the sum of the case counts of the records outside it (the sums being
    representable). *)
Theorem nested_switch_resolution :
  (forall s p0 p1 c0 c1 t fo fc,
      switch_block_ (builder s) = None ->
      ptr_valid (try_catch_blocks s) (try_catch_block_ (builder s)) ->
      p0 <> p1 ->
      IntPtr.in_range c0 -> IntPtr.in_range c1 -> IntPtr.in_range t ->
      (fo = true -> fc = true) ->
      exists s2 b0 b1,
        nest_switches [(p0, c0); (p1, c1)] s = Ok (tt, s2)
        /\ switch_blocks s2 !! p0 = Some b0
        /\ switch_blocks s2 !! p1 = Some b1
        /\ sb_outer_ b0 = None /\ sb_outer_ b1 = Some p0
        /\ sb_case_count_ b0 = c0 /\ sb_case_count_ b1 = c1
        /\ sb_depth_ b0 = 0 /\ sb_depth_ b1 = c0
        /\ (c0 <= t < c0 + c1 ->
            SwitchBlock_Destination p1 t fo fc s2
            = SwitchBlock_DestinationDirect p1 (t - c0) fo fc s2
            /\ exists j s3,
                SwitchBlock_Destination p1 t fo fc s2
                = Ok (mkResolution j (out_value fo (sb_outer_finally_ b1))
                        (out_value fo (sb_context_depth_ b1)), s3)
                /\ sb_destinations_ <$> switch_blocks s3 !! p1
                   = Some {[ t - c0 := j ]}
                /\ switch_blocks s3 !! p0 = Some b0)
        /\ (0 <= t < c0 ->
            SwitchBlock_Destination p1 t fo fc s2
            = SwitchBlock_DestinationDirect p0 t fo fc s2
            /\ exists j s3,
                SwitchBlock_Destination p1 t fo fc s2
                = Ok (mkResolution j (out_value fo (sb_outer_finally_ b0))
                        (out_value fo (sb_context_depth_ b0)), s3)
                /\ sb_destinations_ <$> switch_blocks s3 !! p0
                   = Some {[ t := j ]}
                /\ switch_blocks s3 !! p1 = Some b1))
  /\ (forall blocks s,
        switch_block_ (builder s) = None ->
        ptr_valid (try_catch_blocks s) (try_catch_block_ (builder s)) ->
        NoDup blocks.*1 ->
        (forall k, (k < length blocks)%nat ->
                   IntPtr.in_range (sum_Z (take k blocks.*2))) ->
        exists s',
          nest_switches blocks s = Ok (tt, s')
          /\ forall i a n,
               blocks !! i = Some (a, n) ->
               exists r,
                 switch_blocks s' !! a = Some r
                 /\ sb_case_count_ r = n
                 /\ sb_outer_ r = match i with
                                  | O => None
                                  | S i' => blocks.*1 !! i'
                                  end
                 /\ sb_depth_ r = sum_Z (take i blocks.*2)).
Proof.
  split.
  - intros s p0 p1 c0 c1 t fo fc Htop Htc Hne Hc0 Hc1 Ht Hflags.
    destruct (nest_switches_outermost [(p0, c0); (p1, c1)] s Htop Htc)
      as (s2 & Hrun & Hrec).
    { simpl. apply NoDup_cons. split; [by intros ?%list_elem_of_singleton|].
      apply NoDup_singleton. }
    { intros [|[|k]] Hk; simpl in Hk; try lia.
      - apply IntPtr_in_range_0.
      - unfold sum_Z. simpl. by rewrite Z.add_0_r. }
    destruct (Hrec 0%nat p0 c0 eq_refl)
      as (b0 & Hb0 & Hn0 & Hd0 & Ho0 & He0 & _).
    destruct (Hrec 1%nat p1 c1 eq_refl)
      as (b1 & Hb1 & Hn1 & Hd1 & Ho1 & He1 & _).
    unfold sum_Z in Hd0, Hd1. simpl in Hd0, Hd1, Ho1.
    rewrite Z.add_0_r in Hd1.
    assert (Hchain : chain sb_outer_ (switch_blocks s2) (Some p1) [p1; p0]).
    { apply chain_cons with b1;
        [done | by intros ?%list_elem_of_singleton |]. rewrite Ho1.
      apply chain_cons with b0; [done | apply not_elem_of_nil |]. rewrite Ho0.
      constructor. }
    exists s2, b0, b1. repeat (split; [done|]). split.
    + intros [Hlo Hhi].
      assert (Hres : SwitchBlock_Destination p1 t fo fc s2
                     = SwitchBlock_DestinationDirect p1 (t - c0) fo fc s2).
      { rewrite (Destination_chain s2 p1 [p1; p0] t fo fc p1 b1 Hchain);
          [|simpl; rewrite Hb1, Hd1;
            by destruct (Z.gtb_spec c0 t); [lia|] | done].
        rewrite Hd1, IntPtr_sub_exact; [done|].
        range_lia. }
      split; [done|]. rewrite Hres.
      rewrite (DestinationDirect_effect s2 p1 (t - c0) fo fc b1 Hb1 Hflags).
      rewrite He1, lookup_empty. eexists _, _. split; [done|]. simpl.
      rewrite lookup_insert_eq, lookup_insert_ne by done. simpl.
      by rewrite insert_empty.
    + intros [Hlo Hhi].
      assert (Hres : SwitchBlock_Destination p1 t fo fc s2
                     = SwitchBlock_DestinationDirect p0 t fo fc s2).
      { rewrite (Destination_chain s2 p1 [p1; p0] t fo fc p0 b0 Hchain);
          [| simpl; rewrite Hb1, Hd1, Hb0, Hd0;
             destruct (Z.gtb_spec c0 t); [|lia];
             by destruct (Z.gtb_spec 0 t); [lia|] | done].
        rewrite Hd0. unfold IntPtr.sub. rewrite Z.sub_0_r.
        by rewrite IntPtr_wrap_id. }
      split; [done|]. rewrite Hres.
      rewrite (DestinationDirect_effect s2 p0 t fo fc b0 Hb0 Hflags).
      rewrite He0, lookup_empty. eexists _, _. split; [done|]. simpl.
      rewrite lookup_insert_eq, lookup_insert_ne by done. simpl.
      by rewrite insert_empty.
  - intros blocks s Htop Htc Hnd Hsum.
    destruct (nest_switches_outermost blocks s Htop Htc Hnd Hsum)
      as (s' & Hrun & Hrec).
    exists s'. split; [done|]. intros i a n Hi.
    destruct (Hrec i a n Hi) as (r & Hr & Hn & Hd & Ho & _).
    by exists r.
Qed.

(** C10.  On a live switch record of depth [d] and for a relative case
    number [n >= 0] with [d + n] representable, [Destination (d + n)] and
    [DestinationDirect n] are the same computation: the same join entry, the
    same values stored through the out-parameters, the same final state;
    and they return whenever the out-pointers are both given or
    [outer_finally] is [NULL]. *)
Theorem DestinationDirect_agrees_with_Destination s this r n fo fc :
  switch_blocks s !! this = Some r ->
  0 <= n ->
  IntPtr.in_range n ->
  IntPtr.in_range (sb_depth_ r + n) ->
  SwitchBlock_Destination this (sb_depth_ r + n) fo fc s
  = SwitchBlock_DestinationDirect this n fo fc s
  /\ ((fo = true -> fc = true) ->
      exists res s',
        SwitchBlock_DestinationDirect this n fo fc s = Ok (res, s')
        /\ res_outer_finally res = out_value fo (sb_outer_finally_ r)
        /\ res_context_depth res = out_value fo (sb_context_depth_ r)).
Proof.
  intros Hr Hn Hrn Hsum. split.
  - rewrite (Destination_resolves s this _ fo fc this r); [|simpl|done].
    + rewrite <- (IntPtr_add_exact _ _ Hsum).
      by rewrite IntPtr_sub_add_cancel.
    + rewrite Hr. by destruct (Z.gtb_spec (sb_depth_ r) (sb_depth_ r + n)); [lia|].
  - intros Hflags. rewrite (DestinationDirect_effect s this n fo fc r Hr Hflags).
    destruct (sb_destinations_ r !! n); eexists _, _; done.
Qed.

(** C6.  Constructing a [TryFinallyBlock] records the finalizer's kernel
    offset, the builder's context depth, the active try-index, and the
    builder's try depth minus one; whatever is run afterwards, short of
    destroying the record or constructing another at its address, the four
    accessors return these values. *)
Theorem TryFinallyBlock_records_entry_values s this off :
  ptr_valid (try_catch_blocks s) (try_catch_block_ (builder s)) ->
  IntPtr.in_range (try_depth_ (builder s) - 1) ->
  exists ti s1,
    CurrentTryIndex s = Ok (ti, s)
    /\ TryFinallyBlock_ctor this off s = Ok (tt, s1)
    /\ forall body s2,
         run body s1 = Ok (tt, s2) ->
         untouched touches_try_finally this body ->
         TryFinallyBlock_finalizer_kernel_offset this s2 = Ok (off, s2)
         /\ TryFinallyBlock_context_depth this s2
            = Ok (context_depth_ (builder s), s2)
         /\ TryFinallyBlock_try_index this s2 = Ok (ti, s2)
         /\ TryFinallyBlock_try_depth this s2
            = Ok (try_depth_ (builder s) - 1, s2).
Proof.
  intros Htc Hrange. destruct (CurrentTryIndex_valid s Htc) as [ti Hti].
  exists ti. eexists. split; [done|].
  split; [by apply TryFinallyBlock_ctor_effect|].
  intros body s2 Hrun Hu.
  pose proof (run_preserves (same (view_try_finally this)) (touches_try_finally this)
                body (exec_preserves_try_finally this) Hu _ _ _ Hrun) as Hv.
  unfold same, view_try_finally in Hv. simpl in Hv. rewrite lookup_insert_eq in Hv.
  unfold TryFinallyBlock_finalizer_kernel_offset, TryFinallyBlock_context_depth,
    TryFinallyBlock_try_index, TryFinallyBlock_try_depth.
  rewrite !(bind_Ok_intro _ _ _ _ _ (load_live try_finally_blocks this s2 _ Hv)).
  simpl. rewrite (IntPtr_sub_exact _ _ Hrange). done.
Qed.

(** C7.  For each of the five record classes: the constructor makes the
    new record the builder's top of that chain, with the previous top as
    its [outer_]; and whatever is run before the record is destroyed, short
    of destroying it or constructing another at its address, the destructor
    returns and leaves the builder's top as it was before the
    construction. *)
Theorem chain_records_push_pop s this :
  (forall i, exists s1,
      TryCatchBlock_ctor this i s = Ok (tt, s1)
      /\ try_catch_block_ (builder s1) = Some this
      /\ tcb_outer_ <$> try_catch_blocks s1 !! this
         = Some (try_catch_block_ (builder s))
      /\ forall body s2,
           run body s1 = Ok (tt, s2) -> untouched touches_try_catch this body ->
           exists s3, TryCatchBlock_dtor this s2 = Ok (tt, s3)
             /\ try_catch_block_ (builder s3) = try_catch_block_ (builder s))
  /\ (forall off, tops_valid s -> exists s1,
      TryFinallyBlock_ctor this off s = Ok (tt, s1)
      /\ try_finally_block_ (builder s1) = Some this
      /\ tfb_outer_ <$> try_finally_blocks s1 !! this
         = Some (try_finally_block_ (builder s))
      /\ forall body s2,
           run body s1 = Ok (tt, s2) -> untouched touches_try_finally this body ->
           exists s3, TryFinallyBlock_dtor this s2 = Ok (tt, s3)
             /\ try_finally_block_ (builder s3) = try_finally_block_ (builder s))
  /\ (tops_valid s -> exists s1,
      BreakableBlock_ctor this s = Ok (tt, s1)
      /\ breakable_block_ (builder s1) = Some this
      /\ bb_outer_ <$> breakable_blocks s1 !! this
         = Some (breakable_block_ (builder s))
      /\ forall body s2,
           run body s1 = Ok (tt, s2) -> untouched touches_breakable this body ->
           exists s3, BreakableBlock_dtor this s2 = Ok (tt, s3)
             /\ breakable_block_ (builder s3) = breakable_block_ (builder s))
  /\ (forall n, tops_valid s -> exists s1,
      SwitchBlock_ctor this n s = Ok (tt, s1)
      /\ switch_block_ (builder s1) = Some this
      /\ sb_outer_ <$> switch_blocks s1 !! this
         = Some (switch_block_ (builder s))
      /\ forall body s2,
           run body s1 = Ok (tt, s2) -> untouched touches_switch this body ->
           exists s3, SwitchBlock_dtor this s2 = Ok (tt, s3)
             /\ switch_block_ (builder s3) = switch_block_ (builder s))
  /\ (forall e t i, exists s1,
      CatchBlock_ctor this e t i s = Ok (tt, s1)
      /\ catch_block_ (builder s1) = Some this
      /\ cb_outer_ <$> catch_blocks s1 !! this = Some (catch_block_ (builder s))
      /\ forall body s2,
           run body s1 = Ok (tt, s2) -> untouched touches_catch this body ->
           exists s3, CatchBlock_dtor this s2 = Ok (tt, s3)
             /\ catch_block_ (builder s3) = catch_block_ (builder s)).
Proof.
  split; [|split; [|split; [|split]]].
  - intros i. apply TryCatchBlock_push_pop.
  - intros off Hv. by apply TryFinallyBlock_push_pop.
  - intros Hv. by apply BreakableBlock_push_pop.
  - intros n Hv. by apply SwitchBlock_push_pop.
  - intros e t i. apply CatchBlock_push_pop.
Qed.

(** C8.  A [BreakableBlock] constructed on a builder gets label index 0
    when the builder is in no breakable construct, and one more than the
    label index of the builder's innermost breakable record otherwise. *)
Theorem BreakableBlock_label_index s this :
  tops_valid s ->
  exists s1 r,
    BreakableBlock_ctor this s = Ok (tt, s1)
    /\ breakable_blocks s1 !! this = Some r
    /\ bb_outer_ r = breakable_block_ (builder s)
    /\ (breakable_block_ (builder s) = None -> bb_index_ r = 0)
    /\ (forall a o,
          breakable_block_ (builder s) = Some a ->
          breakable_blocks s !! a = Some o ->
          IntPtr.in_range (bb_index_ o + 1) ->
          bb_index_ r = bb_index_ o + 1).
Proof.
  intros (Htc & Hbb & _).
  destruct (CurrentTryIndex_valid s Htc) as [ti Hti].
  rewrite (BreakableBlock_ctor_effect s this ti Hti Hbb).
  eexists _, _. split; [done|]. simpl. rewrite lookup_insert_eq.
  split; [done|]. simpl. split; [done|]. unfold next_label_index. split.
  - by intros ->.
  - intros a o -> -> Hr. by apply IntPtr_add_exact.
Qed.

(** ** Further properties of the header's code *)

#[global] Instance keeps_preorder (P : State -> Prop) : PreOrder (keeps P).
Proof.
  split; [intros s HP; exact HP|].
  intros s1 s2 s3 H12 H23 HP. by apply H23, H12.
Qed.

#[global] Instance arena_grows_preorder : PreOrder arena_grows.
Proof.
  split; [intros s; by unfold arena_grows|].
  intros s1 s2 s3 H12 H23. unfold arena_grows in *. by etrans.
Qed.

#[global] Instance keeps_case_cached_preorder p n :
  PreOrder (keeps_case_cached p n).
Proof.
  split; [intros s j Hj; exact Hj|].
  intros s1 s2 s3 H12 H23 j Hj. by apply H23, H12.
Qed.

(** *** The arena *)

Lemma BreakableBlock_EnsureDestination_arena block :
  preserves arena_grows (BreakableBlock_EnsureDestination block).
Proof.
  intros s j s' He. ensure_effect He a r Hr Hd; unfold arena_grows; [done|].
  simpl. by apply prefix_app_r.
Qed.

Lemma SwitchBlock_EnsureDestination_arena block n :
  preserves arena_grows (SwitchBlock_EnsureDestination block n).
Proof.
  intros s j s' He. ensure_effect He a r Hr Hd; unfold arena_grows; [done|].
  simpl. by apply prefix_app_r.
Qed.

Lemma exec_arena_grows o : preserves arena_grows (exec o).
Proof.
  destruct o; simpl; unfold_ops;
    repeat first
      [ apply BreakableBlock_EnsureDestination_arena
      | apply SwitchBlock_EnsureDestination_arena
      | apply CurrentTryIndex_preserves; apply _
      | preserves_step ];
    apply preserves_modify; intros s; unfold arena_grows; simpl; try done.
  by apply prefix_app_r.
Qed.

Lemma exec_same_arena o :
  allocates o = false -> preserves (same join_entries) (exec o).
Proof.
  destruct o; simpl; intros Ht; try discriminate; unfold_ops;
    repeat first
      [ apply CurrentTryIndex_preserves; apply _
      | preserves_step ];
    by apply preserves_modify.
Qed.

(** *** The cached join entries *)

Lemma caches_wf_shrink s s' :
  caches_wf s ->
  (forall sl j, slot_join s' sl = Some j ->
                slot_join s sl = Some j
                /\ slot_try_index s' sl = slot_try_index s sl) ->
  join_entries s' = join_entries s ->
  caches_wf s'.
Proof.
  intros [Htag Hinj] Hsub Hje. split.
  - intros sl j Hj. destruct (Hsub sl j Hj) as [Hj0 Hti].
    rewrite Hti, Hje. by apply Htag.
  - intros sl1 sl2 j H1 H2.
    apply (Hinj sl1 sl2 j); [by apply Hsub | by apply Hsub].
Qed.

Lemma caches_wf_arena s x :
  caches_wf s -> caches_wf (with_join_entries (fun js => js ++ [x]) s).
Proof.
  intros [Htag Hinj]. split; [|exact Hinj].
  intros sl j Hj. destruct (Htag sl j Hj) as (ti & Hti & Hn).
  exists ti. split; [exact Hti|]. simpl. by apply lookup_app_l_Some.
Qed.

Lemma caches_wf_add s s' sl0 ti0 :
  caches_wf s ->
  slot_join s sl0 = None ->
  slot_try_index s sl0 = Some ti0 ->
  slot_join s' sl0 = Some (length (join_entries s)) ->
  (forall sl, sl <> sl0 -> slot_join s' sl = slot_join s sl) ->
  (forall sl, slot_try_index s' sl = slot_try_index s sl) ->
  join_entries s' = join_entries s ++ [mkJoinEntryInstr ti0] ->
  caches_wf s'.
Proof.
  intros [Htag Hinj] Hnone Hti0 Hnew Hother Htis Hje.
  assert (Hold : forall sl j, sl <> sl0 -> slot_join s' sl = Some j ->
                              (j < length (join_entries s))%nat).
  { intros sl j Hne Hj. rewrite (Hother sl Hne) in Hj.
    destruct (Htag sl j Hj) as (ti & _ & Hn). by eapply lookup_lt_Some. }
  split.
  - intros sl j Hj. rewrite Htis, Hje. destruct (decide (sl = sl0)) as [->|Hne].
    + rewrite Hnew in Hj. injection Hj as <-. exists ti0. split; [done|].
      rewrite lookup_app_r by done. by rewrite Nat.sub_diag.
    + rewrite (Hother sl Hne) in Hj.
      destruct (Htag sl j Hj) as (ti & Hti & Hn).
      exists ti. split; [done|]. by apply lookup_app_l_Some.
  - intros sl1 sl2 j H1 H2.
    destruct (decide (sl1 = sl0)) as [->|Hne1];
      destruct (decide (sl2 = sl0)) as [->|Hne2]; [done | | |].
    + rewrite Hnew in H1. injection H1 as <-.
      pose proof (Hold sl2 _ Hne2 H2). lia.
    + rewrite Hnew in H2. injection H2 as <-.
      pose proof (Hold sl1 _ Hne1 H1). lia.
    + rewrite (Hother sl1 Hne1) in H1. rewrite (Hother sl2 Hne2) in H2.
      by apply (Hinj sl1 sl2 j).
Qed.

Lemma BreakableBlock_EnsureDestination_caches block :
  preserves (keeps caches_wf) (BreakableBlock_EnsureDestination block).
Proof.
  intros s j s' He Hwf. ensure_effect He a r Hr Hd; [done|].
  apply (caches_wf_add s _ (BreakSlot a) (bb_try_index_ r)); try done.
  - simpl. by rewrite Hr.
  - simpl. by rewrite Hr.
  - simpl. by rewrite lookup_insert_eq.
  - intros [p|p n] Hne; simpl; [|done].
    rewrite lookup_insert_ne; [done | congruence].
  - intros [p|p n]; simpl; [|done].
    destruct (decide (a = p)) as [->|Hne].
    + by rewrite lookup_insert_eq, Hr.
    + by rewrite lookup_insert_ne.
Qed.

Lemma SwitchBlock_EnsureDestination_caches block n :
  preserves (keeps caches_wf) (SwitchBlock_EnsureDestination block n).
Proof.
  intros s j s' He Hwf. ensure_effect He a r Hr Hd; [done|].
  apply (caches_wf_add s _ (CaseSlot a n) (sb_try_index_ r)); try done.
  - simpl. by rewrite Hr.
  - simpl. by rewrite Hr.
  - simpl. by rewrite lookup_insert_eq; simpl; rewrite lookup_insert_eq.
  - intros [p|p m] Hne; simpl; [done|].
    destruct (decide (a = p)) as [->|Hap].
    + rewrite lookup_insert_eq, Hr. simpl.
      rewrite lookup_insert_ne; [done | congruence].
    + by rewrite lookup_insert_ne.
  - intros [p|p m]; simpl; [done|].
    destruct (decide (a = p)) as [->|Hne].
    + by rewrite lookup_insert_eq, Hr.
    + by rewrite lookup_insert_ne.
Qed.

(** Every operation of the header keeps the cached join entries
    well-formed. *)
Lemma exec_caches_wf o : preserves (keeps caches_wf) (exec o).
Proof.
  destruct o; simpl; unfold_ops;
    repeat first
      [ apply BreakableBlock_EnsureDestination_caches
      | apply SwitchBlock_EnsureDestination_caches
      | apply CurrentTryIndex_preserves; apply _
      | preserves_step ];
    apply preserves_modify; intros s Hwf; try exact Hwf.
  - (* BreakableBlock constructed *)
    apply (caches_wf_shrink s); [done | | done].
    intros [p|p n] j; simpl; [|done].
    destruct (decide (this = p)) as [->|Hne].
    + by rewrite lookup_insert_eq.
    + by rewrite lookup_insert_ne.
  - (* BreakableBlock destroyed *)
    apply (caches_wf_shrink s); [done | | done].
    intros [p|p n] j; simpl; [|done].
    destruct (decide (this = p)) as [->|Hne].
    + by rewrite lookup_delete_eq.
    + by rewrite lookup_delete_ne.
  - (* SwitchBlock constructed *)
    apply (caches_wf_shrink s); [done | | done].
    intros [p|p n] j; simpl; [done|].
    destruct (decide (this = p)) as [->|Hne].
    + rewrite lookup_insert_eq. simpl. by rewrite lookup_empty.
    + by rewrite lookup_insert_ne.
  - (* SwitchBlock destroyed *)
    apply (caches_wf_shrink s); [done | | done].
    intros [p|p n] j; simpl; [done|].
    destruct (decide (this = p)) as [->|Hne].
    + by rewrite lookup_delete_eq.
    + by rewrite lookup_delete_ne.
  - (* BuildJoinEntry *)
    by apply caches_wf_arena.
Qed.

Lemma run_all (R : relation State) `{!PreOrder R} body :
  (forall o, preserves R (exec o)) -> preserves R (run body).
Proof.
  intros Hexec.
  apply (run_preserves R (fun _ => false)); [by intros o _|].
  by induction body.
Qed.

(** *** Nested constructs *)

Lemma live_length {A} (h : gmap addr A) (l : list addr) :
  NoDup l -> (forall a, a ∈ l -> is_Some (h !! a)) ->
  (length l <= size h)%nat.
Proof.
  intros Hnd Hlive. rewrite <- (size_dom (D := gset addr)).
  unfold size, set_size. simpl.
  apply submseteq_length, NoDup_submseteq; [done|].
  intros a Ha. apply elem_of_elements, elem_of_dom. by apply Hlive.
Qed.

(** [BreakDestination], given where its walk ends. *)
Lemma BreakDestination_walk s this L p r :
  is_Some (breakable_blocks s !! this) ->
  walk_label (S (size (breakable_blocks s))) (breakable_blocks s)
    (breakable_block_ (builder s)) L = Ok (Some p) ->
  breakable_blocks s !! p = Some r ->
  BreakableBlock_BreakDestination this L s
  = match bb_destination_ r with
    | Some j =>
        Ok (mkResolution j (Some (bb_outer_finally_ r))
              (Some (bb_context_depth_ r)), s)
    | None =>
        Ok (mkResolution (length (join_entries s)) (Some (bb_outer_finally_ r))
              (Some (bb_context_depth_ r)),
            with_breakable_blocks
              (insert p (set_bb_destination_ (Some (length (join_entries s))) r))
              (with_join_entries
                 (fun js => js ++ [mkJoinEntryInstr (bb_try_index_ r)]) s))
    end.
Proof.
  intros [r0 Hthis] Hw Hp. unfold BreakableBlock_BreakDestination.
  rewrite (bind_Ok_intro _ _ _ _ _ (load_live breakable_blocks this s r0 Hthis)).
  cbv [mbind M_bind gets]. rewrite Hw. simpl.
  rewrite (load_live breakable_blocks p s r Hp).
  unfold BreakableBlock_EnsureDestination.
  rewrite (bind_Ok_intro _ _ _ _ _ (load_live breakable_blocks p s r Hp)).
  destruct (bb_destination_ r) as [j|]; [done|].
  unfold BuildJoinEntry. cbv [mbind M_bind gets modify mret M_ret]. done.
Qed.

Lemma BreakDestination_walk_fault s this L e :
  is_Some (breakable_blocks s !! this) ->
  walk_label (S (size (breakable_blocks s))) (breakable_blocks s)
    (breakable_block_ (builder s)) L = Fault e ->
  BreakableBlock_BreakDestination this L s = Fault e.
Proof.
  intros [r0 Hthis] Hw. unfold BreakableBlock_BreakDestination.
  rewrite (bind_Ok_intro _ _ _ _ _ (load_live breakable_blocks this s r0 Hthis)).
  cbv [mbind M_bind gets]. by rewrite Hw.
Qed.

Lemma nest_breakables_records blocks :
  forall s D,
    ptr_valid (try_catch_blocks s) (try_catch_block_ (builder s)) ->
    ptr_valid (breakable_blocks s) (breakable_block_ (builder s)) ->
    (forall a, breakable_block_ (builder s) = Some a -> a ∉ blocks) ->
    NoDup blocks ->
    (blocks <> [] -> next_label_index s = D) ->
    (forall k, (k < length blocks)%nat -> IntPtr.in_range (D + Z.of_nat k)) ->
    exists s',
      nest_breakables blocks s = Ok (tt, s')
      /\ (forall a, a ∉ blocks ->
                    breakable_blocks s' !! a = breakable_blocks s !! a)
      /\ breakable_block_ (builder s')
         = match last blocks with
           | Some a => Some a
           | None => breakable_block_ (builder s)
           end
      /\ forall i a,
           blocks !! i = Some a ->
           exists r,
             breakable_blocks s' !! a = Some r
             /\ bb_index_ r = D + Z.of_nat i
             /\ bb_outer_ r = match i with
                              | O => breakable_block_ (builder s)
                              | S i' => blocks !! i'
                              end
             /\ bb_destination_ r = None
             /\ bb_outer_finally_ r = try_finally_block_ (builder s)
             /\ bb_context_depth_ r = context_depth_ (builder s).
Proof.
  induction blocks as [|a rest IH]; intros s D Htc Hbb Htop Hnd HD Hsum.
  - exists s. simpl. repeat split; try done.
  - destruct (CurrentTryIndex_valid s Htc) as [ti Hti].
    pose proof (BreakableBlock_ctor_effect s a ti Hti Hbb) as Hctor.
    rewrite (HD ltac:(done)) in Hctor.
    set (s1 := with_breakable_blocks _ _) in Hctor.
    apply NoDup_cons in Hnd as [Hni Hnd].
    assert (Hnext : rest <> [] -> next_label_index s1 = D + 1).
    { intros Hrest. unfold next_label_index at 1. subst s1. simpl.
      rewrite lookup_insert_eq. simpl. apply IntPtr_add_exact.
      specialize (Hsum 1%nat). apply Hsum.
      destruct rest; [done | simpl; lia]. }
    destruct (IH s1 (D + 1)) as (s' & Hrun & Hframe & Hlast & Hrec).
    { done. }
    { subst s1. simpl. rewrite lookup_insert_eq. eauto. }
    { subst s1. simpl. by intros ? [= <-]. }
    { done. }
    { done. }
    { intros k Hk. specialize (Hsum (S k) ltac:(simpl; lia)).
      replace (D + 1 + Z.of_nat k) with (D + Z.of_nat (S k)) by lia. done. }
    exists s'.
    split; [simpl; by rewrite (bind_Ok_intro _ _ _ _ _ Hctor)|].
    split; [|split].
    + intros a' [Hne Hni']%not_elem_of_cons.
      rewrite Hframe by done. subst s1. simpl. by rewrite lookup_insert_ne.
    + rewrite Hlast, last_cons. subst s1. by destruct (last rest).
    + intros [|i] a' Hi; simpl in Hi.
      * injection Hi as <-. rewrite (Hframe a Hni). subst s1. simpl.
        rewrite lookup_insert_eq. eexists. split; [done|]. simpl.
        repeat split; try done. lia.
      * destruct (Hrec i a' Hi) as (r & Hr & Hd & Ho & He & Hf & Hx).
        exists r. split; [done|]. split; [rewrite Hd; lia|].
        split; [|done]. rewrite Ho. by destruct i.
Qed.

(** The walk of [BreakDestination] from the [k]-th of a nest of records
    whose label indices count up from 0 at the outermost one. *)
Lemma walk_label_nested (h : gmap addr BreakableBlock) (blocks : list addr) L :
  (forall i a,
      blocks !! i = Some a ->
      exists r, h !! a = Some r /\ bb_index_ r = Z.of_nat i
                /\ bb_outer_ r = match i with
                                 | O => None
                                 | S i' => blocks !! i'
                                 end) ->
  forall k a fuel,
    blocks !! k = Some a -> (S k < fuel)%nat ->
    walk_label fuel h (Some a) L
    = if decide (0 <= L <= Z.of_nat k)
      then Ok (blocks !! Z.to_nat L)
      else Fault NullDereference.
Proof.
  intros Hrec. induction k as [|k IH]; intros a fuel Hk Hfuel.
  - destruct (Hrec _ _ Hk) as (r & Hr & Hi & Ho).
    destruct fuel as [|[|fuel]]; try lia.
    destruct (decide (0 <= L <= Z.of_nat 0%nat)) as [Hin|Hout];
      simpl; rewrite Hr, Hi, Ho;
      destruct (Z.eqb_spec (Z.of_nat 0%nat) L) as [<-|Hne]; simpl;
      try done; try lia.
    by rewrite Nat2Z.id, Hk.
  - destruct (Hrec _ _ Hk) as (r & Hr & Hi & Ho).
    destruct fuel as [|fuel]; try lia.
    change (walk_label (S fuel) h (Some a) L)
      with (match deref h (Some a) with
            | Ok r =>
                if negb (bb_index_ r =? L)
                then walk_label fuel h (bb_outer_ r) L
                else Ok (Some a)
            | Fault e => Fault e
            | OutOfFuel => OutOfFuel
            end).
    unfold deref. rewrite Hr, Hi, Ho.
    assert (is_Some (blocks !! k)) as [a' Ha'].
    { apply lookup_lt_is_Some. apply lookup_lt_Some in Hk. lia. }
    rewrite Ha'. rewrite (IH a' fuel Ha') by lia.
    destruct (decide (0 <= L <= Z.of_nat k)) as [Hin|Hout];
      destruct (decide (0 <= L <= Z.of_nat (S k))) as [Hin'|Hout'];
      destruct (Z.eqb_spec (Z.of_nat (S k)) L) as [<-|Hne];
      simpl; try first [done | lia].
    by rewrite Nat2Z.id, Hk.
Qed.

(** X1.  Breakable constructs entered one inside the other on a builder
    that is in none get the label indices 0, 1, 2, ... from the outermost
    inwards.  A break resolution for a label [L] then returns exactly when
    [0 <= L] and [L] is below the number of constructs; it reaches the
    [L]-th construct and leaves its join entry cached there.  For every
    other label the walk runs off the chain and reads through [NULL]. *)
Theorem nested_break_labels blocks s this L :
  breakable_block_ (builder s) = None ->
  ptr_valid (try_catch_blocks s) (try_catch_block_ (builder s)) ->
  NoDup blocks ->
  IntPtr.in_range (Z.of_nat (length blocks)) ->
  this ∈ blocks ->
  exists s',
    nest_breakables blocks s = Ok (tt, s')
    /\ (forall i a,
          blocks !! i = Some a ->
          bb_index_ <$> breakable_blocks s' !! a = Some (Z.of_nat i))
    /\ (forall a,
          0 <= L -> blocks !! Z.to_nat L = Some a ->
          exists res s'',
            BreakableBlock_BreakDestination this L s' = Ok (res, s'')
            /\ slot_join s'' (BreakSlot a) = Some (res_join res)
            /\ res_outer_finally res = Some (try_finally_block_ (builder s))
            /\ res_context_depth res = Some (context_depth_ (builder s)))
    /\ (L < 0 \/ Z.of_nat (length blocks) <= L ->
        BreakableBlock_BreakDestination this L s' = Fault NullDereference).
Proof.
  intros Htop Htc Hnd Hrange Hthis.
  destruct (nest_breakables_records blocks s 0)
    as (s' & Hrun & _ & Hlast & Hrec); try done.
  { by rewrite Htop. }
  { by rewrite Htop. }
  { intros _. unfold next_label_index. by rewrite Htop. }
  { intros k Hk. range_lia. }
  assert (Hrec' : forall i a,
             blocks !! i = Some a ->
             exists r, breakable_blocks s' !! a = Some r
                       /\ bb_index_ r = Z.of_nat i
                       /\ bb_outer_ r = match i with
                                        | O => None
                                        | S i' => blocks !! i'
                                        end).
  { intros i a Hi. destruct (Hrec i a Hi) as (r & Hr & Hx & Ho & _).
    exists r. rewrite Htop in Ho. repeat split; [done | lia | done]. }
  assert (Hlive : forall a, a ∈ blocks -> is_Some (breakable_blocks s' !! a)).
  { intros a (i & Hi)%list_elem_of_lookup.
    destruct (Hrec' i a Hi) as (r & Hr & _). eauto. }
  pose proof (live_length _ _ Hnd Hlive) as Hsize.
  destruct blocks as [|b0 rest] eqn:Eb; [by apply elem_of_nil in Hthis|].
  rewrite <- Eb in *.
  assert (Hn : (0 < length blocks)%nat) by (rewrite Eb; simpl; lia).
  assert (is_Some (blocks !! pred (length blocks))) as [top Htopl].
  { apply lookup_lt_is_Some. lia. }
  rewrite last_lookup, Htopl in Hlast.
  pose proof (walk_label_nested (breakable_blocks s') blocks L Hrec'
                (pred (length blocks)) top
                (S (size (breakable_blocks s'))) Htopl ltac:(lia)) as Hwalk.
  rewrite <- Hlast in Hwalk.
  exists s'. split; [done|]. split; [|split].
  - intros i a Hi. destruct (Hrec' i a Hi) as (r & -> & Hx & _).
    simpl. by rewrite Hx.
  - intros a HL Ha. pose proof (lookup_lt_Some _ _ _ Ha) as Hlt.
    rewrite decide_True, Ha in Hwalk by lia.
    destruct (Hrec (Z.to_nat L) a Ha) as (r & Hr & _ & _ & Hd & Hf & Hx).
    rewrite (BreakDestination_walk s' this L a r (Hlive this Hthis) Hwalk Hr).
    rewrite Hd. eexists _, _. split; [done|]. simpl.
    rewrite lookup_insert_eq. simpl. by rewrite Hf, Hx.
  - intros Hout. rewrite decide_False in Hwalk by lia.
    apply BreakDestination_walk_fault; [by apply Hlive | done].
Qed.

Lemma sum_Z_take_mono (cs : list Z) :
  (forall n, n ∈ cs -> 0 <= n) ->
  forall i j, (i <= j)%nat -> sum_Z (take i cs) <= sum_Z (take j cs).
Proof.
  induction cs as [|c cs IH]; intros Hpos i j Hij.
  - by rewrite !take_nil.
  - assert (0 <= c) by (apply Hpos; left).
    assert (Hpos' : forall n, n ∈ cs -> 0 <= n) by (intros; apply Hpos; by right).
    destruct i as [|i]; destruct j as [|j]; try lia.
    + rewrite firstn_cons, sum_Z_cons.
      specialize (IH Hpos' 0%nat j ltac:(lia)). rewrite take_0 in IH.
      change (sum_Z (take 0 (c :: cs))) with 0. change (sum_Z []) with 0 in IH.
      lia.
    + rewrite !firstn_cons, !sum_Z_cons.
      specialize (IH Hpos' i j ltac:(lia)). lia.
Qed.

Lemma sum_Z_take_nonneg (cs : list Z) i :
  (forall n, n ∈ cs -> 0 <= n) -> 0 <= sum_Z (take i cs).
Proof.
  intros Hpos. pose proof (sum_Z_take_mono cs Hpos 0%nat i ltac:(lia)) as Hm.
  by rewrite take_0 in Hm.
Qed.

(** The walk of [Destination] inside a nest of switch records whose depths
    are the sums of the case counts outside them. *)
Lemma walk_depth_nested_stop (h : gmap addr SwitchBlock)
  (blocks : list (addr * Z)) t :
  (forall i a n,
      blocks !! i = Some (a, n) ->
      exists r, h !! a = Some r
                /\ sb_depth_ r = sum_Z (take i blocks.*2)
                /\ sb_outer_ r = match i with
                                 | O => None
                                 | S i' => blocks.*1 !! i'
                                 end) ->
  forall d i k ak ai nk ni fuel,
    k = (i + d)%nat ->
    blocks !! k = Some (ak, nk) ->
    blocks !! i = Some (ai, ni) ->
    sum_Z (take i blocks.*2) <= t ->
    (forall j, (i < j <= k)%nat -> t < sum_Z (take j blocks.*2)) ->
    (d < fuel)%nat ->
    walk_depth fuel h (Some ak) t = Ok (Some ai).
Proof.
  intros Hrec. induction d as [|d IH];
    intros i k ak ai nk ni fuel -> Hk Hi Hle Hgt Hfuel.
  - rewrite Nat.add_0_r in Hk. rewrite Hk in Hi. injection Hi as <- <-.
    destruct (Hrec _ _ _ Hk) as (r & Hr & Hd & Ho).
    destruct fuel as [|fuel]; [lia|]. simpl. rewrite Hr, Hd.
    by destruct (Z.gtb_spec (sum_Z (take i blocks.*2)) t); [lia|].
  - destruct (Hrec _ _ _ Hk) as (r & Hr & Hd & Ho).
    destruct fuel as [|fuel]; [lia|]. simpl. rewrite Hr, Hd.
    specialize (Hgt (i + S d)%nat ltac:(lia)) as Hgtk.
    destruct (Z.gtb_spec (sum_Z (take (i + S d) blocks.*2)) t); [|lia].
    rewrite Ho. replace (i + S d)%nat with (S (i + d)) in * by lia.
    assert (is_Some (blocks !! (i + d)%nat)) as [[a' n'] Ha'].
    { apply lookup_lt_is_Some. apply lookup_lt_Some in Hk. lia. }
    rewrite list_lookup_fmap, Ha'. simpl.
    apply (IH i (i + d)%nat a' ai n' ni fuel); try done; try lia.
    intros j Hj. apply Hgt. lia.
Qed.

Lemma walk_depth_nested_below (h : gmap addr SwitchBlock)
  (blocks : list (addr * Z)) t :
  (forall i a n,
      blocks !! i = Some (a, n) ->
      exists r, h !! a = Some r
                /\ sb_depth_ r = sum_Z (take i blocks.*2)
                /\ sb_outer_ r = match i with
                                 | O => None
                                 | S i' => blocks.*1 !! i'
                                 end) ->
  forall k ak nk fuel,
    blocks !! k = Some (ak, nk) ->
    (forall j, (j <= k)%nat -> t < sum_Z (take j blocks.*2)) ->
    (S k < fuel)%nat ->
    walk_depth fuel h (Some ak) t = Fault NullDereference.
Proof.
  intros Hrec. induction k as [|k IH]; intros ak nk fuel Hk Hgt Hfuel.
  - destruct (Hrec _ _ _ Hk) as (r & Hr & Hd & Ho).
    destruct fuel as [|[|fuel]]; try lia. simpl. rewrite Hr, Hd.
    specialize (Hgt 0%nat ltac:(lia)) as Hgt0.
    destruct (Z.gtb_spec (sum_Z (take 0 blocks.*2)) t); [|lia].
    by rewrite Ho.
  - destruct (Hrec _ _ _ Hk) as (r & Hr & Hd & Ho).
    destruct fuel as [|fuel]; [lia|]. simpl. rewrite Hr, Hd.
    specialize (Hgt (S k) ltac:(lia)) as Hgtk.
    destruct (Z.gtb_spec (sum_Z (take (S k) blocks.*2)) t); [|lia].
    rewrite Ho.
    assert (is_Some (blocks !! k)) as [[a' n'] Ha'].
    { apply lookup_lt_is_Some. apply lookup_lt_Some in Hk. lia. }
    rewrite list_lookup_fmap, Ha'. simpl.
    apply (IH a' n' fuel); try done; try lia.
    intros j Hj. apply Hgt. lia.
Qed.

(** X2.  Switch constructs with non-negative case counts entered one inside
    the other on a builder that is in no switch.  [Destination] called on
    the [k]-th record with an absolute target that is at or above the depth
    of the [i]-th record, [i <= k], and below the depth of the record after
    it (no upper bound when [i = k]) is [DestinationDirect] on the [i]-th
    record with the target less that depth; it returns and leaves the join
    entry cached under that relative case number, which is not compared with
    the record's case count. *)
Theorem nested_switch_destination_general blocks s i k ai ni ak nk t fo fc :
  switch_block_ (builder s) = None ->
  ptr_valid (try_catch_blocks s) (try_catch_block_ (builder s)) ->
  NoDup blocks.*1 ->
  (forall j, (j < length blocks)%nat ->
             IntPtr.in_range (sum_Z (take j blocks.*2))) ->
  (forall n, n ∈ blocks.*2 -> 0 <= n) ->
  blocks !! i = Some (ai, ni) ->
  blocks !! k = Some (ak, nk) ->
  (i <= k)%nat ->
  IntPtr.in_range t ->
  sum_Z (take i blocks.*2) <= t ->
  ((i < k)%nat -> t < sum_Z (take (S i) blocks.*2)) ->
  (fo = true -> fc = true) ->
  exists s',
    nest_switches blocks s = Ok (tt, s')
    /\ SwitchBlock_Destination ak t fo fc s'
       = SwitchBlock_DestinationDirect ai (t - sum_Z (take i blocks.*2)) fo fc s'
    /\ exists res s'',
         SwitchBlock_Destination ak t fo fc s' = Ok (res, s'')
         /\ slot_join s'' (CaseSlot ai (t - sum_Z (take i blocks.*2)))
            = Some (res_join res)
         /\ res_outer_finally res
            = out_value fo (try_finally_block_ (builder s))
         /\ res_context_depth res = out_value fo (context_depth_ (builder s)).
Proof.
  intros Htop Htc Hnd Hsum Hpos Hi Hk Hik Ht Hle Hlt Hflags.
  destruct (nest_switches_outermost blocks s Htop Htc Hnd Hsum)
    as (s' & Hrun & Hrec).
  assert (Hrec' : forall i a n,
             blocks !! i = Some (a, n) ->
             exists r, switch_blocks s' !! a = Some r
                       /\ sb_depth_ r = sum_Z (take i blocks.*2)
                       /\ sb_outer_ r = match i with
                                        | O => None
                                        | S i' => blocks.*1 !! i'
                                        end).
  { intros j a n Hj. destruct (Hrec j a n Hj) as (r & Hr & _ & Hd & Ho & _).
    by exists r. }
  assert (Hlive : forall a, a ∈ blocks.*1 -> is_Some (switch_blocks s' !! a)).
  { intros a (j & Hj)%list_elem_of_lookup.
    rewrite list_lookup_fmap in Hj.
    destruct (blocks !! j) as [[a' n']|] eqn:Ej; [|done].
    injection Hj as ->. destruct (Hrec' j a n' Ej) as (r & Hr & _). eauto. }
  pose proof (live_length _ _ Hnd Hlive) as Hsize.
  rewrite length_fmap in Hsize.
  pose proof (lookup_lt_Some _ _ _ Hk) as Hklt.
  assert (Hwalk : walk_depth (S (size (switch_blocks s'))) (switch_blocks s')
                    (Some ak) t = Ok (Some ai)).
  { apply (walk_depth_nested_stop _ blocks t Hrec' (k - i)%nat i k ak ai nk ni);
      try done; try lia.
    intros j Hj. specialize (Hlt ltac:(lia)).
    pose proof (sum_Z_take_mono _ Hpos (S i) j ltac:(lia)). lia. }
  destruct (Hrec i ai ni Hi) as (r & Hr & _ & Hd & _ & He & Hf & Hx).
  pose proof (sum_Z_take_nonneg blocks.*2 i Hpos) as Hnn.
  assert (Hres : SwitchBlock_Destination ak t fo fc s'
                 = SwitchBlock_DestinationDirect ai
                     (t - sum_Z (take i blocks.*2)) fo fc s').
  { rewrite (Destination_resolves s' ak t fo fc ai r Hwalk Hr), Hd.
    rewrite IntPtr_sub_exact; [done|]. range_lia. }
  exists s'. split; [done|]. split; [done|]. rewrite Hres.
  rewrite (DestinationDirect_effect s' ai _ fo fc r Hr Hflags).
  rewrite He, lookup_empty. eexists _, _. split; [done|]. simpl.
  rewrite lookup_insert_eq. simpl. rewrite lookup_insert_eq.
  by rewrite Hf, Hx.
Qed.

(** X3.  In such a nest, [Destination] with a negative target walks past
    the outermost record and reads through [NULL]; no assertion guards the
    walk. *)
Theorem nested_switch_destination_below blocks s k ak nk t fo fc :
  switch_block_ (builder s) = None ->
  ptr_valid (try_catch_blocks s) (try_catch_block_ (builder s)) ->
  NoDup blocks.*1 ->
  (forall j, (j < length blocks)%nat ->
             IntPtr.in_range (sum_Z (take j blocks.*2))) ->
  (forall n, n ∈ blocks.*2 -> 0 <= n) ->
  blocks !! k = Some (ak, nk) ->
  t < 0 ->
  exists s',
    nest_switches blocks s = Ok (tt, s')
    /\ SwitchBlock_Destination ak t fo fc s' = Fault NullDereference.
Proof.
  intros Htop Htc Hnd Hsum Hpos Hk Ht.
  destruct (nest_switches_outermost blocks s Htop Htc Hnd Hsum)
    as (s' & Hrun & Hrec).
  assert (Hrec' : forall i a n,
             blocks !! i = Some (a, n) ->
             exists r, switch_blocks s' !! a = Some r
                       /\ sb_depth_ r = sum_Z (take i blocks.*2)
                       /\ sb_outer_ r = match i with
                                        | O => None
                                        | S i' => blocks.*1 !! i'
                                        end).
  { intros j a n Hj. destruct (Hrec j a n Hj) as (r & Hr & _ & Hd & Ho & _).
    by exists r. }
  assert (Hlive : forall a, a ∈ blocks.*1 -> is_Some (switch_blocks s' !! a)).
  { intros a (j & Hj)%list_elem_of_lookup.
    rewrite list_lookup_fmap in Hj.
    destruct (blocks !! j) as [[a' n']|] eqn:Ej; [|done].
    injection Hj as ->. destruct (Hrec' j a n' Ej) as (r & Hr & _). eauto. }
  pose proof (live_length _ _ Hnd Hlive) as Hsize.
  rewrite length_fmap in Hsize.
  pose proof (lookup_lt_Some _ _ _ Hk) as Hklt.
  exists s'. split; [done|]. unfold SwitchBlock_Destination.
  cbv [mbind M_bind gets].
  rewrite (walk_depth_nested_below _ blocks t Hrec' k ak nk); try done; try lia.
  intros j Hj. pose proof (sum_Z_take_nonneg blocks.*2 j Hpos). lia.
Qed.

(** *** What writes to a record *)

Lemma forallb_negb_orb {A} (f g : A -> bool) (l : list A) :
  forallb (fun o => negb (f o)) l = true ->
  forallb (fun o => negb (g o)) l = true ->
  forallb (fun o => negb (f o || g o)) l = true.
Proof.
  induction l as [|x l IH]; simpl; [done|].
  intros [Hf Hfl]%andb_true_iff [Hg Hgl]%andb_true_iff.
  rewrite IH by done. apply negb_true_iff in Hf, Hg. by rewrite Hf, Hg.
Qed.

Lemma SwitchBlock_EnsureDestination_record_breakable this block n :
  preserves (same (record_breakable this))
    (SwitchBlock_EnsureDestination block n).
Proof. intros s j s' He. by ensure_effect He a r Hr Hd. Qed.

Lemma BreakableBlock_EnsureDestination_record_switch this block :
  preserves (same (record_switch this))
    (BreakableBlock_EnsureDestination block).
Proof. intros s j s' He. by ensure_effect He a r Hr Hd. Qed.

Lemma BreakableBlock_EnsureDestination_case_cached p n block :
  preserves (keeps_case_cached p n) (BreakableBlock_EnsureDestination block).
Proof. intros s j s' He. ensure_effect He a r Hr Hd; by intros j' Hj'. Qed.

Lemma SwitchBlock_EnsureDestination_case_cached p n block m :
  preserves (keeps_case_cached p n) (SwitchBlock_EnsureDestination block m).
Proof.
  intros s j s' He. ensure_effect He a r Hr Hd; intros j' Hj'; [done|].
  simpl in *. destruct (decide (a = p)) as [->|Hne].
  - rewrite lookup_insert_eq. simpl. rewrite Hr in Hj'.
    destruct (decide (m = n)) as [->|Hmn]; [congruence|].
    by rewrite lookup_insert_ne.
  - by rewrite lookup_insert_ne.
Qed.

(** Only its construction, its destruction and a break resolution write to
    a breakable record. *)
Lemma exec_preserves_record_breakable this o :
  writes_breakable this o = false ->
  preserves (same (record_breakable this)) (exec o).
Proof.
  unfold writes_breakable. intros [Ht Hb]%orb_false_iff. revert Ht Hb.
  destruct o; simpl; intros Ht Hb; try discriminate; unfold_ops;
    repeat first
      [ apply SwitchBlock_EnsureDestination_record_breakable
      | apply CurrentTryIndex_preserves; apply _
      | preserves_step ];
    try (apply preserves_modify; intros; by unfold same);
    apply preserves_modify; intros; unfold same, record_breakable; simpl;
    apply bool_decide_eq_false in Ht.
  - by rewrite lookup_insert_ne.
  - by rewrite lookup_delete_ne.
Qed.

(** Only its construction, its destruction and a switch resolution write to
    a switch record. *)
Lemma exec_preserves_record_switch this o :
  writes_switch this o = false ->
  preserves (same (record_switch this)) (exec o).
Proof.
  unfold writes_switch. intros [Ht Hb]%orb_false_iff. revert Ht Hb.
  destruct o; simpl; intros Ht Hb; try discriminate; unfold_ops;
    repeat first
      [ apply BreakableBlock_EnsureDestination_record_switch
      | apply CurrentTryIndex_preserves; apply _
      | preserves_step ];
    try (apply preserves_modify; intros; by unfold same);
    apply preserves_modify; intros; unfold same, record_switch; simpl;
    apply bool_decide_eq_false in Ht.
  - by rewrite lookup_insert_ne.
  - by rewrite lookup_delete_ne.
Qed.

(** No operation clears or replaces a cached case destination. *)
Lemma exec_preserves_case_cached p n o :
  touches_switch p o = false ->
  preserves (keeps_case_cached p n) (exec o).
Proof.
  destruct o; simpl; intros Ht; unfold_ops;
    repeat first
      [ apply BreakableBlock_EnsureDestination_case_cached
      | apply SwitchBlock_EnsureDestination_case_cached
      | apply CurrentTryIndex_preserves; apply _
      | preserves_step ];
    try (apply preserves_modify; intros; by unfold keeps_case_cached);
    apply preserves_modify; intros s j Hj; simpl in *;
    apply bool_decide_eq_false in Ht.
  - by rewrite lookup_insert_ne.
  - by rewrite lookup_delete_ne.
Qed.

(** *** Resolutions in the context of the construct's entry *)

(** X4.  A break resolution that reaches a breakable record returns the
    [try_finally_block_] and the [context_depth_] the builder had when the
    record was constructed, whatever they are at the time of the break, and
    its join entry is a node of the arena tagged with the try-index that
    was active at the construction. *)
Theorem break_resolves_in_entry_context s this :
  tops_valid s ->
  caches_wf s ->
  exists ti s1,
    CurrentTryIndex s = Ok (ti, s)
    /\ BreakableBlock_ctor this s = Ok (tt, s1)
    /\ forall body s2 this2 l2 L,
         run body s1 = Ok (tt, s2) ->
         untouched touches_breakable this body ->
         chain bb_outer_ (breakable_blocks s2)
           (breakable_block_ (builder s2)) l2 ->
         is_Some (breakable_blocks s2 !! this2) ->
         first_label (breakable_blocks s2) l2 L = Some this ->
         exists res s3,
           BreakableBlock_BreakDestination this2 L s2 = Ok (res, s3)
           /\ res_outer_finally res = Some (try_finally_block_ (builder s))
           /\ res_context_depth res = Some (context_depth_ (builder s))
           /\ join_entries s3 !! res_join res = Some (mkJoinEntryInstr ti).
Proof.
  intros (Htc & Hbb & Hsb) Hwf.
  destruct (CurrentTryIndex_valid s Htc) as [ti Hti].
  pose proof (BreakableBlock_ctor_effect s this ti Hti Hbb) as Hctor.
  exists ti. eexists. split; [done|]. split; [exact Hctor|].
  intros body s2 this2 l2 L Hrun Hu Hc Hthis2 Hf.
  pose proof (exec_caches_wf (BreakableBlock_new this) s tt _ Hctor Hwf) as Hwf1.
  pose proof (run_all (keeps caches_wf) body exec_caches_wf _ _ _ Hrun Hwf1)
    as [Htag _].
  pose proof (run_preserves (same (view_breakable this))
                (touches_breakable this) body
                (exec_preserves_breakable this) Hu _ _ _ Hrun) as Hv.
  unfold same, view_breakable in Hv. simpl in Hv.
  rewrite lookup_insert_eq in Hv.
  destruct (breakable_blocks s2 !! this) as [r2|] eqn:Hr2; [|done].
  injection Hv as _ _ Hof Hcd Hti2. simpl in *.
  rewrite (BreakDestination_found s2 this2 l2 L this r2 Hc Hthis2 Hf Hr2).
  destruct (bb_destination_ r2) as [j|] eqn:Hd.
  - eexists _, _. split; [done|]. simpl. rewrite Hof, Hcd.
    repeat split; try done.
    destruct (Htag (BreakSlot this) j) as (ti' & Hti' & Hj).
    { simpl. by rewrite Hr2. }
    simpl in Hti'. rewrite Hr2 in Hti'. simpl in Hti'. congruence.
  - eexists _, _. split; [done|]. simpl. rewrite Hof, Hcd.
    repeat split; try done.
    rewrite lookup_app_r by done. by rewrite Nat.sub_diag, Hti2.
Qed.

(** X5.  A switch resolution on a switch record, for any case number,
    stores through its out-parameters the [try_finally_block_] and the
    [context_depth_] the builder had when the record was constructed, and
    its join entry is a node of the arena tagged with the try-index that
    was active at the construction. *)
Theorem switch_resolves_in_entry_context s this c :
  tops_valid s ->
  caches_wf s ->
  exists ti s1,
    CurrentTryIndex s = Ok (ti, s)
    /\ SwitchBlock_ctor this c s = Ok (tt, s1)
    /\ forall body s2 n fo fc,
         run body s1 = Ok (tt, s2) ->
         untouched touches_switch this body ->
         (fo = true -> fc = true) ->
         exists res s3,
           SwitchBlock_DestinationDirect this n fo fc s2 = Ok (res, s3)
           /\ res_outer_finally res
              = out_value fo (try_finally_block_ (builder s))
           /\ res_context_depth res
              = out_value fo (context_depth_ (builder s))
           /\ join_entries s3 !! res_join res = Some (mkJoinEntryInstr ti).
Proof.
  intros (Htc & Hbb & Hsb) Hwf.
  destruct (CurrentTryIndex_valid s Htc) as [ti Hti].
  pose proof (SwitchBlock_ctor_effect s this c ti Hti Hsb) as Hctor.
  exists ti. eexists. split; [done|]. split; [exact Hctor|].
  intros body s2 n fo fc Hrun Hu Hflags.
  pose proof (exec_caches_wf (SwitchBlock_new this c) s tt _ Hctor Hwf) as Hwf1.
  pose proof (run_all (keeps caches_wf) body exec_caches_wf _ _ _ Hrun Hwf1)
    as [Htag _].
  pose proof (run_preserves (same (view_switch this))
                (touches_switch this) body
                (exec_preserves_switch this) Hu _ _ _ Hrun) as Hv.
  unfold same, view_switch in Hv. simpl in Hv.
  rewrite lookup_insert_eq in Hv.
  destruct (switch_blocks s2 !! this) as [r2|] eqn:Hr2; [|done].
  injection Hv as _ Hof _ _ Hcd Hti2. simpl in *.
  rewrite (DestinationDirect_effect s2 this n fo fc r2 Hr2 Hflags).
  destruct (sb_destinations_ r2 !! n) as [j|] eqn:Hd.
  - eexists _, _. split; [done|]. simpl. rewrite Hof, Hcd.
    repeat split; try done.
    destruct (Htag (CaseSlot this n) j) as (ti' & Hti' & Hj).
    { simpl. by rewrite Hr2. }
    simpl in Hti'. rewrite Hr2 in Hti'. simpl in Hti'. congruence.
  - eexists _, _. split; [done|]. simpl. rewrite Hof, Hcd.
    repeat split; try done.
    rewrite lookup_app_r by done. by rewrite Nat.sub_diag, Hti2.
Qed.

(** *** [HadJumper] *)

(** X6.  [HadJumper()] and [destination()] of a breakable record tell
    whether a break has reached it: after the construction, and as long as
    no break resolution is run, they return [false] and [NULL]; after a
    break resolution that reaches the record they return [true] and the
    join entry of that resolution, and keep doing so until the record is
    destroyed. *)
Theorem BreakableBlock_HadJumper_tracks s this :
  tops_valid s ->
  exists s1,
    BreakableBlock_ctor this s = Ok (tt, s1)
    /\ (forall body s2,
          run body s1 = Ok (tt, s2) ->
          untouched touches_breakable this body ->
          forallb (fun o => negb (is_break o)) body = true ->
          BreakableBlock_HadJumper this s2 = Ok (false, s2)
          /\ BreakableBlock_destination this s2 = Ok (None, s2))
    /\ (forall body s2 this2 l2 L,
          run body s1 = Ok (tt, s2) ->
          untouched touches_breakable this body ->
          chain bb_outer_ (breakable_blocks s2)
            (breakable_block_ (builder s2)) l2 ->
          is_Some (breakable_blocks s2 !! this2) ->
          first_label (breakable_blocks s2) l2 L = Some this ->
          exists res s3,
            BreakableBlock_BreakDestination this2 L s2 = Ok (res, s3)
            /\ forall body' s4,
                 run body' s3 = Ok (tt, s4) ->
                 untouched touches_breakable this body' ->
                 BreakableBlock_HadJumper this s4 = Ok (true, s4)
                 /\ BreakableBlock_destination this s4
                    = Ok (Some (res_join res), s4)).
Proof.
  intros (Htc & Hbb & Hsb).
  destruct (CurrentTryIndex_valid s Htc) as [ti Hti].
  pose proof (BreakableBlock_ctor_effect s this ti Hti Hbb) as Hctor.
  eexists. split; [exact Hctor|]. split.
  - intros body s2 Hrun Hu Hnb.
    pose proof (run_preserves (same (record_breakable this))
                  (writes_breakable this) body
                  (exec_preserves_record_breakable this)
                  (forallb_negb_orb _ _ _ Hu Hnb) _ _ _ Hrun) as Hv.
    unfold same, record_breakable in Hv. simpl in Hv.
    rewrite lookup_insert_eq in Hv.
    unfold BreakableBlock_HadJumper, BreakableBlock_destination.
    by rewrite !(bind_Ok_intro _ _ _ _ _
                   (load_live breakable_blocks this s2 _ Hv)).
  - intros body s2 this2 l2 L Hrun Hu Hc Hthis2 Hf.
    destruct (first_label_Some _ _ _ _ Hf) as (_ & r2 & Hr2 & _).
    rewrite (BreakDestination_found s2 this2 l2 L this r2 Hc Hthis2 Hf Hr2).
    assert (Hcached : forall j s3,
               bb_destination_ <$> breakable_blocks s3 !! this = Some (Some j) ->
               forall body' s4,
                 run body' s3 = Ok (tt, s4) ->
                 untouched touches_breakable this body' ->
                 BreakableBlock_HadJumper this s4 = Ok (true, s4)
                 /\ BreakableBlock_destination this s4 = Ok (Some j, s4)).
    { intros j s3 Hj body' s4 Hrun' Hu'.
      pose proof (run_preserves (keeps_cached this) (touches_breakable this)
                    body' (exec_preserves_cached this) Hu' _ _ _ Hrun' j Hj)
        as Hkeep.
      destruct (breakable_blocks s4 !! this) as [r4|] eqn:Hr4; [|done].
      injection Hkeep as Hd4.
      unfold BreakableBlock_HadJumper, BreakableBlock_destination.
      rewrite !(bind_Ok_intro _ _ _ _ _
                  (load_live breakable_blocks this s4 _ Hr4)).
      by rewrite Hd4. }
    destruct (bb_destination_ r2) as [j|] eqn:Hd.
    + eexists _, _. split; [done|]. apply Hcached. by rewrite Hr2; simpl; f_equal.
    + eexists _, _. split; [done|]. apply Hcached. simpl.
      by rewrite lookup_insert_eq.
Qed.

(** X7.  The cases of a switch record are cached one by one.  After the
    construction, and as long as no switch resolution is run, [HadJumper] is
    [false] for every case number.  A resolution of case [n] (any integer:
    it is not compared with the case count) makes [HadJumper(n)] true and
    leaves [HadJumper] of every other case as it was; repeating it returns
    the same result and changes nothing; and the case stays cached until
    the record is destroyed. *)
Theorem SwitchBlock_cases_cached_one_by_one s this c :
  tops_valid s ->
  exists s1,
    SwitchBlock_ctor this c s = Ok (tt, s1)
    /\ (forall body s2 n,
          run body s1 = Ok (tt, s2) ->
          untouched touches_switch this body ->
          forallb (fun o => negb (is_switch_jump o)) body = true ->
          SwitchBlock_HadJumper this n s2 = Ok (false, s2))
    /\ (forall body s2 n fo fc,
          run body s1 = Ok (tt, s2) ->
          untouched touches_switch this body ->
          (fo = true -> fc = true) ->
          exists res s3,
            SwitchBlock_DestinationDirect this n fo fc s2 = Ok (res, s3)
            /\ SwitchBlock_DestinationDirect this n fo fc s3 = Ok (res, s3)
            /\ (forall m b,
                  m <> n ->
                  SwitchBlock_HadJumper this m s2 = Ok (b, s2) ->
                  SwitchBlock_HadJumper this m s3 = Ok (b, s3))
            /\ forall body' s4,
                 run body' s3 = Ok (tt, s4) ->
                 untouched touches_switch this body' ->
                 SwitchBlock_HadJumper this n s4 = Ok (true, s4)
                 /\ SwitchBlock_DestinationDirect this n fo fc s4
                    = Ok (res, s4)).
Proof.
  intros (Htc & Hbb & Hsb).
  destruct (CurrentTryIndex_valid s Htc) as [ti Hti].
  pose proof (SwitchBlock_ctor_effect s this c ti Hti Hsb) as Hctor.
  eexists. split; [exact Hctor|]. split.
  - intros body s2 n Hrun Hu Hnb.
    pose proof (run_preserves (same (record_switch this))
                  (writes_switch this) body
                  (exec_preserves_record_switch this)
                  (forallb_negb_orb _ _ _ Hu Hnb) _ _ _ Hrun) as Hv.
    unfold same, record_switch in Hv. simpl in Hv.
    rewrite lookup_insert_eq in Hv.
    unfold SwitchBlock_HadJumper.
    rewrite (bind_Ok_intro _ _ _ _ _ (load_live switch_blocks this s2 _ Hv)).
    simpl. by rewrite lookup_empty.
  - intros body s2 n fo fc Hrun Hu Hflags.
    pose proof (run_preserves (same (view_switch this))
                  (touches_switch this) body
                  (exec_preserves_switch this) Hu _ _ _ Hrun) as Hv.
    unfold same, view_switch in Hv. simpl in Hv.
    rewrite lookup_insert_eq in Hv.
    destruct (switch_blocks s2 !! this) as [r2|] eqn:Hr2; [|done].
    clear Hv.
    assert (Hcached : forall j s3 r3,
               switch_blocks s3 !! this = Some r3 ->
               sb_fixed r3 = sb_fixed r2 ->
               sb_destinations_ r3 !! n = Some j ->
               SwitchBlock_DestinationDirect this n fo fc s3
               = Ok (mkResolution j (out_value fo (sb_outer_finally_ r2))
                       (out_value fo (sb_context_depth_ r2)), s3)
               /\ forall body' s4,
                    run body' s3 = Ok (tt, s4) ->
                    untouched touches_switch this body' ->
                    SwitchBlock_HadJumper this n s4 = Ok (true, s4)
                    /\ SwitchBlock_DestinationDirect this n fo fc s4
                       = Ok (mkResolution j (out_value fo (sb_outer_finally_ r2))
                               (out_value fo (sb_context_depth_ r2)), s4)).
    { intros j s3 r3 Hr3 Hfix Hj.
      assert (Hres : forall s4 r4,
                 switch_blocks s4 !! this = Some r4 ->
                 sb_fixed r4 = sb_fixed r2 ->
                 sb_destinations_ r4 !! n = Some j ->
                 SwitchBlock_DestinationDirect this n fo fc s4
                 = Ok (mkResolution j (out_value fo (sb_outer_finally_ r2))
                         (out_value fo (sb_context_depth_ r2)), s4)).
      { intros s4 r4 Hr4 Hfix4 Hj4.
        rewrite (DestinationDirect_effect s4 this n fo fc r4 Hr4 Hflags), Hj4.
        injection Hfix4 as _ Hof _ _ Hcd _. by rewrite Hof, Hcd. }
      split; [by apply (Hres s3 r3)|].
      intros body' s4 Hrun' Hu'.
      pose proof (run_preserves (keeps_case_cached this n)
                    (touches_switch this) body'
                    (exec_preserves_case_cached this n) Hu' _ _ _ Hrun' j)
        as Hkeep.
      simpl in Hkeep. rewrite Hr3 in Hkeep. specialize (Hkeep Hj).
      pose proof (run_preserves (same (view_switch this))
                    (touches_switch this) body'
                    (exec_preserves_switch this) Hu' _ _ _ Hrun') as Hv4.
      unfold same, view_switch in Hv4. rewrite Hr3 in Hv4.
      destruct (switch_blocks s4 !! this) as [r4|] eqn:Hr4; [|done].
      injection Hv4 as Hv4.
      split.
      - unfold SwitchBlock_HadJumper.
        rewrite (bind_Ok_intro _ _ _ _ _
                   (load_live switch_blocks this s4 _ Hr4)).
        simpl. by rewrite Hkeep.
      - apply (Hres s4 r4); [done | | done].
        unfold sb_fixed in *. congruence. }
    rewrite (DestinationDirect_effect s2 this n fo fc r2 Hr2 Hflags).
    destruct (sb_destinations_ r2 !! n) as [j|] eqn:Hd.
    + eexists _, _. split; [done|].
      destruct (Hcached j s2 r2 Hr2 eq_refl Hd) as [Hagain Hlater].
      split; [done|]. split; [by intros m b _|]. done.
    + set (j := length (join_entries s2)).
      set (s3 := with_switch_blocks _ _).
      eexists _, s3. split; [done|].
      destruct (Hcached j s3
                  (set_sb_destinations_ (<[n := j]> (sb_destinations_ r2)) r2))
        as [Hagain Hlater].
      { subst s3. simpl. by rewrite lookup_insert_eq. }
      { done. }
      { simpl. by rewrite lookup_insert_eq. }
      split; [done|]. split; [|done].
      intros m b Hmn. unfold SwitchBlock_HadJumper.
      rewrite (bind_Ok_intro _ _ _ _ _ (load_live switch_blocks this s2 _ Hr2)).
      assert (Hr3 : switch_blocks s3 !! this
                    = Some (set_sb_destinations_
                              (<[n := j]> (sb_destinations_ r2)) r2)).
      { subst s3. simpl. by rewrite lookup_insert_eq. }
      rewrite (bind_Ok_intro _ _ _ _ _ (load_live switch_blocks this s3 _ Hr3)).
      simpl. rewrite lookup_insert_ne by done. by intros [= <-].
Qed.

(** *** The join entries of different targets *)

Lemma caches_wf_new_state id : caches_wf (new_state id).
Proof.
  split.
  - intros [p|p n] j; simpl; by rewrite lookup_empty.
  - intros [p|p n] sl2 j; simpl; by rewrite lookup_empty.
Qed.

(** X8.  Whatever sequence of operations is run, no join entry is handed
    to two targets: two cache slots (the [destination_] of a breakable
    record, a case of a switch record) that hold the same node are the same
    slot, and every cached node is a node of the arena. *)
Theorem cached_joins_never_shared s body s' :
  caches_wf s ->
  run body s = Ok (tt, s') ->
  (forall sl1 sl2 j,
      slot_join s' sl1 = Some j -> slot_join s' sl2 = Some j -> sl1 = sl2)
  /\ (forall sl j,
        slot_join s' sl = Some j -> (j < length (join_entries s'))%nat).
Proof.
  intros Hwf Hrun.
  destruct (run_all (keeps caches_wf) body exec_caches_wf _ _ _ Hrun Hwf)
    as [Htag Hinj].
  split; [exact Hinj|]. intros sl j Hj.
  destruct (Htag sl j Hj) as (ti & _ & Hn). by eapply lookup_lt_Some.
Qed.

(** X9.  Join entries are never freed or overwritten: after any sequence of
    operations the arena is the old arena with nodes appended.  Only the
    resolutions and [BuildJoinEntry] allocate: a sequence without them
    (constructions and destructions of records, allocations of try indices,
    assignments to the depth counters) leaves the arena as it was. *)
Theorem join_arena_only_grows s body s' :
  run body s = Ok (tt, s') ->
  join_entries s `prefix_of` join_entries s'
  /\ (forallb (fun o => negb (allocates o)) body = true ->
      join_entries s' = join_entries s).
Proof.
  intros Hrun. split.
  - exact (run_all arena_grows body exec_arena_grows _ _ _ Hrun).
  - intros Hna.
    exact (run_preserves (same join_entries) allocates body
             exec_same_arena Hna _ _ _ Hrun).
Qed.

(** *** Construction followed by destruction *)

Ltac state_round_trip s :=
  destruct s as [[] ?];
  unfold with_builder, with_try_catch_blocks, with_try_finally_blocks,
    with_breakable_blocks, with_switch_blocks, with_catch_blocks,
    set_try_catch_block_, set_next_used_try_index_, set_breakable_block_,
    set_switch_block_, set_try_finally_block_, set_catch_block_;
  simpl in *; rewrite delete_insert_id by done.

(** X10.  Constructing a record in storage that holds no live record of its
    class and destroying it at once leaves the whole state as it was, for
    [TryFinallyBlock], [BreakableBlock], [SwitchBlock], [CatchBlock] and for
    a [TryCatchBlock] given its handler index.  A [TryCatchBlock] with the
    default index leaves one trace: the try index it allocated is not given
    back. *)
Theorem push_pop_restores_state s this :
  (forall off,
      tops_valid s -> try_finally_blocks s !! this = None ->
      (TryFinallyBlock_ctor this off ≫= fun _ => TryFinallyBlock_dtor this) s
      = Ok (tt, s))
  /\ (tops_valid s -> breakable_blocks s !! this = None ->
      (BreakableBlock_ctor this ≫= fun _ => BreakableBlock_dtor this) s
      = Ok (tt, s))
  /\ (forall n,
        tops_valid s -> switch_blocks s !! this = None ->
        (SwitchBlock_ctor this n ≫= fun _ => SwitchBlock_dtor this) s
        = Ok (tt, s))
  /\ (forall e t i,
        catch_blocks s !! this = None ->
        (CatchBlock_ctor this e t i ≫= fun _ => CatchBlock_dtor this) s
        = Ok (tt, s))
  /\ (forall i,
        i <> -1 -> try_catch_blocks s !! this = None ->
        (TryCatchBlock_ctor this i ≫= fun _ => TryCatchBlock_dtor this) s
        = Ok (tt, s))
  /\ (try_catch_blocks s !! this = None ->
      (TryCatchBlock_ctor this (-1) ≫= fun _ => TryCatchBlock_dtor this) s
      = Ok (tt, with_builder
                  (set_next_used_try_index_
                     (IntPtr.add (next_used_try_index_ (builder s)) 1)) s)).
Proof.
  split; [|split; [|split; [|split; [|split]]]].
  - intros off (Htc & _ & _) Hfresh.
    destruct (CurrentTryIndex_valid s Htc) as [ti Hti].
    rewrite (bind_Ok_intro _ _ _ _ _ (TryFinallyBlock_ctor_effect s this off ti Hti)).
    unfold TryFinallyBlock_dtor. cbv [mbind M_bind modify load lift deref].
    simpl. rewrite lookup_insert_eq. by state_round_trip s.
  - intros (Htc & Hbb & _) Hfresh.
    destruct (CurrentTryIndex_valid s Htc) as [ti Hti].
    rewrite (bind_Ok_intro _ _ _ _ _ (BreakableBlock_ctor_effect s this ti Hti Hbb)).
    unfold BreakableBlock_dtor. cbv [mbind M_bind modify load lift deref].
    simpl. rewrite lookup_insert_eq. by state_round_trip s.
  - intros n (Htc & _ & Hsb) Hfresh.
    destruct (CurrentTryIndex_valid s Htc) as [ti Hti].
    rewrite (bind_Ok_intro _ _ _ _ _ (SwitchBlock_ctor_effect s this n ti Hti Hsb)).
    unfold SwitchBlock_dtor. cbv [mbind M_bind modify load lift deref].
    simpl. rewrite lookup_insert_eq. by state_round_trip s.
  - intros e t i Hfresh.
    rewrite (bind_Ok_intro _ _ _ _ _ (CatchBlock_ctor_effect s this e t i)).
    unfold CatchBlock_dtor. cbv [mbind M_bind modify load lift deref].
    simpl. rewrite lookup_insert_eq. by state_round_trip s.
  - intros i Hi Hfresh.
    unfold TryCatchBlock_ctor, TryCatchBlock_dtor.
    cbv [mbind M_bind modify load lift deref gets mret M_ret].
    destruct (Z.eqb_spec i (-1)) as [->|_]; [done|].
    simpl. rewrite lookup_insert_eq. by state_round_trip s.
  - intros Hfresh.
    unfold TryCatchBlock_ctor, TryCatchBlock_dtor, AllocateTryIndex.
    cbv [mbind M_bind modify load lift deref gets mret M_ret].
    simpl. rewrite lookup_insert_eq. by state_round_trip s.
Qed.

(** *** The out-parameters of the switch resolutions *)

(** X11.  The out-parameters of [Destination] and [DestinationDirect] have
    no part in the resolution: a call that returns returns the same join
    entry and leaves the same state as the call without out-parameters.
    With [outer_finally] [NULL] nothing is stored, whether [context_depth]
    is [NULL] or not.  With [outer_finally] given and [context_depth]
    [NULL], a call on a live record writes through [NULL], and no call with
    these arguments returns. *)
Theorem switch_out_params_independent s this n fo fc :
  (forall res s',
      SwitchBlock_DestinationDirect this n fo fc s = Ok (res, s') ->
      SwitchBlock_DestinationDirect this n false false s
      = Ok (mkResolution (res_join res) None None, s')
      /\ (fo = true -> fc = true)
      /\ (fo = false ->
          res_outer_finally res = None /\ res_context_depth res = None))
  /\ (forall res s',
        SwitchBlock_Destination this n fo fc s = Ok (res, s') ->
        SwitchBlock_Destination this n false false s
        = Ok (mkResolution (res_join res) None None, s')
        /\ (fo = true -> fc = true)
        /\ (fo = false ->
            res_outer_finally res = None /\ res_context_depth res = None))
  /\ (is_Some (switch_blocks s !! this) ->
      SwitchBlock_DestinationDirect this n true false s
      = Fault NullDereference).
Proof.
  split; [|split].
  - intros res s'. unfold SwitchBlock_DestinationDirect.
    cbv [mbind M_bind load lift deref gets mret M_ret]. simpl.
    destruct (switch_blocks s !! this) as [r|]; [|done]. simpl.
    destruct fo, fc; simpl; try done;
      destruct (SwitchBlock_EnsureDestination (Some this) n s)
        as [[j s1]| |]; try done; intros [= <- <-]; done.
  - intros res s'. unfold SwitchBlock_Destination.
    cbv [mbind M_bind load lift deref gets mret M_ret].
    destruct (walk_depth _ _ _ _) as [block| |]; [|done..].
    destruct block as [a|]; [|done].
    destruct (switch_blocks s !! a) as [r|]; [|done]. simpl.
    destruct fo, fc; simpl; try done;
      destruct (SwitchBlock_EnsureDestination (Some a) _ s)
        as [[j s1]| |]; try done; intros [= <- <-]; done.
  - intros [r Hr]. unfold SwitchBlock_DestinationDirect.
    cbv [mbind M_bind load lift deref gets mret M_ret]. simpl.
    by rewrite Hr.
Qed.

(** *** Try regions *)

(** X12.  A [TryCatchBlock] constructed with a handler index keeps that
    index, one constructed with the default takes the builder's next unused
    try index; [try_index()] and [outer()] return the index and the
    previous top for as long as the record lives, and whenever the record
    is the builder's top again, it is the index the builder reports as the
    active one. *)
Theorem TryCatchBlock_sets_current_try_index s this i :
  exists s1,
    TryCatchBlock_ctor this i s = Ok (tt, s1)
    /\ forall body s2,
         run body s1 = Ok (tt, s2) ->
         untouched touches_try_catch this body ->
         let index := if i =? -1 then next_used_try_index_ (builder s)
                      else i in
         TryCatchBlock_try_index this s2 = Ok (index, s2)
         /\ TryCatchBlock_outer this s2
            = Ok (try_catch_block_ (builder s), s2)
         /\ (try_catch_block_ (builder s2) = Some this ->
             CurrentTryIndex s2 = Ok (index, s2)).
Proof.
  assert (exists s1,
             TryCatchBlock_ctor this i s = Ok (tt, s1)
             /\ try_catch_blocks s1 !! this
                = Some (mkTryCatchBlock (try_catch_block_ (builder s))
                          (if i =? -1 then next_used_try_index_ (builder s)
                           else i))) as (s1 & Hctor & Hnew).
  { unfold TryCatchBlock_ctor, AllocateTryIndex.
    cbv [mbind M_bind modify gets mret M_ret].
    destruct (i =? -1); (eexists; split; [reflexivity|]); simpl;
      by rewrite lookup_insert_eq. }
  exists s1. split; [done|].
  intros body s2 Hrun Hu index.
  pose proof (run_preserves (same (view_try_catch this)) (touches_try_catch this)
                body (exec_preserves_try_catch this) Hu _ _ _ Hrun) as Hv.
  unfold same, view_try_catch in Hv.
  assert (Hr : try_catch_blocks s2 !! this
               = Some (mkTryCatchBlock (try_catch_block_ (builder s)) index)).
  { subst index. congruence. }
  unfold TryCatchBlock_try_index, TryCatchBlock_outer, CurrentTryIndex.
  rewrite !(bind_Ok_intro _ _ _ _ _ (load_live try_catch_blocks this s2 _ Hr)).
  split; [done|]. split; [done|]. intros Htop.
  cbv [mbind M_bind gets]. rewrite Htop.
  by rewrite (load_live try_catch_blocks this s2 _ Hr).
Qed.

(** The counter of try indices. *)

Lemma exec_same_next_used_try_index o :
  allocates_try_index o = false ->
  preserves (same view_next_used_try_index) (exec o).
Proof.
  destruct o; simpl; intros Ht; try discriminate; unfold_ops;
    try rewrite Ht;
    repeat first
      [ apply CurrentTryIndex_preserves; apply _
      | match goal with
        | |- preserves _ (BreakableBlock_EnsureDestination _) =>
            intros s j s' He; ensure_effect He a r Hr Hd; by unfold same
        | |- preserves _ (SwitchBlock_EnsureDestination _ _) =>
            intros s j s' He; ensure_effect He a r Hr Hd; by unfold same
        end
      | preserves_step ];
    by apply preserves_modify.
Qed.

Lemma exec_allocates_try_index o s s' :
  allocates_try_index o = true ->
  exec o s = Ok (tt, s') ->
  view_next_used_try_index s'
  = IntPtr.add (view_next_used_try_index s) 1.
Proof.
  destruct o; simpl; intros Ht; try discriminate.
  - unfold TryCatchBlock_ctor, AllocateTryIndex. rewrite Ht.
    cbv [mbind M_bind modify gets mret M_ret]. by intros [= <-].
  - unfold AllocateTryIndex.
    cbv [mbind M_bind modify gets mret M_ret]. by intros [= <-].
Qed.

(** X13.  The builder's counter of try indices is moved only by
    [AllocateTryIndex] and by the construction of a [TryCatchBlock] with
    the default handler index, by one each time: after any sequence of
    operations it has advanced by the number of such operations in the
    sequence, as long as that value is representable. *)
Theorem try_index_counter_counts body :
  forall s s',
    run body s = Ok (tt, s') ->
    IntPtr.in_range (next_used_try_index_ (builder s)) ->
    IntPtr.in_range
      (next_used_try_index_ (builder s) + Z.of_nat (try_allocations body)) ->
    next_used_try_index_ (builder s')
    = next_used_try_index_ (builder s) + Z.of_nat (try_allocations body).
Proof.
  induction body as [|o rest IH]; intros s s' Hrun Hlo Hhi.
  - injection Hrun as <-. unfold try_allocations. simpl. lia.
  - simpl in Hrun. apply bind_Ok in Hrun as ([] & s1 & Ho & Hrest).
    unfold try_allocations in *. simpl in *.
    destruct (allocates_try_index o) eqn:Ha.
    + pose proof (exec_allocates_try_index o s s1 Ha Ho) as Hn.
      unfold view_next_used_try_index in Hn. simpl in Hhi.
      assert (Hone : IntPtr.in_range (next_used_try_index_ (builder s) + 1))
        by range_lia.
      rewrite (IntPtr_add_exact _ _ Hone) in Hn.
      rewrite (IH s1 s' Hrest); rewrite Hn; simpl length;
        [lia | done | ].
      replace (next_used_try_index_ (builder s) + 1
               + Z.of_nat (length (List.filter allocates_try_index rest)))
        with (next_used_try_index_ (builder s)
              + Z.of_nat (S (length (List.filter allocates_try_index rest))))
        by lia.
      done.
    + pose proof (exec_same_next_used_try_index o Ha s tt s1 Ho) as Hn.
      unfold same, view_next_used_try_index in Hn.
      assert (Hn' : next_used_try_index_ (builder s1)
                    = next_used_try_index_ (builder s)) by congruence.
      rewrite (IH s1 s' Hrest); rewrite Hn'; done.
Qed.

Lemma TryCatchBlock_ctor_default_effect s this :
  TryCatchBlock_ctor this (-1) s
  = Ok (tt, with_try_catch_blocks
              (insert this
                 (mkTryCatchBlock (try_catch_block_ (builder s))
                    (next_used_try_index_ (builder s))))
              (with_builder (set_try_catch_block_ (Some this))
                 (with_builder
                    (set_next_used_try_index_
                       (IntPtr.add (next_used_try_index_ (builder s)) 1))
                    s))).
Proof. reflexivity. Qed.

Lemma nest_try_catch_records blocks :
  forall s,
    NoDup blocks ->
    IntPtr.in_range (next_used_try_index_ (builder s)) ->
    IntPtr.in_range
      (next_used_try_index_ (builder s) + Z.of_nat (length blocks)) ->
    exists s',
      nest_try_catch blocks s = Ok (tt, s')
      /\ (forall a, a ∉ blocks ->
                    try_catch_blocks s' !! a = try_catch_blocks s !! a)
      /\ try_catch_block_ (builder s')
         = match last blocks with
           | Some a => Some a
           | None => try_catch_block_ (builder s)
           end
      /\ next_used_try_index_ (builder s')
         = next_used_try_index_ (builder s) + Z.of_nat (length blocks)
      /\ forall i a,
           blocks !! i = Some a ->
           try_catch_blocks s' !! a
           = Some (mkTryCatchBlock
                     (match i with
                      | O => try_catch_block_ (builder s)
                      | S i' => blocks !! i'
                      end)
                     (next_used_try_index_ (builder s) + Z.of_nat i)).
Proof.
  induction blocks as [|a rest IH]; intros s Hnd Hlo Hhi.
  - exists s. simpl. repeat split; try done. lia.
  - pose proof (TryCatchBlock_ctor_default_effect s a) as Hctor.
    set (s1 := with_try_catch_blocks _ _) in Hctor.
    apply NoDup_cons in Hnd as [Hni Hnd]. simpl length in Hhi.
    assert (Hone : IntPtr.in_range (next_used_try_index_ (builder s) + 1))
      by range_lia.
    assert (Hnext : next_used_try_index_ (builder s1)
                    = next_used_try_index_ (builder s) + 1).
    { subst s1. simpl. by apply IntPtr_add_exact. }
    destruct (IH s1) as (s' & Hrun & Hframe & Hlast & Hcount & Hrec).
    { done. }
    { by rewrite Hnext. }
    { rewrite Hnext.
      replace (next_used_try_index_ (builder s) + 1 + Z.of_nat (length rest))
        with (next_used_try_index_ (builder s) + Z.of_nat (S (length rest)))
        by lia.
      done. }
    exists s'.
    split; [simpl; by rewrite (bind_Ok_intro _ _ _ _ _ Hctor)|].
    split; [|split; [|split]].
    + intros a' [Hne Hni']%not_elem_of_cons.
      rewrite Hframe by done. subst s1. simpl. by rewrite lookup_insert_ne.
    + rewrite Hlast, last_cons. subst s1. by destruct (last rest).
    + rewrite Hcount, Hnext. simpl length. lia.
    + intros [|i] a' Hi; simpl in Hi.
      * injection Hi as <-. rewrite (Hframe a Hni). subst s1. simpl.
        rewrite lookup_insert_eq. do 2 f_equal. lia.
      * rewrite (Hrec i a' Hi), Hnext.
        replace (next_used_try_index_ (builder s) + 1 + Z.of_nat i)
          with (next_used_try_index_ (builder s) + Z.of_nat (S i)) by lia.
        destruct i; subst s1; done.
Qed.

(** X14.  Try regions entered one inside the other, each with the default
    handler index, get the builder's next unused try indices in order, one
    each and so all different; each has the region entered before it as its
    [outer()], and the index of the innermost is the one the builder then
    reports as active. *)
Theorem nested_try_indices blocks s :
  NoDup blocks ->
  IntPtr.in_range (next_used_try_index_ (builder s)) ->
  IntPtr.in_range
    (next_used_try_index_ (builder s) + Z.of_nat (length blocks)) ->
  exists s',
    nest_try_catch blocks s = Ok (tt, s')
    /\ (forall i a,
          blocks !! i = Some a ->
          TryCatchBlock_try_index a s'
          = Ok (next_used_try_index_ (builder s) + Z.of_nat i, s')
          /\ TryCatchBlock_outer a s'
             = Ok (match i with
                   | O => try_catch_block_ (builder s)
                   | S i' => blocks !! i'
                   end, s'))
    /\ (blocks <> [] ->
        CurrentTryIndex s'
        = Ok (next_used_try_index_ (builder s)
              + Z.of_nat (length blocks) - 1, s'))
    /\ next_used_try_index_ (builder s')
       = next_used_try_index_ (builder s) + Z.of_nat (length blocks).
Proof.
  intros Hnd Hlo Hhi.
  destruct (nest_try_catch_records blocks s Hnd Hlo Hhi)
    as (s' & Hrun & _ & Hlast & Hcount & Hrec).
  exists s'. split; [done|]. split; [|split; [|done]].
  - intros i a Hi. unfold TryCatchBlock_try_index, TryCatchBlock_outer.
    rewrite !(bind_Ok_intro _ _ _ _ _
                (load_live try_catch_blocks a s' _ (Hrec i a Hi))).
    done.
  - intros Hne. destruct (last blocks) as [a|] eqn:Hl;
      [|by apply last_None in Hl].
    rewrite last_lookup in Hl.
    pose proof (Hrec _ _ Hl) as Hr.
    unfold CurrentTryIndex. cbv [mbind M_bind gets]. rewrite Hlast.
    rewrite (load_live try_catch_blocks a s' _ Hr).
    cbv [mret M_ret]. simpl tcb_try_index_.
    do 2 f_equal. destruct blocks; [done|]. simpl length.
    rewrite Nat.pred_succ. lia.
Qed.

(** *** [CatchBlock] *)

(** X15.  Constructing a [CatchBlock] never fails and reads nothing of the
    builder but the previous top of its chain; [exception_var()],
    [stack_trace_var()] and [catch_try_index()] return the constructor's
    arguments for as long as the record lives, whatever is run on the
    builder meanwhile. *)
Theorem CatchBlock_records_arguments s this e t i :
  exists s1,
    CatchBlock_ctor this e t i s = Ok (tt, s1)
    /\ forall body s2,
         run body s1 = Ok (tt, s2) ->
         untouched touches_catch this body ->
         CatchBlock_exception_var this s2 = Ok (e, s2)
         /\ CatchBlock_stack_trace_var this s2 = Ok (t, s2)
         /\ CatchBlock_catch_try_index this s2 = Ok (i, s2).
Proof.
  eexists. split; [by apply CatchBlock_ctor_effect|].
  intros body s2 Hrun Hu.
  pose proof (run_preserves (same (view_catch this)) (touches_catch this)
                body (exec_preserves_catch this) Hu _ _ _ Hrun) as Hv.
  unfold same, view_catch in Hv. simpl in Hv. rewrite lookup_insert_eq in Hv.
  unfold CatchBlock_exception_var, CatchBlock_stack_trace_var,
    CatchBlock_catch_try_index.
  rewrite !(bind_Ok_intro _ _ _ _ _ (load_live catch_blocks this s2 _ Hv)).
  done.
Qed.

(** *** The list constructor of [Fragment] *)

Lemma plus_assign_open this other g :
  is_open this = true -> is_open other = true ->
  exists r g', plus_assign this other g = Ok (r, g') /\ is_open r = true.
Proof.
  destruct this as [[e|] [c|]], other as [[e'|] [c'|]];
    unfold plus_assign, is_closed, is_open; simpl; try done;
    intros _ _; by eexists _, _.
Qed.

Lemma plus_assign_closed_right this other g :
  is_open this = true -> is_closed other = true ->
  exists r g', plus_assign this other g = Ok (r, g') /\ is_closed r = true.
Proof.
  destruct this as [[e|] [c|]], other as [[e'|] [c'|]];
    unfold plus_assign, is_closed, is_open; simpl; try done;
    intros _ _; by eexists _, _.
Qed.

Lemma Fragment_of_list_from_app l1 l2 :
  forall this g,
    Fragment_of_list_from this (l1 ++ l2) g
    = match Fragment_of_list_from this l1 g with
      | Ok (r, g') => Fragment_of_list_from r l2 g'
      | Fault f => Fault f
      | OutOfFuel => OutOfFuel
      end.
Proof.
  induction l1 as [|i rest IH]; intros this g; simpl.
  - by destruct (Fragment_of_list_from this l2 g) as [[]| |].
  - destruct (plus_assign this i g) as [[this' g']| |]; [apply IH|done..].
Qed.

Lemma Fragment_of_list_from_open list :
  forall this g,
    is_open this = true ->
    Forall (fun f => is_open f = true) list ->
    exists r g',
      Fragment_of_list_from this list g = Ok (r, g') /\ is_open r = true.
Proof.
  induction list as [|i rest IH]; intros this g Ho Hall; simpl.
  - by eexists _, _.
  - apply Forall_cons in Hall as [Hi Hrest].
    destruct (plus_assign_open this i g Ho Hi) as (r & g' & -> & Hr).
    by apply IH.
Qed.

Lemma wire_frame instrs :
  forall c g a, a ∉ c :: instrs -> wire c instrs g !! a = g !! a.
Proof.
  induction instrs as [|i rest IH]; intros c g a Ha; cbn [wire]; [done|].
  apply not_elem_of_cons in Ha as [Hc Ha].
  rewrite IH by done. unfold links, Instruction in *.
  rewrite lookup_insert_ne by congruence. done.
Qed.

Lemma wire_lookup instrs :
  forall c g k a b,
    NoDup (c :: instrs) ->
    (c :: instrs) !! k = Some a -> (c :: instrs) !! S k = Some b ->
    wire c instrs g !! a = Some b.
Proof.
  induction instrs as [|i rest IH]; intros c g k a b Hnd Ha Hb.
  - simpl in Hb. done.
  - apply NoDup_cons in Hnd as [Hc Hnd]. cbn [wire].
    destruct k as [|k].
    + injection Ha as <-. injection Hb as <-.
      rewrite wire_frame by done. unfold links, Instruction in *.
      by rewrite lookup_insert_eq.
    + by apply (IH i _ k).
Qed.

Lemma Fragment_of_list_from_singles instrs :
  forall e c g,
    Fragment_of_list_from (mkFragment (Some e) (Some c))
      (Fragment_single <$> instrs) g
    = Ok (mkFragment (Some e) (last (c :: instrs)), wire c instrs g).
Proof.
  induction instrs as [|i rest IH]; intros e c g; [done|].
  rewrite fmap_cons.
  change (Fragment_of_list_from ?t (?x :: ?l) g)
    with (match plus_assign t x g with
          | Ok (this', g') => Fragment_of_list_from this' l g'
          | Fault f => Fault f
          | OutOfFuel => OutOfFuel
          end).
  unfold plus_assign, is_closed, is_open, Fragment_single.
  cbn [entry current negb]. by rewrite IH, last_cons_cons.
Qed.

(** X16.  The list constructor [Fragment{f1, ..., fn}].  From open
    fragments it builds an open fragment and never asserts.  A closed
    fragment is accepted in the last place only, and makes the result
    closed; anywhere earlier, the constructor asserts at the fragment that
    follows it, even an empty one.  From single instructions, all
    different, it builds the fragment from the first to the last, with each
    instruction wired to the next. *)
Theorem Fragment_list_constructor (g : links) :
  (forall list,
      Forall (fun f => is_open f = true) list ->
      exists r g', Fragment_of_list list g = Ok (r, g') /\ is_open r = true)
  /\ (forall l1 c,
        Forall (fun f => is_open f = true) l1 -> is_closed c = true ->
        exists r g',
          Fragment_of_list (l1 ++ [c]) g = Ok (r, g')
          /\ is_closed r = true)
  /\ (forall l1 c f l2,
        Forall (fun f => is_open f = true) l1 -> is_closed c = true ->
        Fragment_of_list (l1 ++ c :: f :: l2) g = Fault AssertionFailure)
  /\ (forall i instrs,
        NoDup (i :: instrs) ->
        exists g',
          Fragment_of_list (Fragment_single <$> i :: instrs) g
          = Ok (mkFragment (Some i) (last (i :: instrs)), g')
          /\ forall k a b,
               (i :: instrs) !! k = Some a -> (i :: instrs) !! S k = Some b ->
               g' !! a = Some b).
Proof.
  split; [|split; [|split]].
  - intros list Hall. by apply Fragment_of_list_from_open.
  - intros l1 c Hall Hc. unfold Fragment_of_list.
    rewrite Fragment_of_list_from_app.
    destruct (Fragment_of_list_from_open l1 Fragment_empty g eq_refl Hall)
      as (r & g' & -> & Hr). simpl.
    destruct (plus_assign_closed_right r c g' Hr Hc) as (r' & g'' & -> & Hr').
    by eexists _, _.
  - intros l1 c f l2 Hall Hc. unfold Fragment_of_list.
    rewrite Fragment_of_list_from_app.
    destruct (Fragment_of_list_from_open l1 Fragment_empty g eq_refl Hall)
      as (r & g' & -> & Hr). simpl.
    destruct (plus_assign_closed_right r c g' Hr Hc) as (r' & g'' & -> & Hr').
    unfold plus_assign. by rewrite Hr'.
  - intros i instrs Hnd. unfold Fragment_of_list. rewrite fmap_cons.
    change (Fragment_of_list_from ?t (?x :: ?l) g)
      with (match plus_assign t x g with
            | Ok (this', g') => Fragment_of_list_from this' l g'
            | Fault f => Fault f
            | OutOfFuel => OutOfFuel
            end).
    change (plus_assign Fragment_empty (Fragment_single i) g)
      with (Ok (Fragment_single i, g) : outcome (Fragment * links)).
    unfold Fragment_single at 1. rewrite Fragment_of_list_from_singles.
    eexists. split; [done|].
    intros k a b Ha Hb. by apply (wire_lookup instrs i g k).
Qed.

(** *** The two allocators of the builder *)

Lemma allocate_n_AllocateTryIndex n :
  forall s,
    IntPtr.in_range (next_used_try_index_ (builder s)) ->
    IntPtr.in_range (next_used_try_index_ (builder s) + Z.of_nat n) ->
    allocate_n AllocateTryIndex n s
    = Ok (seqZ (next_used_try_index_ (builder s)) (Z.of_nat n),
          with_builder
            (set_next_used_try_index_
               (next_used_try_index_ (builder s) + Z.of_nat n)) s).
Proof.
  induction n as [|n IH]; intros s Hlo Hhi.
  - simpl. cbv [mret M_ret]. do 2 f_equal.
    replace (next_used_try_index_ (builder s) + Z.of_nat 0)
      with (next_used_try_index_ (builder s)) by lia.
    by destruct s as [[] ?].
  - assert (Hone : IntPtr.in_range (next_used_try_index_ (builder s) + 1))
      by range_lia.
    cbn [allocate_n].
    assert (Hstep : AllocateTryIndex s
                    = Ok (next_used_try_index_ (builder s),
                          with_builder
                            (set_next_used_try_index_
                               (next_used_try_index_ (builder s) + 1)) s)).
    { unfold AllocateTryIndex. cbv [mbind M_bind modify gets mret M_ret].
      by rewrite (IntPtr_add_exact _ _ Hone). }
    rewrite (bind_Ok_intro _ _ _ _ _ Hstep).
    set (s1 := with_builder _ s).
    assert (Hs1 : next_used_try_index_ (builder s1)
                  = next_used_try_index_ (builder s) + 1) by done.
    assert (Hlo1 : IntPtr.in_range (next_used_try_index_ (builder s1)))
      by (by rewrite Hs1).
    assert (Hhi1 : IntPtr.in_range
                     (next_used_try_index_ (builder s1) + Z.of_nat n)).
    { rewrite Hs1.
      replace (next_used_try_index_ (builder s) + 1 + Z.of_nat n)
        with (next_used_try_index_ (builder s) + Z.of_nat (S n)) by lia.
      done. }
    rewrite (bind_Ok_intro _ _ _ _ _ (IH s1 Hlo1 Hhi1)).
    cbv [mret M_ret]. rewrite Hs1.
    rewrite (seqZ_cons _ (Z.of_nat (S n))) by lia.
    replace (Z.succ (next_used_try_index_ (builder s)))
      with (next_used_try_index_ (builder s) + 1) by lia.
    replace (Z.pred (Z.of_nat (S n))) with (Z.of_nat n) by lia.
    replace (next_used_try_index_ (builder s) + 1 + Z.of_nat n)
      with (next_used_try_index_ (builder s) + Z.of_nat (S n)) by lia.
    subst s1. by destruct s as [[] ?].
Qed.

Lemma allocate_n_AllocateBlockId n :
  forall s,
    IntPtr.in_range (last_used_block_id_ (builder s)) ->
    IntPtr.in_range (last_used_block_id_ (builder s) + Z.of_nat n) ->
    allocate_n AllocateBlockId n s
    = Ok (seqZ (last_used_block_id_ (builder s) + 1) (Z.of_nat n),
          with_builder
            (set_last_used_block_id_
               (last_used_block_id_ (builder s) + Z.of_nat n)) s).
Proof.
  induction n as [|n IH]; intros s Hlo Hhi.
  - simpl. cbv [mret M_ret]. do 2 f_equal.
    replace (last_used_block_id_ (builder s) + Z.of_nat 0)
      with (last_used_block_id_ (builder s)) by lia.
    by destruct s as [[] ?].
  - assert (Hone : IntPtr.in_range (last_used_block_id_ (builder s) + 1))
      by range_lia.
    cbn [allocate_n].
    assert (Hstep : AllocateBlockId s
                    = Ok (last_used_block_id_ (builder s) + 1,
                          with_builder
                            (set_last_used_block_id_
                               (last_used_block_id_ (builder s) + 1)) s)).
    { unfold AllocateBlockId. cbv [mbind M_bind modify gets mret M_ret].
      by rewrite (IntPtr_add_exact _ _ Hone). }
    rewrite (bind_Ok_intro _ _ _ _ _ Hstep).
    set (s1 := with_builder _ s).
    assert (Hs1 : last_used_block_id_ (builder s1)
                  = last_used_block_id_ (builder s) + 1) by done.
    assert (Hlo1 : IntPtr.in_range (last_used_block_id_ (builder s1)))
      by (by rewrite Hs1).
    assert (Hhi1 : IntPtr.in_range
                     (last_used_block_id_ (builder s1) + Z.of_nat n)).
    { rewrite Hs1.
      replace (last_used_block_id_ (builder s) + 1 + Z.of_nat n)
        with (last_used_block_id_ (builder s) + Z.of_nat (S n)) by lia.
      done. }
    rewrite (bind_Ok_intro _ _ _ _ _ (IH s1 Hlo1 Hhi1)).
    cbv [mret M_ret]. rewrite Hs1.
    rewrite (seqZ_cons _ (Z.of_nat (S n))) by lia.
    replace (Z.succ (last_used_block_id_ (builder s) + 1))
      with (last_used_block_id_ (builder s) + 1 + 1) by lia.
    replace (Z.pred (Z.of_nat (S n))) with (Z.of_nat n) by lia.
    replace (last_used_block_id_ (builder s) + 1 + Z.of_nat n)
      with (last_used_block_id_ (builder s) + Z.of_nat (S n)) by lia.
    subst s1. by destruct s as [[] ?].
Qed.

(** X17.  [AllocateTryIndex] returns the counter and then steps it,
    [AllocateBlockId] steps the counter and then returns it: [n] calls in a
    row return [next], ..., [next + n - 1] for try indices and [last + 1],
    ..., [last + n] for block ids, as long as the counters stay
    representable.  So no id is handed out twice, no block id equals the
    [last_used_block_id] the builder was given, and neither allocator
    touches anything but its own counter. *)
Theorem allocators_hand_out_fresh_ids n s :
  (IntPtr.in_range (next_used_try_index_ (builder s)) ->
   IntPtr.in_range (next_used_try_index_ (builder s) + Z.of_nat n) ->
   exists ids,
     allocate_n AllocateTryIndex n s
     = Ok (ids, with_builder
                  (set_next_used_try_index_
                     (next_used_try_index_ (builder s) + Z.of_nat n)) s)
     /\ NoDup ids
     /\ forall k, (k < n)%nat ->
          ids !! k = Some (next_used_try_index_ (builder s) + Z.of_nat k))
  /\ (IntPtr.in_range (last_used_block_id_ (builder s)) ->
      IntPtr.in_range (last_used_block_id_ (builder s) + Z.of_nat n) ->
      exists ids,
        allocate_n AllocateBlockId n s
        = Ok (ids, with_builder
                     (set_last_used_block_id_
                        (last_used_block_id_ (builder s) + Z.of_nat n)) s)
        /\ NoDup ids
        /\ (last_used_block_id_ (builder s) ∉ ids)
        /\ forall k, (k < n)%nat ->
             ids !! k
             = Some (last_used_block_id_ (builder s) + 1 + Z.of_nat k)).
Proof.
  split; intros Hlo Hhi.
  - eexists. split; [by apply allocate_n_AllocateTryIndex|].
    split; [apply NoDup_seqZ|].
    intros k Hk. apply lookup_seqZ. lia.
  - eexists. split; [by apply allocate_n_AllocateBlockId|].
    split; [apply NoDup_seqZ|]. split.
    + intros Hin%elem_of_seqZ. lia.
    + intros k Hk. apply lookup_seqZ. lia.
Qed.

(** *** The keys of the constants table *)

Section TraitsFacts.
Context {RawSmi : Type} `{EqDecision RawSmi}.
Variable Smi_New : Z -> RawSmi.
Variable Smi_Value : RawSmi -> Z.
Variable Smi_kMaxValue : Z.

Import KernelConstMapKeyEqualsTraits.

Lemma HashValue_nonneg pos :
  13 < Smi_kMaxValue -> Smi_kMaxValue <= IntPtr.kMax -> 0 <= pos ->
  HashValue Smi_kMaxValue pos = pos mod (Smi_kMaxValue - 13).
Proof.
  intros Hlo Hhi Hpos. unfold HashValue, to_uword.
  rewrite IntPtr_sub_exact by range_lia.
  rewrite Z.rem_mod_nonneg by lia.
  pose proof (Z.mod_pos_bound pos (Smi_kMaxValue - 13) ltac:(lia)).
  apply Z.mod_small. rewrite IntPtr_modulus.
  unfold IntPtr.kMax in Hhi. pose proof IntPtr_half_pos. lia.
Qed.

(** X18.  The two sets of entry points of the traits, by boxed key and by
    integer key, agree, for any representation of small integers in which
    [Value] undoes [New] on 0 .. [kMaxValue] and different boxed values
    have different integers.  A negative integer key fails the assertion
    in [NewKey], [Hash] and [IsMatch] alike.  For a key from 0 to
    [kMaxValue], [Hash(key)] is the hash of [NewKey(key)], namely [key]
    modulo [kMaxValue - 13]; [IsMatch(key, b)] is [IsMatch(NewKey(key),
    b)]; and what matches has the same hash. *)
Theorem traits_agree_on_integer_keys key :
  13 < Smi_kMaxValue -> Smi_kMaxValue <= IntPtr.kMax ->
  (forall v, 0 <= v <= Smi_kMaxValue -> Smi_Value (Smi_New v) = v) ->
  (forall a b, Smi_Value a = Smi_Value b -> a = b) ->
  (key < 0 ->
   NewKey Smi_New key = Fault AssertionFailure
   /\ Hash_key Smi_New Smi_Value Smi_kMaxValue key = Fault AssertionFailure
   /\ forall b, IsMatch_key Smi_New key b = Fault AssertionFailure)
  /\ (0 <= key <= Smi_kMaxValue ->
      NewKey Smi_New key = Ok (Smi_New key)
      /\ Hash_key Smi_New Smi_Value Smi_kMaxValue key
         = Ok (Hash Smi_Value Smi_kMaxValue (Smi_New key))
      /\ Hash Smi_Value Smi_kMaxValue (Smi_New key)
         = key mod (Smi_kMaxValue - 13)
      /\ 0 <= Hash Smi_Value Smi_kMaxValue (Smi_New key)
           < Smi_kMaxValue - 13
      /\ forall b,
           IsMatch_key Smi_New key b
           = Ok (IsMatch Smi_Value (Smi_New key) b)
           /\ (IsMatch Smi_Value (Smi_New key) b = true ->
               Hash Smi_Value Smi_kMaxValue b
               = Hash Smi_Value Smi_kMaxValue (Smi_New key))).
Proof.
  intros Hlo Hhi Hround Hinj. split.
  - intros Hneg. unfold NewKey, Hash_key, IsMatch_key, KeyAsSmi.
    destruct (Z.geb_spec key 0); [lia|]. done.
  - intros Hkey. unfold NewKey, Hash_key, IsMatch_key, KeyAsSmi, Hash.
    destruct (Z.geb_spec key 0); [|lia].
    rewrite Hround by done.
    rewrite (HashValue_nonneg key Hlo Hhi) by lia.
    split; [done|]. split; [done|]. split; [done|].
    split; [apply Z.mod_pos_bound; lia|].
    intros b. unfold IsMatch. rewrite Hround by done. split.
    + f_equal. destruct (Z.eqb_spec key (Smi_Value b)) as [Heq|Hne].
      * apply bool_decide_eq_true. apply Hinj. by rewrite Hround.
      * apply bool_decide_eq_false. intros <-. by rewrite Hround in Hne.
    + intros Heq%Z.eqb_eq. rewrite <- Heq.
      apply HashValue_nonneg; [done | done | lia].
Qed.

End TraitsFacts.

End Properties.

(** ** The theorems at concrete inputs *)

Section Witnesses.
#[local] Existing Instance reference_constants.

(** [two_breakables] is what two nested constructions leave. *)
Lemma two_breakables_built :
  (BreakableBlock_ctor 10%nat ≫= fun _ => BreakableBlock_ctor 11%nat)
    (new_state 0)
  = Ok (tt, two_breakables).
Proof. vm_compute. reflexivity. Qed.

Lemma two_breakables_chain :
  chain bb_outer_ (breakable_blocks two_breakables)
    (breakable_block_ (builder two_breakables)) [11%nat; 10%nat].
Proof.
  eapply chain_cons; [reflexivity | by intros ?%list_elem_of_singleton |].
  eapply chain_cons; [reflexivity | apply not_elem_of_nil |].
  apply chain_nil.
Defined.

(** [two_switches] is what two nested constructions leave. *)
Lemma two_switches_built :
  nest_switches [(19%nat, 2); (20%nat, 3)] (new_state 0)
  = Ok (tt, two_switches).
Proof. vm_compute. reflexivity. Qed.

Lemma BreakDestination_shared_join_witness :
  exists rs s' j,
    resolve_breaks 11%nat [0; 1; 0] two_breakables = Ok (rs, s')
    /\ res_join <$> rs !! 0%nat = Some j
    /\ res_join <$> rs !! 2%nat = Some j.
Proof.
  destruct (BreakDestination_shared_join 11%nat [11%nat; 10%nat] 0 10%nat
              [0; 1; 0] two_breakables
              (mkBreakableBlock 0 None None None 0 (-1)))
    as (rs & s' & j & r' & Hrun & _ & Hj & _).
  - exact two_breakables_chain.
  - eexists. reflexivity.
  - intros L' HL'.
    assert (L' = 0 \/ L' = 1) as [-> | ->].
    { apply elem_of_cons in HL' as [->|HL']; [by left|].
      apply elem_of_cons in HL' as [->|HL']; [by right|].
      apply list_elem_of_singleton in HL' as ->. by left. }
    + eexists. reflexivity.
    + eexists. reflexivity.
  - reflexivity.
  - reflexivity.
  - exists rs, s', j. split; [exact Hrun|].
    split; apply Hj; reflexivity.
Defined.

Lemma nested_switch_resolution_witness :
  exists j s3,
    SwitchBlock_Destination 20%nat 3 true true two_switches
    = Ok (mkResolution j (Some None) (Some 0), s3)
    /\ sb_destinations_ <$> switch_blocks s3 !! 20%nat = Some {[ 1 := j ]}.
Proof.
  destruct nested_switch_resolution as [Hnested _].
  destruct (Hnested (new_state 0) 19%nat 20%nat 2 3 3 true true)
    as (s2 & b0 & b1 & Hrun & Hb0 & Hb1 & _ & _ & _ & _ & _ & _ & Hin & _).
  - reflexivity.
  - exact I.
  - discriminate.
  - vm_compute. split; discriminate.
  - vm_compute. split; discriminate.
  - vm_compute. split; discriminate.
  - intros _. reflexivity.
  - assert (Ok (tt, s2) = Ok (tt, two_switches)) as [= ->]
      by (rewrite <- Hrun; exact two_switches_built).
    vm_compute in Hb1. injection Hb1 as <-.
    destruct Hin as (_ & j & s3 & Hd & Hc & _); [lia|].
    exists j, s3. split; [exact Hd | exact Hc].
Defined.

Lemma DestinationDirect_agrees_with_Destination_witness :
  SwitchBlock_Destination 20%nat 3 true true two_switches
  = SwitchBlock_DestinationDirect 20%nat 1 true true two_switches.
Proof.
  apply (DestinationDirect_agrees_with_Destination two_switches 20%nat
           (mkSwitchBlock (Some 19%nat) ∅ None 3 2 0 (-1)) 1 true true).
  - reflexivity.
  - lia.
  - vm_compute. split; discriminate.
  - vm_compute. split; discriminate.
Defined.

Lemma TryFinallyBlock_records_entry_values_witness :
  exists s1,
    TryFinallyBlock_ctor 5%nat 42 (new_state 0) = Ok (tt, s1)
    /\ TryFinallyBlock_try_depth 5%nat s1 = Ok (-1, s1)
    /\ TryFinallyBlock_finalizer_kernel_offset 5%nat s1 = Ok (42, s1).
Proof.
  destruct (TryFinallyBlock_records_entry_values (new_state 0) 5%nat 42)
    as (ti & s1 & _ & Hctor & Hlife).
  - exact I.
  - vm_compute. split; discriminate.
  - exists s1. split; [exact Hctor|].
    destruct (Hlife [] s1 eq_refl eq_refl) as (Hoff & _ & _ & Hdepth).
    split; [exact Hdepth | exact Hoff].
Defined.

Lemma chain_records_push_pop_witness :
  exists s1 s3,
    BreakableBlock_ctor 12%nat two_breakables = Ok (tt, s1)
    /\ breakable_block_ (builder s1) = Some 12%nat
    /\ BreakableBlock_dtor 12%nat s1 = Ok (tt, s3)
    /\ breakable_block_ (builder s3) = Some 11%nat.
Proof.
  destruct (chain_records_push_pop two_breakables 12%nat)
    as (_ & _ & Hbb & _).
  destruct Hbb as (s1 & Hctor & Htop & _ & Hpop).
  - split; [exact I|]. split; [|exact I]. eexists. reflexivity.
  - destruct (Hpop [] s1 eq_refl eq_refl) as (s3 & Hdtor & Hrestored).
    exists s1, s3. repeat split; assumption.
Defined.

Lemma BreakableBlock_label_index_witness :
  exists s1 r,
    BreakableBlock_ctor 12%nat two_breakables = Ok (tt, s1)
    /\ breakable_blocks s1 !! 12%nat = Some r
    /\ bb_index_ r = 2.
Proof.
  destruct (BreakableBlock_label_index two_breakables 12%nat)
    as (s1 & r & Hctor & Hr & _ & _ & Hidx).
  - split; [exact I|]. split; [|exact I]. eexists. reflexivity.
  - exists s1, r. split; [exact Hctor|]. split; [exact Hr|].
    apply (Hidx 11%nat (mkBreakableBlock 1 (Some 10%nat) None None 0 (-1)));
      [reflexivity | reflexivity |].
    vm_compute. split; discriminate.
Defined.

(** C9.  On [two_breakables], whose chain carries the labels 1 and 0, a
    break resolution for label 2 evaluates [block->index_] with
    [block == NULL]: the walk leaves the chain before the [ASSERT] that
    follows the loop is reached, and no assertion failure is raised. *)
Example BreakDestination_missing_label_reads_null :
  BreakableBlock_BreakDestination 11%nat 2 two_breakables
  = Fault NullDereference.
Proof. vm_compute. reflexivity. Qed.


(** ** The further properties at concrete inputs *)

Lemma nested_break_labels_witness :
  exists s' res s'',
    nest_breakables [10%nat; 11%nat] (new_state 0) = Ok (tt, s')
    /\ BreakableBlock_BreakDestination 11%nat 0 s' = Ok (res, s'')
    /\ slot_join s'' (BreakSlot 10%nat) = Some (res_join res).
Proof.
  destruct (nested_break_labels [10%nat; 11%nat] (new_state 0) 11%nat 0)
    as (s' & Hrun & _ & Hin & _).
  - reflexivity.
  - exact I.
  - apply NoDup_cons. split; [by intros ?%list_elem_of_singleton|].
    apply NoDup_singleton.
  - vm_compute. split; discriminate.
  - apply (list_elem_of_lookup_2 _ 1%nat). reflexivity.
  - destruct (Hin 10%nat) as (res & s'' & Hd & Hs & _); [lia | reflexivity |].
    exists s', res, s''. split; [exact Hrun|]. split; [exact Hd | exact Hs].
Defined.

Lemma nested_switch_destination_general_witness :
  exists s' res s'',
    nest_switches [(19%nat, 2); (20%nat, 3)] (new_state 0) = Ok (tt, s')
    /\ SwitchBlock_Destination 20%nat 1 true true s' = Ok (res, s'')
    /\ slot_join s'' (CaseSlot 19%nat 1) = Some (res_join res).
Proof.
  destruct (nested_switch_destination_general
              [(19%nat, 2); (20%nat, 3)] (new_state 0)
              0%nat 1%nat 19%nat 2 20%nat 3 1 true true)
    as (s' & Hrun & _ & res & s'' & Hd & Hs & _).
  - reflexivity.
  - exact I.
  - apply NoDup_cons. split; [by intros ?%list_elem_of_singleton|].
    apply NoDup_singleton.
  - intros [|[|j]] Hj; [vm_compute; split; discriminate ..|].
    simpl in Hj. lia.
  - intros n Hn. simpl in Hn. apply elem_of_cons in Hn as [->|Hn]; [lia|].
    apply list_elem_of_singleton in Hn as ->. lia.
  - reflexivity.
  - reflexivity.
  - lia.
  - vm_compute. split; discriminate.
  - vm_compute. discriminate.
  - intros _. reflexivity.
  - reflexivity.
  - exists s', res, s''. split; [exact Hrun|]. split; [exact Hd | exact Hs].
Defined.

Lemma nested_switch_destination_below_witness :
  exists s',
    nest_switches [(19%nat, 2); (20%nat, 3)] (new_state 0) = Ok (tt, s')
    /\ SwitchBlock_Destination 20%nat (-1) false false s'
       = Fault NullDereference.
Proof.
  apply (nested_switch_destination_below
           [(19%nat, 2); (20%nat, 3)] (new_state 0) 1%nat 20%nat 3 (-1)
           false false).
  - reflexivity.
  - exact I.
  - apply NoDup_cons. split; [by intros ?%list_elem_of_singleton|].
    apply NoDup_singleton.
  - intros [|[|j]] Hj; [vm_compute; split; discriminate ..|].
    simpl in Hj. lia.
  - intros n Hn. simpl in Hn. apply elem_of_cons in Hn as [->|Hn]; [lia|].
    apply list_elem_of_singleton in Hn as ->. lia.
  - reflexivity.
  - reflexivity.
Defined.

Lemma tops_valid_new_state : tops_valid (new_state 0).
Proof. split; [exact I|]. split; exact I. Defined.

Lemma break_resolves_in_entry_context_witness :
  exists ti s1 res s3,
    CurrentTryIndex (new_state 0) = Ok (ti, new_state 0)
    /\ BreakableBlock_ctor 10%nat (new_state 0) = Ok (tt, s1)
    /\ BreakableBlock_BreakDestination 10%nat 0 s1 = Ok (res, s3)
    /\ res_context_depth res = Some 0
    /\ join_entries s3 !! res_join res = Some (mkJoinEntryInstr ti).
Proof.
  destruct (break_resolves_in_entry_context (new_state 0) 10%nat
              tops_valid_new_state (caches_wf_new_state 0))
    as (ti & s1 & Hti & Hctor & Hres).
  assert (Ok (tt, s1)
          = Ok (tt, with_breakable_blocks
                      (insert 10%nat (mkBreakableBlock 0 None None None 0 (-1)))
                      (with_builder (set_breakable_block_ (Some 10%nat))
                         (new_state 0)))) as [= ->]
    by (rewrite <- Hctor; vm_compute; reflexivity).
  set (s1 := with_breakable_blocks _ _) in *.
  destruct (Hres [] s1 10%nat [10%nat] 0 eq_refl eq_refl)
    as (res & s3 & Hd & _ & Hdepth & Hjoin).
  - eapply chain_cons; [reflexivity | apply not_elem_of_nil | apply chain_nil].
  - eexists. reflexivity.
  - reflexivity.
  - exists ti, s1, res, s3.
    split; [exact Hti|]. split; [exact Hctor|]. split; [exact Hd|].
    split; [exact Hdepth | exact Hjoin].
Defined.

Lemma switch_resolves_in_entry_context_witness :
  exists ti s1 res s3,
    CurrentTryIndex (new_state 0) = Ok (ti, new_state 0)
    /\ SwitchBlock_ctor 19%nat 2 (new_state 0) = Ok (tt, s1)
    /\ SwitchBlock_DestinationDirect 19%nat 1 true true s1 = Ok (res, s3)
    /\ res_context_depth res = Some 0
    /\ join_entries s3 !! res_join res = Some (mkJoinEntryInstr ti).
Proof.
  destruct (switch_resolves_in_entry_context (new_state 0) 19%nat 2
              tops_valid_new_state (caches_wf_new_state 0))
    as (ti & s1 & Hti & Hctor & Hres).
  destruct (Hres [] s1 1 true true eq_refl eq_refl)
    as (res & s3 & Hd & _ & Hdepth & Hjoin); [reflexivity|].
  exists ti, s1, res, s3.
  split; [exact Hti|]. split; [exact Hctor|]. split; [exact Hd|].
  split; [exact Hdepth | exact Hjoin].
Defined.

Lemma BreakableBlock_HadJumper_tracks_witness :
  exists s1,
    BreakableBlock_ctor 10%nat (new_state 0) = Ok (tt, s1)
    /\ BreakableBlock_HadJumper 10%nat s1 = Ok (false, s1).
Proof.
  destruct (BreakableBlock_HadJumper_tracks (new_state 0) 10%nat
              tops_valid_new_state)
    as (s1 & Hctor & Hfresh & _).
  exists s1. split; [exact Hctor|].
  exact (proj1 (Hfresh [] s1 eq_refl eq_refl eq_refl)).
Defined.

Lemma SwitchBlock_cases_cached_one_by_one_witness :
  exists s1 res s3,
    SwitchBlock_ctor 19%nat 2 (new_state 0) = Ok (tt, s1)
    /\ SwitchBlock_HadJumper 19%nat 1 s1 = Ok (false, s1)
    /\ SwitchBlock_DestinationDirect 19%nat 1 false false s1 = Ok (res, s3)
    /\ SwitchBlock_HadJumper 19%nat 1 s3 = Ok (true, s3)
    /\ SwitchBlock_HadJumper 19%nat 0 s3 = Ok (false, s3).
Proof.
  destruct (SwitchBlock_cases_cached_one_by_one (new_state 0) 19%nat 2
              tops_valid_new_state)
    as (s1 & Hctor & Hfresh & Hres).
  destruct (Hres [] s1 1 false false eq_refl eq_refl)
    as (res & s3 & Hd & _ & Hothers & Hlater); [discriminate|].
  exists s1, res, s3. split; [exact Hctor|].
  split; [exact (Hfresh [] s1 1 eq_refl eq_refl eq_refl)|].
  split; [exact Hd|].
  split; [exact (proj1 (Hlater [] s3 eq_refl eq_refl))|].
  apply Hothers; [lia|]. exact (Hfresh [] s1 0 eq_refl eq_refl eq_refl).
Defined.

Lemma cached_joins_never_shared_witness :
  exists s',
    run [BreakableBlock_new 10%nat; SwitchBlock_new 19%nat 2;
         BreakDestination_call 10%nat 0;
         DestinationDirect_call 19%nat 1 false false] (new_state 0)
    = Ok (tt, s')
    /\ forall sl1 sl2 j,
         slot_join s' sl1 = Some j -> slot_join s' sl2 = Some j -> sl1 = sl2.
Proof.
  eexists. split; [vm_compute; reflexivity|].
  refine (proj1 (cached_joins_never_shared (new_state 0)
                   [BreakableBlock_new 10%nat; SwitchBlock_new 19%nat 2;
                    BreakDestination_call 10%nat 0;
                    DestinationDirect_call 19%nat 1 false false]
                   _ (caches_wf_new_state 0) _)).
  vm_compute. reflexivity.
Defined.

Lemma join_arena_only_grows_witness :
  exists s',
    run [BreakableBlock_new 10%nat; BreakDestination_call 10%nat 0;
         BreakableBlock_delete 10%nat] (new_state 0)
    = Ok (tt, s')
    /\ join_entries (new_state 0) `prefix_of` join_entries s'.
Proof.
  eexists. split; [vm_compute; reflexivity|].
  refine (proj1 (join_arena_only_grows (new_state 0)
                   [BreakableBlock_new 10%nat; BreakDestination_call 10%nat 0;
                    BreakableBlock_delete 10%nat] _ _)).
  vm_compute. reflexivity.
Defined.

Lemma push_pop_restores_state_witness :
  (BreakableBlock_ctor 12%nat ≫= fun _ => BreakableBlock_dtor 12%nat)
    two_breakables
  = Ok (tt, two_breakables).
Proof.
  destruct (push_pop_restores_state two_breakables 12%nat)
    as (_ & Hbb & _).
  apply Hbb; [|reflexivity].
  split; [exact I|]. split; [|exact I]. eexists. reflexivity.
Defined.

Lemma switch_out_params_independent_witness :
  SwitchBlock_DestinationDirect 20%nat 1 true false two_switches
  = Fault NullDereference.
Proof.
  destruct (switch_out_params_independent two_switches 20%nat 1 true false)
    as (_ & _ & Hnull).
  apply Hnull. eexists. reflexivity.
Defined.

Lemma TryCatchBlock_sets_current_try_index_witness :
  exists s1,
    TryCatchBlock_ctor 3%nat (-1) (new_state 0) = Ok (tt, s1)
    /\ CurrentTryIndex s1 = Ok (0, s1).
Proof.
  destruct (TryCatchBlock_sets_current_try_index (new_state 0) 3%nat (-1))
    as (s1 & Hctor & Hlife).
  exists s1. split; [exact Hctor|].
  destruct (Hlife [] s1 eq_refl eq_refl) as (_ & _ & Htop).
  apply Htop.
  assert (Ok (tt, s1) = TryCatchBlock_ctor 3%nat (-1) (new_state 0)) as Hs
    by (symmetry; exact Hctor).
  vm_compute in Hs. injection Hs as ->. reflexivity.
Defined.

Lemma try_index_counter_counts_witness :
  exists s',
    run [TryCatchBlock_new 3%nat (-1); AllocateTryIndex_call;
         TryCatchBlock_new 4%nat 7; BreakableBlock_new 10%nat] (new_state 0)
    = Ok (tt, s')
    /\ next_used_try_index_ (builder s') = 2.
Proof.
  eexists. split; [vm_compute; reflexivity|].
  eapply (try_index_counter_counts
            [TryCatchBlock_new 3%nat (-1); AllocateTryIndex_call;
             TryCatchBlock_new 4%nat 7; BreakableBlock_new 10%nat]
            (new_state 0)).
  - vm_compute. reflexivity.
  - vm_compute. split; discriminate.
  - vm_compute. split; discriminate.
Defined.

Lemma nested_try_indices_witness :
  exists s',
    nest_try_catch [3%nat; 4%nat] (new_state 0) = Ok (tt, s')
    /\ TryCatchBlock_try_index 4%nat s' = Ok (1, s')
    /\ CurrentTryIndex s' = Ok (1, s').
Proof.
  destruct (nested_try_indices [3%nat; 4%nat] (new_state 0))
    as (s' & Hrun & Hidx & Hcur & _).
  - apply NoDup_cons. split; [by intros ?%list_elem_of_singleton|].
    apply NoDup_singleton.
  - vm_compute. split; discriminate.
  - vm_compute. split; discriminate.
  - exists s'. split; [exact Hrun|].
    split; [exact (proj1 (Hidx 1%nat 4%nat eq_refl))|].
    apply Hcur. discriminate.
Defined.

Lemma CatchBlock_records_arguments_witness :
  exists s1,
    CatchBlock_ctor 30%nat (Some 1%nat) (Some 2%nat) 7 (new_state 0)
    = Ok (tt, s1)
    /\ CatchBlock_catch_try_index 30%nat s1 = Ok (7, s1).
Proof.
  destruct (CatchBlock_records_arguments (new_state 0) 30%nat
              (Some 1%nat) (Some 2%nat) 7)
    as (s1 & Hctor & Hlife).
  exists s1. split; [exact Hctor|].
  destruct (Hlife [] s1 eq_refl eq_refl) as (_ & _ & Hi). exact Hi.
Defined.

Lemma Fragment_list_constructor_witness :
  Fragment_of_list
    [Fragment_single 1%nat; mkFragment (Some 2%nat) None; Fragment_empty] ∅
  = Fault AssertionFailure.
Proof.
  destruct (Fragment_list_constructor ∅) as (_ & _ & Hclosed & _).
  apply (Hclosed [Fragment_single 1%nat] (mkFragment (Some 2%nat) None)
           Fragment_empty []).
  - apply Forall_cons. split; [reflexivity | apply Forall_nil_2].
  - reflexivity.
Defined.

Lemma allocators_hand_out_fresh_ids_witness :
  exists ids s',
    allocate_n AllocateBlockId 3 (new_state 0) = Ok (ids, s')
    /\ ids !! 0%nat = Some 1 /\ ids !! 2%nat = Some 3.
Proof.
  destruct (allocators_hand_out_fresh_ids 3 (new_state 0)) as (_ & Hblock).
  destruct Hblock as (ids & Hrun & _ & _ & Hk).
  - vm_compute. split; discriminate.
  - vm_compute. split; discriminate.
  - exists ids. eexists. split; [exact Hrun|].
    split; [exact (Hk 0%nat ltac:(lia)) | exact (Hk 2%nat ltac:(lia))].
Defined.

Lemma traits_agree_on_integer_keys_witness :
  KernelConstMapKeyEqualsTraits.Hash_key
    (fun z : Z => z) (fun z : Z => z) 4611686018427387903 5
  = Ok 5.
Proof.
  destruct (traits_agree_on_integer_keys
              (fun z : Z => z) (fun z : Z => z) 4611686018427387903 5)
    as (_ & Hkey).
  - reflexivity.
  - vm_compute. discriminate.
  - intros v _. reflexivity.
  - intros a b Hab. exact Hab.
  - destruct Hkey as (_ & Hhash & Hval & _); [lia|].
    rewrite Hhash, Hval. reflexivity.
Defined.

End Witnesses.
